(** * Letter: tokenizer, syntax tree and recursive-descent parser

    A shallow embedding of the three Go packages of the Letter front end
    ([tokenizer], [ast], [parser]) followed by the properties established
    about them.

    Go strings are byte sequences; they are modelled by [string], whose
    characters are the 256 byte values.  The regular expressions of the rule
    table only ever test ASCII bytes as delimiters (quotes, newline, star,
    slash), and such bytes never occur inside a multi-byte UTF-8 sequence, so
    a match over bytes has the same length as the match over runes that Go's
    [regexp] computes. *)

From Stdlib Require Import String Ascii List ZArith Lia Bool Arith.
From Stdlib Require Import DecimalString DecimalFacts DecimalPos.
Import ListNotations.
Open Scope string_scope.

(* ================================================================== *)
(** ** Package [tokenizer] *)

Module tokenizer.

Inductive TokenType : Set :=
  | LPAREN | RPAREN | LBRACE | RBRACE | LBRACKET | RBRACKET
  | COMMA | SEMICOLON | DOT
  (* Keywords *)
  | LET | IF | ELSE | TRUE | FALSE | NULL | DEF | RETURN
  (* Iterators keywords *)
  | WHILE | DO | FOR
  (* OOP Keywords *)
  | CLASS | THIS | EXTENDS | SUPER | NEW
  (* Literals *)
  | NUMBER | STRING | IDENTIFIER
  (* Operators *)
  | SIMPLE_ASSIGN | COMPLEX_ASSIGN | RELATIONAL_OPERATOR
  | EQUALITY_OPERATOR | ADDITIVE_OPERATOR | MULTIPLICATIVE_OPERATOR
  | LOGICAL_AND | LOGICAL_OR | LOGICAL_NOT
  (* NONE *)
  | IGNORE
  | EOF
  | ERROR.

Scheme Equality for TokenType.

(** The array [TokenNames], indexed by the token type. *)
Definition TokenNames (t : TokenType) : string :=
  match t with
  | LPAREN => "LPAREN" | RPAREN => "RPAREN"
  | LBRACE => "LBRACE" | RBRACE => "RBRACE"
  | LBRACKET => "LBRACKET" | RBRACKET => "RBRACKET"
  | COMMA => "COMMA" | SEMICOLON => "SEMICOLON" | DOT => "DOT"
  | LET => "LET" | IF => "IF" | ELSE => "ELSE" | TRUE => "TRUE"
  | FALSE => "FALSE" | NULL => "NULL" | DEF => "DEF" | RETURN => "RETURN"
  | WHILE => "WHILE" | DO => "DO" | FOR => "FOR"
  | CLASS => "CLASS" | THIS => "THIS" | EXTENDS => "EXTENDS"
  | SUPER => "SUPER" | NEW => "NEW"
  | NUMBER => "NUMBER" | STRING => "STRING" | IDENTIFIER => "IDENTIFIER"
  | SIMPLE_ASSIGN => "SIMPLE_ASSIGN" | COMPLEX_ASSIGN => "COMPLEX_ASSIGN"
  | RELATIONAL_OPERATOR => "RELATIONAL_OPERATOR"
  | EQUALITY_OPERATOR => "EQUALITY_OPERATOR"
  | ADDITIVE_OPERATOR => "ADDITIVE_OPERATOR"
  | MULTIPLICATIVE_OPERATOR => "MULTIPLICATIVE_OPERATOR"
  | LOGICAL_AND => "LOGICAL_AND" | LOGICAL_OR => "LOGICAL_OR"
  | LOGICAL_NOT => "LOGICAL_NOT"
  | IGNORE => "IGNORE" | EOF => "EOF" | ERROR => "ERROR"
  end.

Record Token : Set := mkToken { Type_ : TokenType; Value : string }.

(** *** Character classes of Go's [regexp] (RE2 syntax, ASCII only) *)

Definition in_range (lo hi : nat) (c : ascii) : bool :=
  (lo <=? nat_of_ascii c)%nat && (nat_of_ascii c <=? hi)%nat.

(** [\s] is [[\t\n\f\r ]]. *)
Definition is_space (c : ascii) : bool :=
  (c =? "009")%char || (c =? "010")%char || (c =? "012")%char
  || (c =? "013")%char || (c =? " ")%char.

(** [\d] is [[0-9]]. *)
Definition is_digit (c : ascii) : bool := in_range 48 57 c.

(** [\w] is [[0-9A-Za-z_]]. *)
Definition is_word (c : ascii) : bool :=
  is_digit c || in_range 65 90 c || in_range 97 122 c || (c =? "_")%char.

Definition is_one_of (cs : string) (c : ascii) : bool :=
  existsb (Ascii.eqb c) (list_ascii_of_string cs).

Definition is_not (q c : ascii) : bool := negb (c =? q)%char.

(** *** Anchored matchers, one per shape of regular expression in [Spec]

    Each takes the unconsumed input and returns what [FindString] returns
    for the pattern: the matched prefix, or the empty string when the
    pattern does not match at the start. *)

Fixpoint drop (n : nat) (s : string) : string :=
  match n, s with
  | 0, _ => s
  | S n', String _ r => drop n' r
  | S _, EmptyString => EmptyString
  end.

Definition first_char (s : string) : option ascii :=
  match s with String c _ => Some c | EmptyString => None end.

Fixpoint last_char (s : string) : option ascii :=
  match s with
  | EmptyString => None
  | String c EmptyString => Some c
  | String _ r => last_char r
  end.

Fixpoint take_while (p : ascii -> bool) (s : string) : string :=
  match s with
  | String c r => if p c then String c (take_while p r) else EmptyString
  | EmptyString => EmptyString
  end.

(** [^c+] for a class [c] (greedy). *)
Definition rx_plus (p : ascii -> bool) (input : string) : string :=
  take_while p input.

(** [^l] for a literal [l]. *)
Definition rx_lit (l : string) (input : string) : string :=
  if prefix l input then l else EmptyString.

(** [^[cs]] for a one-character class. *)
Definition rx_class (cs : string) (input : string) : string :=
  match input with
  | String c _ => if is_one_of cs c then String c EmptyString else EmptyString
  | EmptyString => EmptyString
  end.

(** [^[cs]=]. *)
Definition rx_class_eq (cs : string) (input : string) : string :=
  match input with
  | String c r =>
      if is_one_of cs c
      then (if prefix "=" r then String c "=" else EmptyString)
      else EmptyString
  | EmptyString => EmptyString
  end.

(** [^[cs]=?] (the optional [=] is greedy). *)
Definition rx_class_opt_eq (cs : string) (input : string) : string :=
  match input with
  | String c r =>
      if is_one_of cs c
      then (if prefix "=" r then String c "=" else String c EmptyString)
      else EmptyString
  | EmptyString => EmptyString
  end.

(** [^//.*]: [.] is every character but the newline. *)
Definition rx_line_comment (input : string) : string :=
  if prefix "//" input
  then "//" ++ take_while (is_not "010") (drop 2 input)
  else EmptyString.

(** The shortest prefix of [s] that ends in [*/], if there is one. *)
Fixpoint until_close (s : string) : option string :=
  match s with
  | EmptyString => None
  | String c r =>
      if prefix "*/" s then Some "*/"
      else match until_close r with
           | Some m => Some (String c m)
           | None => None
           end
  end.

(** [^\/\*[\s\S]*?\*\/]: the lazy star stops at the first [*/]. *)
Definition rx_block_comment (input : string) : string :=
  if prefix "/*" input
  then match until_close (drop 2 input) with
       | Some m => "/*" ++ m
       | None => EmptyString
       end
  else EmptyString.

(** [\b]: exactly one of the two neighbours is a word character; the start
    and the end of the text count as non-word. *)
Definition is_word_opt (o : option ascii) : bool :=
  match o with Some c => is_word c | None => false end.

Definition word_boundary (before after : option ascii) : bool :=
  xorb (is_word_opt before) (is_word_opt after).

(** [^\bkw\b]. *)
Definition rx_keyword (kw : string) (input : string) : string :=
  if prefix kw input
     && word_boundary None (first_char input)
     && word_boundary (last_char kw) (first_char (drop (String.length kw) input))
  then kw else EmptyString.

(** [^q[^q]*q] for a quote character [q]. *)
Definition rx_quoted (q : ascii) (input : string) : string :=
  match input with
  | String c r =>
      if (c =? q)%char
      then let body := take_while (is_not q) r in
           match drop (String.length body) r with
           | String _ _ => String q (body ++ String q EmptyString)
           | EmptyString => EmptyString
           end
      else EmptyString
  | EmptyString => EmptyString
  end.

Definition dquote : ascii := "034"%char.
Definition squote : ascii := "039"%char.

Record Tuple : Type := mkTuple { RegEx : string -> string; Type__ : TokenType }.

(** The rule table, in the order of the source. *)
Definition Spec : list Tuple :=
  [ (* Whitespace *)
    mkTuple (rx_plus is_space) IGNORE;
    (* Single comment *)
    mkTuple rx_line_comment IGNORE;
    (* Multiple comments *)
    mkTuple rx_block_comment IGNORE;
    (* Symbols and delimiters *)
    mkTuple (rx_lit "{") LBRACE;
    mkTuple (rx_lit "}") RBRACE;
    mkTuple (rx_lit "(") LPAREN;
    mkTuple (rx_lit ")") RPAREN;
    mkTuple (rx_lit "[") LBRACKET;
    mkTuple (rx_lit "]") RBRACKET;
    mkTuple (rx_lit ",") COMMA;
    mkTuple (rx_lit ";") SEMICOLON;
    mkTuple (rx_lit ".") DOT;
    (* Relational Operators *)
    mkTuple (rx_class_opt_eq "<>") RELATIONAL_OPERATOR;
    mkTuple (rx_class_eq "!=") EQUALITY_OPERATOR;
    (* Logical Operators *)
    mkTuple (rx_lit "&&") LOGICAL_AND;
    mkTuple (rx_lit "||") LOGICAL_OR;
    mkTuple (rx_lit "!") LOGICAL_NOT;
    (* Assignment Operators *)
    mkTuple (rx_lit "=") SIMPLE_ASSIGN;
    mkTuple (rx_class_eq "+-*/") COMPLEX_ASSIGN;
    (* Math operators: +, -, *, / *)
    mkTuple (rx_class "+-") ADDITIVE_OPERATOR;
    mkTuple (rx_class "*/") MULTIPLICATIVE_OPERATOR;
    (* Keywords *)
    mkTuple (rx_keyword "let") LET;
    mkTuple (rx_keyword "if") IF;
    mkTuple (rx_keyword "else") ELSE;
    mkTuple (rx_keyword "true") TRUE;
    mkTuple (rx_keyword "false") FALSE;
    mkTuple (rx_keyword "null") NULL;
    mkTuple (rx_keyword "def") DEF;
    mkTuple (rx_keyword "return") RETURN;
    (* OOP keywords *)
    mkTuple (rx_keyword "class") CLASS;
    mkTuple (rx_keyword "this") THIS;
    mkTuple (rx_keyword "extends") EXTENDS;
    mkTuple (rx_keyword "super") SUPER;
    mkTuple (rx_keyword "new") NEW;
    (* Iterators keywords *)
    mkTuple (rx_keyword "while") WHILE;
    mkTuple (rx_keyword "do") DO;
    mkTuple (rx_keyword "for") FOR;
    (* Literals *)
    mkTuple (rx_plus is_digit) NUMBER;
    mkTuple (rx_quoted dquote) STRING;
    mkTuple (rx_quoted squote) STRING;
    mkTuple (rx_plus is_word) IDENTIFIER ].

Record Tokenizer : Set := mkTokenizer { input : string; cursor : nat }.

Definition New (input : string) : Tokenizer := mkTokenizer input 0.

(** The number of bytes after the cursor. *)
Definition unread (t : Tokenizer) : nat :=
  String.length (input t) - cursor t.

Definition hasMoreTokens (t : Tokenizer) : bool :=
  (cursor t <? String.length (input t))%nat.

(** [match]: the cursor moves past a non-empty match. *)
Definition match_ (t : Tokenizer) (regExp : string -> string) (inp : string)
  : string * Tokenizer :=
  let matched := regExp inp in
  if (0 <? String.length matched)%nat
  then (matched, mkTokenizer (input t) (cursor t + String.length matched))
  else (matched, t).

(** The [for _, regExp := range Spec] loop of [GetNextToken] up to its first
    non-empty match: the rule's type, the matched text and the tokenizer
    after the match; [None] when the loop runs to its end. *)
Fixpoint first_match (spec : list Tuple) (t : Tokenizer) (inp : string)
  : option (TokenType * string * Tokenizer) :=
  match spec with
  | [] => None
  | regExp :: spec' =>
      let (tokenValue, t') := match_ t (RegEx regExp) inp in
      if (String.length tokenValue =? 0)%nat
      then first_match spec' t' inp
      else Some (Type__ regExp, tokenValue, t')
  end.

(** [GetNextToken] calls itself after an IGNORE match; [fuel] bounds the
    depth of that recursion. *)
Fixpoint GetNextToken_fuel (fuel : nat) (t : Tokenizer)
  : option (Token * Tokenizer) :=
  match fuel with
  | 0 => None
  | S fuel' =>
      if negb (hasMoreTokens t) then Some (mkToken EOF EmptyString, t)
      else
        let inp := drop (cursor t) (input t) in
        match first_match Spec t inp with
        | Some (ty, tokenValue, t') =>
            if TokenType_beq ty IGNORE
            then GetNextToken_fuel fuel' t'
            else Some (mkToken ty tokenValue, t')
        | None => Some (mkToken ERROR EmptyString, t)
        end
  end.

(** Every IGNORE match moves the cursor, so one more unit of fuel than there
    are unread bytes is always enough ([GetNextToken_fuel_total] below). *)
Definition GetNextToken (t : Tokenizer) : Token * Tokenizer :=
  match GetNextToken_fuel (S (unread t)) t with
  | Some r => r
  | None => (mkToken ERROR EmptyString, t)
  end.

(** The tokens returned by [n] successive calls of [GetNextToken]. *)
Fixpoint calls (n : nat) (t : Tokenizer) : list Token :=
  match n with
  | 0 => []
  | S n' => let (tok, t') := GetNextToken t in tok :: calls n' t'
  end.

End tokenizer.

(* ================================================================== *)
(** ** Package [ast] *)

Module ast.

#[local] Set Warnings "-register-all".

Inductive NodeType : Set :=
  | PROGRAM | EXPRESSION | NUMBER | STRING | BOOLEAN | NULL | ASSIGNMENT
  | LOGICAL | BINARY | UNARY | CALL | MEMBER | SUPER | IDENTIFIER | THIS
  | NEW.

(** The expression nodes: one constructor per struct that implements the
    [Expression] interface; a field keeps its name. *)
Inductive Expression : Set :=
  | NumericLiteral (Value : Z)
  | StringLiteral (Value : string)
  | BooleanLiteral (Value : bool)
  | NullLiteral
  | AssignmentExpression (Operator : string) (Left Right : Expression)
  | LogicalExpression (Operator : string) (Left Right : Expression)
  | BinaryExpression (Operator : string) (Left Right : Expression)
  | UnaryExpression (Operator : string) (Right : Expression)
  | CallExpression (Callee : Expression) (Arguments : list Expression)
  | MemberExpression (Computed : bool) (Object Property : Expression)
  | SuperExpression
  | Identifier (Name : string)
  | ThisExpression
  | NewExpression (Callee : Expression) (Arguments : list Expression).

Inductive Statement : Set :=
  | ExpressionStatement (Expression_ : Expression).

Record Program : Set := mkProgram { Statements : list Statement }.

Definition Expression_Type (e : Expression) : NodeType :=
  match e with
  | NumericLiteral _ => NUMBER
  | StringLiteral _ => STRING
  | BooleanLiteral _ => BOOLEAN
  | NullLiteral => NULL
  | AssignmentExpression _ _ _ => ASSIGNMENT
  | LogicalExpression _ _ _ => LOGICAL
  | BinaryExpression _ _ _ => BINARY
  | UnaryExpression _ _ => UNARY
  | CallExpression _ _ => CALL
  | MemberExpression _ _ _ => MEMBER
  | SuperExpression => SUPER
  | Identifier _ => IDENTIFIER
  | ThisExpression => THIS
  | NewExpression _ _ => NEW
  end.

(** [fmt.Sprintf("%v", v)] for an [int64]: the decimal numeral. *)
Definition format_int64 (v : Z) : string :=
  NilZero.string_of_int (Z.to_int v).

Fixpoint Expression_ToString (e : Expression) : string :=
  match e with
  | NumericLiteral v => format_int64 v
  | StringLiteral v => v
  | BooleanLiteral v => if v then "true" else "false"
  | NullLiteral => "null"
  | AssignmentExpression op l r =>
      Expression_ToString l ++ " " ++ op ++ " " ++ Expression_ToString r
  | LogicalExpression op l r =>
      "(" ++ Expression_ToString l ++ op ++ Expression_ToString r ++ ")"
  | BinaryExpression op l r =>
      "(" ++ Expression_ToString l ++ op ++ Expression_ToString r ++ ")"
  | UnaryExpression op r => "(" ++ op ++ Expression_ToString r ++ ")"
  | CallExpression callee args =>
      Expression_ToString callee
      ++ "(" ++ String.concat ", " (map Expression_ToString args) ++ ")"
  | MemberExpression computed object property =>
      if negb computed
      then Expression_ToString object ++ "." ++ Expression_ToString property
      else Expression_ToString object
           ++ "[" ++ Expression_ToString property ++ "]"
  | SuperExpression => "super"
  | Identifier name => name
  | ThisExpression => "this"
  | NewExpression callee args =>
      "new " ++ Expression_ToString callee
      ++ "(" ++ String.concat ", " (map Expression_ToString args) ++ ")"
  end.

Definition Statement_ToString (s : Statement) : string :=
  match s with ExpressionStatement e => Expression_ToString e end.

(** [Program.ToString] writes the statements one after the other. *)
Definition Program_ToString (s : Program) : string :=
  fold_left (fun out st => out ++ Statement_ToString st) (Statements s)
            EmptyString.

End ast.

(* ================================================================== *)
(** ** [strconv.ParseInt(s, 0, 64)] of the Go standard library

    The parser hands it the text of a NUMBER token, a non-empty run of
    decimal digits.  The model covers such runs: base 8 after a leading
    zero, base 10 otherwise, with the overflow checks on the 64-bit
    accumulator written out.  A sign, a base letter or an underscore cannot
    reach it from the NUMBER rule and is reported here as a syntax error. *)

Module strconv.

Inductive NumError : Set := ErrSyntax | ErrRange.

Definition digit_value (c : ascii) : Z := Z.of_nat (nat_of_ascii c) - 48.

Definition maxUint64 : Z := 2 ^ 64 - 1.

(** The digit loop of [ParseUint]: [n] is the [uint64] accumulator. *)
Fixpoint parse_digits (base : Z) (n : Z) (s : string) : Z + NumError :=
  match s with
  | EmptyString => inl n
  | String c r =>
      if negb (tokenizer.is_digit c) then inr ErrSyntax
      else let d := digit_value c in
      if base <=? d then inr ErrSyntax
      else if maxUint64 / base + 1 <=? n then inr ErrRange
      else let n := (n * base) mod 2 ^ 64 in
           let n1 := (n + d) mod 2 ^ 64 in
           if (n1 <? n) || (maxUint64 <? n1) then inr ErrRange
           else parse_digits base n1 r
  end%Z.

Definition ParseUint (s : string) : Z + NumError :=
  match s with
  | EmptyString => inr ErrSyntax
  | String "0" r => parse_digits 8 0 r
  | _ => parse_digits 10 0 s
  end.

Definition ParseInt (s : string) : Z + NumError :=
  match ParseUint s with
  | inl un => if (2 ^ 63 <=? un)%Z then inr ErrRange else inl un
  | inr e => inr e
  end.

(** [NumError.Error] for an error of [ParseInt] on [s]. *)
Definition Error (s : string) (e : NumError) : string :=
  "strconv.ParseInt: parsing "
  ++ String tokenizer.dquote (s ++ String tokenizer.dquote EmptyString)
  ++ ": "
  ++ match e with
     | ErrSyntax => "invalid syntax"
     | ErrRange => "value out of range"
     end.

End strconv.

(* ================================================================== *)
(** ** Package [parser] *)

Module parser.

Import tokenizer.
Import ast(Expression, NumericLiteral, StringLiteral, BooleanLiteral,
  NullLiteral, AssignmentExpression, LogicalExpression, BinaryExpression,
  UnaryExpression, CallExpression, MemberExpression, SuperExpression,
  Identifier, ThisExpression, NewExpression, Statement, ExpressionStatement,
  Program, mkProgram, Statements).

Record Parser : Set := mkParser { lookAhead : Token; scanner : Tokenizer }.

Definition New (source : string) : Parser :=
  mkParser (mkToken EOF EmptyString) (tokenizer.New source).

(** A parsing function either returns, panics with a message, or (in the
    model only) exhausts the recursion budget. *)
Inductive result (A : Type) : Type :=
  | Ok (a : A)
  | Panic (msg : string)
  | OutOfFuel.
Arguments Ok {A} a.
Arguments Panic {A} msg.
Arguments OutOfFuel {A}.

(** Methods of [*Parser]: the parser is threaded through. *)
Definition M (A : Type) : Type := Parser -> result (A * Parser).

Definition ret {A} (a : A) : M A := fun p => Ok (a, p).

Definition bind {A B} (m : M A) (k : A -> M B) : M B :=
  fun p => match m p with
           | Ok (a, p') => k a p'
           | Panic msg => Panic msg
           | OutOfFuel => OutOfFuel
           end.

Definition panic {A} (msg : string) : M A := fun _ => Panic msg.

Definition out_of_fuel {A} : M A := fun _ => OutOfFuel.

(** [p.lookAhead.Type] *)
Definition peek : M TokenType := fun p => Ok (Type_ (lookAhead p), p).

Notation "x <- m ;; k" := (bind m (fun x => k))
  (at level 61, m at next level, right associativity).

Definition eat (tokenType : TokenType) : M Token := fun p =>
  let token := lookAhead p in
  if TokenType_beq (Type_ token) EOF
  then Panic ("Unexpected end of input, expected: " ++ TokenNames tokenType)
  else if negb (TokenType_beq (Type_ token) tokenType)
  then Panic ("Unexpected token: " ++ TokenNames (Type_ token)
              ++ ", expected: " ++ TokenNames tokenType)
  else let (newToken, sc) := GetNextToken (scanner p) in
       Ok (token, mkParser newToken sc).

Definition isAssignmentOperator (operator : TokenType) : bool :=
  TokenType_beq operator SIMPLE_ASSIGN
  || TokenType_beq operator COMPLEX_ASSIGN.

Definition assignmentOperator : M Token :=
  ty <- peek ;;
  if TokenType_beq ty SIMPLE_ASSIGN then eat SIMPLE_ASSIGN
  else eat COMPLEX_ASSIGN.

Definition super : M Expression :=
  _ <- eat SUPER ;; ret SuperExpression.

Definition identifier : M Expression :=
  tok <- eat IDENTIFIER ;; ret (Identifier (Value tok)).

Definition isLiteral (tokenType : TokenType) : bool :=
  TokenType_beq tokenType NUMBER
  || TokenType_beq tokenType STRING
  || TokenType_beq tokenType TRUE
  || TokenType_beq tokenType FALSE
  || TokenType_beq tokenType NULL.

Definition literal : M Expression :=
  ty <- peek ;;
  match ty with
  | NUMBER =>
      tok <- eat NUMBER ;;
      match strconv.ParseInt (Value tok) with
      | inl value => ret (NumericLiteral value)
      | inr err => panic (strconv.Error (Value tok) err)
      end
  | STRING => tok <- eat STRING ;; ret (StringLiteral (Value tok))
  | TRUE => _ <- eat TRUE ;; ret (BooleanLiteral true)
  | FALSE => _ <- eat FALSE ;; ret (BooleanLiteral false)
  | NULL => _ <- eat NULL ;; ret NullLiteral
  | _ => panic "Literal: unexpected literal production."
  end.

(** The loop shared by the six left-associative levels,
    [for p.lookAhead.Type == T { operator := p.eat(T).Value; right :=
    operand(); left = &Node{operator, left, right} }]. *)
Fixpoint binary_loop (fuel : nat) (operatorType : TokenType)
    (node : string -> Expression -> Expression -> Expression)
    (operand : M Expression) (left : Expression) : M Expression :=
  match fuel with
  | 0 => out_of_fuel
  | S fuel' =>
      ty <- peek ;;
      if TokenType_beq ty operatorType then
        operator <- eat operatorType ;;
        right <- operand ;;
        binary_loop fuel' operatorType node operand
                    (node (Value operator) left right)
      else ret left
  end.

#[local] Set Warnings "-non-full-mutual".

Fixpoint statementList (fuel : nat) (stopLookAhead : TokenType)
    (statements : list Statement) : M (list Statement) :=
  match fuel with
  | 0 => out_of_fuel
  | S fuel' =>
      ty <- peek ;;
      if negb (TokenType_beq ty stopLookAhead) then
        s <- statement fuel' ;;
        statementList fuel' stopLookAhead (statements ++ [s])
      else ret statements
  end

with statement (fuel : nat) : M Statement :=
  match fuel with
  | 0 => out_of_fuel
  | S fuel' => expressionStatement fuel'
  end

with expressionStatement (fuel : nat) : M Statement :=
  match fuel with
  | 0 => out_of_fuel
  | S fuel' =>
      expression_ <- expression fuel' ;;
      ret (ExpressionStatement expression_)
  end

with expression (fuel : nat) : M Expression :=
  match fuel with
  | 0 => out_of_fuel
  | S fuel' => assignmentExpression fuel'
  end

with assignmentExpression (fuel : nat) : M Expression :=
  match fuel with
  | 0 => out_of_fuel
  | S fuel' =>
      left <- logicalOrExpression fuel' ;;
      ty <- peek ;;
      if negb (isAssignmentOperator ty) then ret left
      else
        operator <- assignmentOperator ;;
        right <- assignmentExpression fuel' ;;
        ret (AssignmentExpression (Value operator) left right)
  end

with logicalOrExpression (fuel : nat) : M Expression :=
  match fuel with
  | 0 => out_of_fuel
  | S fuel' =>
      left <- logicalAndExpression fuel' ;;
      binary_loop fuel' LOGICAL_OR LogicalExpression
                  (logicalAndExpression fuel') left
  end

with logicalAndExpression (fuel : nat) : M Expression :=
  match fuel with
  | 0 => out_of_fuel
  | S fuel' =>
      left <- equality fuel' ;;
      binary_loop fuel' LOGICAL_AND LogicalExpression (equality fuel') left
  end

with equality (fuel : nat) : M Expression :=
  match fuel with
  | 0 => out_of_fuel
  | S fuel' =>
      left <- comparison fuel' ;;
      binary_loop fuel' EQUALITY_OPERATOR LogicalExpression
                  (comparison fuel') left
  end

with comparison (fuel : nat) : M Expression :=
  match fuel with
  | 0 => out_of_fuel
  | S fuel' =>
      left <- term fuel' ;;
      binary_loop fuel' RELATIONAL_OPERATOR BinaryExpression (term fuel') left
  end

with term (fuel : nat) : M Expression :=
  match fuel with
  | 0 => out_of_fuel
  | S fuel' =>
      left <- factor fuel' ;;
      binary_loop fuel' ADDITIVE_OPERATOR BinaryExpression (factor fuel') left
  end

with factor (fuel : nat) : M Expression :=
  match fuel with
  | 0 => out_of_fuel
  | S fuel' =>
      left <- unary fuel' ;;
      binary_loop fuel' MULTIPLICATIVE_OPERATOR BinaryExpression
                  (unary fuel') left
  end

with unary (fuel : nat) : M Expression :=
  match fuel with
  | 0 => out_of_fuel
  | S fuel' =>
      ty <- peek ;;
      operator <- match ty with
                  | ADDITIVE_OPERATOR =>
                      tok <- eat ADDITIVE_OPERATOR ;; ret (Value tok)
                  | LOGICAL_NOT =>
                      tok <- eat LOGICAL_NOT ;; ret (Value tok)
                  | _ => ret EmptyString
                  end ;;
      if (0 <? String.length operator)%nat then
        right <- unary fuel' ;;
        ret (UnaryExpression operator right)
      else leftHandSideExp fuel'
  end

with leftHandSideExp (fuel : nat) : M Expression :=
  match fuel with
  | 0 => out_of_fuel
  | S fuel' => callMemberExp fuel'
  end

with callMemberExp (fuel : nat) : M Expression :=
  match fuel with
  | 0 => out_of_fuel
  | S fuel' =>
      ty <- peek ;;
      if TokenType_beq ty SUPER then
        callee <- super ;;
        callExpression fuel' callee
      else
        member <- memberExp fuel' ;;
        ty <- peek ;;
        if TokenType_beq ty LPAREN then callExpression fuel' member
        else ret member
  end

with memberExp (fuel : nat) : M Expression :=
  match fuel with
  | 0 => out_of_fuel
  | S fuel' =>
      object <- primary fuel' ;;
      memberExp_loop fuel' object
  end

(** The [for] loop of [memberExp]. *)
with memberExp_loop (fuel : nat) (object : Expression) : M Expression :=
  match fuel with
  | 0 => out_of_fuel
  | S fuel' =>
      ty <- peek ;;
      if TokenType_beq ty DOT || TokenType_beq ty LBRACKET then
        if TokenType_beq ty DOT then
          _ <- eat DOT ;;
          property <- identifier ;;
          memberExp_loop fuel' (MemberExpression false object property)
        else
          _ <- eat LBRACKET ;;
          property <- expression fuel' ;;
          _ <- eat RBRACKET ;;
          memberExp_loop fuel' (MemberExpression true object property)
      else ret object
  end

with callExpression (fuel : nat) (callee : Expression) : M Expression :=
  match fuel with
  | 0 => out_of_fuel
  | S fuel' =>
      args <- arguments fuel' ;;
      let callExpression_ := CallExpression callee args in
      ty <- peek ;;
      if TokenType_beq ty LPAREN then callExpression fuel' callExpression_
      else ret callExpression_
  end

with arguments (fuel : nat) : M (list Expression) :=
  match fuel with
  | 0 => out_of_fuel
  | S fuel' =>
      _ <- eat LPAREN ;;
      ty <- peek ;;
      argumentList_ <- (if negb (TokenType_beq ty RPAREN)
                        then argumentList fuel' else ret []) ;;
      _ <- eat RPAREN ;;
      ret argumentList_
  end

with argumentList (fuel : nat) : M (list Expression) :=
  match fuel with
  | 0 => out_of_fuel
  | S fuel' =>
      first <- assignmentExpression fuel' ;;
      argumentList_loop fuel' [first]
  end

(** The [for] loop of [argumentList]. *)
with argumentList_loop (fuel : nat) (argumentList_ : list Expression)
    : M (list Expression) :=
  match fuel with
  | 0 => out_of_fuel
  | S fuel' =>
      ty <- peek ;;
      if TokenType_beq ty COMMA then
        _ <- eat COMMA ;;
        next <- assignmentExpression fuel' ;;
        argumentList_loop fuel' (argumentList_ ++ [next])
      else ret argumentList_
  end

with primary (fuel : nat) : M Expression :=
  match fuel with
  | 0 => out_of_fuel
  | S fuel' =>
      ty <- peek ;;
      if isLiteral ty then literal
      else match ty with
           | LPAREN =>
               _ <- eat LPAREN ;;
               exp <- expression fuel' ;;
               _ <- eat RPAREN ;;
               ret exp
           | IDENTIFIER => identifier
           | THIS => _ <- eat THIS ;; ret ThisExpression
           | NEW =>
               _ <- eat NEW ;;
               callee <- memberExp fuel' ;;
               args <- arguments fuel' ;;
               ret (NewExpression callee args)
           | _ => panic "Unexpected primary expression."
           end
  end.

Definition program (fuel : nat) : M Program :=
  statements <- statementList fuel EOF [] ;;
  ret (mkProgram statements).

(** [p.lookAhead = p.scanner.GetNextToken()] *)
Definition advance (p : Parser) : Parser :=
  let (newToken, sc) := GetNextToken (scanner p) in mkParser newToken sc.

Definition Parse_fuel (fuel : nat) : M Program := fun p =>
  program fuel (advance p).

(** The recursion of the parsing functions is at most sixteen calls deep
    between two tokens, so this budget is never exhausted
    ([Parse_total] below); any larger one gives the same result
    ([Parse_fuel_enough]). *)
Definition Parse_budget (p : Parser) : nat :=
  16 * (unread (scanner p) + 2).

Definition Parse : M Program := fun p => Parse_fuel (Parse_budget p) p.

(** [parser.New(source).Parse()], as the driver calls it. *)
Definition parse (source : string) : result Program :=
  match Parse (New source) with
  | Ok (prog, _) => Ok prog
  | Panic msg => Panic msg
  | OutOfFuel => OutOfFuel
  end.

End parser.

Import tokenizer.

(* ================================================================== *)
(** ** The tokenizer always answers *)

Section TokenizerFacts.

Lemma match_spec (t : Tokenizer) (rx : string -> string) (inp : string) :
  match_ t rx inp =
    (rx inp,
     if (String.length (rx inp) =? 0)%nat then t
     else mkTokenizer (input t) (cursor t + String.length (rx inp))).
Proof.
  unfold match_.
  destruct (String.length (rx inp)); reflexivity.
Qed.

Lemma first_match_Some spec t inp ty v t' :
  first_match spec t inp = Some (ty, v, t') ->
  0 < String.length v
  /\ t' = mkTokenizer (input t) (cursor t + String.length v)
  /\ exists r, In r spec /\ Type__ r = ty /\ RegEx r inp = v.
Proof.
  induction spec as [|r spec IH]; simpl; [discriminate|].
  rewrite match_spec.
  destruct (String.length (RegEx r inp) =? 0)%nat eqn:E.
  - intros H. destruct (IH H) as (H1 & H2 & r' & H3 & H4).
    repeat split; auto. exists r'; auto.
  - intros H. injection H as <- <- <-.
    apply Nat.eqb_neq in E.
    repeat split; [lia|]. exists r; auto.
Qed.

Lemma GetNextToken_fuel_enough n :
  forall m t, unread t < n -> unread t < m ->
    GetNextToken_fuel n t = GetNextToken_fuel m t
    /\ GetNextToken_fuel n t <> None.
Proof.
  induction n as [|n IH]; intros m t Hn Hm; [lia|].
  destruct m as [|m]; [lia|].
  cbn [GetNextToken_fuel].
  destruct (hasMoreTokens t) eqn:Hmore; cbn [negb];
    [|split; [reflexivity|discriminate]].
  destruct (first_match Spec t (drop (cursor t) (input t)))
    as [[[ty v] t']|] eqn:Hfm; [|split; [reflexivity|discriminate]].
  destruct (TokenType_beq ty IGNORE); [|split; [reflexivity|discriminate]].
  apply first_match_Some in Hfm as (Hv & -> & _).
  unfold hasMoreTokens in Hmore. apply Nat.ltb_lt in Hmore.
  apply IH; unfold unread in *; simpl; lia.
Qed.

Lemma GetNextToken_fuel_total (t : Tokenizer) :
  GetNextToken_fuel (S (unread t)) t = Some (GetNextToken t).
Proof.
  unfold GetNextToken. fold (unread t).
  destruct (GetNextToken_fuel_enough (S (unread t)) (S (unread t)) t)
    as [_ H]; try lia.
  destruct (GetNextToken_fuel (S (unread t)) t); congruence.
Qed.

(** The body of [GetNextToken], as the source has it. *)
Lemma GetNextToken_eq (t : Tokenizer) :
  GetNextToken t =
    if negb (hasMoreTokens t) then (mkToken EOF EmptyString, t)
    else match first_match Spec t (drop (cursor t) (input t)) with
         | Some (ty, tokenValue, t') =>
             if TokenType_beq ty IGNORE then GetNextToken t'
             else (mkToken ty tokenValue, t')
         | None => (mkToken ERROR EmptyString, t)
         end.
Proof.
  unfold GetNextToken at 1. cbn [GetNextToken_fuel].
  destruct (hasMoreTokens t) eqn:Hmore; cbn [negb]; [|reflexivity].
  destruct (first_match Spec t (drop (cursor t) (input t)))
    as [[[ty v] t']|] eqn:Hfm; [|reflexivity].
  destruct (TokenType_beq ty IGNORE); [|reflexivity].
  apply first_match_Some in Hfm as (Hv & -> & _).
  unfold hasMoreTokens in Hmore. apply Nat.ltb_lt in Hmore.
  set (t' := mkTokenizer _ _).
  assert (Hu : unread t' < unread t)
    by (unfold unread, t'; cbn [input cursor]; lia).
  destruct (GetNextToken_fuel_enough (unread t) (S (unread t')) t' Hu)
    as [-> _]; [lia|].
  rewrite GetNextToken_fuel_total. reflexivity.
Qed.

(** Induction along the recursion of [GetNextToken]. *)
Lemma GetNextToken_ind (P : Tokenizer -> Token * Tokenizer -> Prop) :
  (forall t, hasMoreTokens t = false -> P t (mkToken EOF EmptyString, t)) ->
  (forall t ty v t',
      hasMoreTokens t = true ->
      first_match Spec t (drop (cursor t) (input t)) = Some (ty, v, t') ->
      TokenType_beq ty IGNORE = false ->
      P t (mkToken ty v, t')) ->
  (forall t v t',
      hasMoreTokens t = true ->
      first_match Spec t (drop (cursor t) (input t)) = Some (IGNORE, v, t') ->
      P t' (GetNextToken t') ->
      P t (GetNextToken t')) ->
  (forall t,
      hasMoreTokens t = true ->
      first_match Spec t (drop (cursor t) (input t)) = None ->
      P t (mkToken ERROR EmptyString, t)) ->
  forall t, P t (GetNextToken t).
Proof.
  intros Heof Htok Hign Herr t.
  remember (unread t) as k eqn:Hk.
  revert t Hk. induction k as [k IH] using lt_wf_ind. intros t Hk.
  rewrite GetNextToken_eq.
  destruct (hasMoreTokens t) eqn:Hmore; cbn [negb]; [|auto].
  destruct (first_match Spec t (drop (cursor t) (input t)))
    as [[[ty v] t']|] eqn:Hfm; [|auto].
  destruct (TokenType_beq ty IGNORE) eqn:Hty; [|eauto].
  apply internal_TokenType_dec_bl in Hty. subst ty.
  apply Hign with (v := v); auto.
  apply (IH (unread t')); auto.
  apply first_match_Some in Hfm as (Hv & -> & _).
  unfold hasMoreTokens in Hmore. apply Nat.ltb_lt in Hmore.
  subst k. unfold unread; cbn [input cursor]. lia.
Qed.

Definition is_end (ty : TokenType) : bool :=
  TokenType_beq ty EOF || TokenType_beq ty ERROR.

(** No rule of the table yields one of the two sentinels. *)
Lemma first_match_Spec_type t inp ty v t' :
  first_match Spec t inp = Some (ty, v, t') -> is_end ty = false.
Proof.
  intros H. apply first_match_Some in H as (_ & _ & r & Hin & <- & _).
  revert r Hin. apply Forall_forall.
  repeat (constructor; [reflexivity|]). constructor.
Qed.

Lemma GetNextToken_not_IGNORE (t : Tokenizer) :
  Type_ (fst (GetNextToken t)) <> IGNORE.
Proof.
  apply (GetNextToken_ind (fun _ r => Type_ (fst r) <> IGNORE));
    cbn [fst Type_]; intros; try discriminate; auto.
  intros ->. discriminate.
Qed.

(** A call never moves the cursor back, and a token other than the two
    sentinels has consumed at least one byte. *)
Lemma GetNextToken_unread (t : Tokenizer) :
  input (snd (GetNextToken t)) = input t
  /\ cursor t <= cursor (snd (GetNextToken t))
  /\ (is_end (Type_ (fst (GetNextToken t))) = false ->
      unread (snd (GetNextToken t)) < unread t).
Proof.
  apply (GetNextToken_ind (fun t r =>
           input (snd r) = input t
           /\ cursor t <= cursor (snd r)
           /\ (is_end (Type_ (fst r)) = false -> unread (snd r) < unread t)));
    clear t; cbn [fst snd Type_]; intros t.
  - intros _. repeat split; auto; cbn; discriminate.
  - intros ty v t' Hmore Hfm _.
    apply first_match_Some in Hfm as (Hv & -> & _).
    unfold hasMoreTokens in Hmore. apply Nat.ltb_lt in Hmore.
    unfold unread; cbn [input cursor]. repeat split; lia.
  - intros v t' Hmore Hfm (H1 & H2 & H3).
    apply first_match_Some in Hfm as (Hv & -> & _).
    unfold hasMoreTokens in Hmore. apply Nat.ltb_lt in Hmore.
    unfold unread in *; cbn [input cursor] in *.
    rewrite H1. repeat split; lia.
  - intros _ _. repeat split; auto; cbn; discriminate.
Qed.

End TokenizerFacts.

Import parser.

Import ast(Expression, NumericLiteral, StringLiteral, BooleanLiteral,
  NullLiteral, AssignmentExpression, LogicalExpression, BinaryExpression,
  UnaryExpression, CallExpression, MemberExpression, SuperExpression,
  Identifier, ThisExpression, NewExpression, Statement, ExpressionStatement,
  Program, mkProgram, Statements, Expression_ToString, Statement_ToString,
  Program_ToString).

(** A string literal of the source language: [body] between two [q]. *)
Definition quoted (q : ascii) (body : string) : string :=
  String q (body ++ String q EmptyString).

Definition newline : string := String "010" EmptyString.

(** [needle] occurs in [hay]. *)
Definition mentions (needle hay : string) : bool :=
  match index 0 needle hay with Some _ => true | None => false end.

(** The keyword rules of [Spec]. *)
Definition keywords : list (string * TokenType) :=
  [ ("let", LET); ("if", IF); ("else", ELSE); ("true", TRUE);
    ("false", FALSE); ("null", NULL); ("def", DEF); ("return", RETURN);
    ("class", CLASS); ("this", THIS); ("extends", EXTENDS);
    ("super", SUPER); ("new", NEW); ("while", WHILE); ("do", DO);
    ("for", FOR) ].

Definition one (e : Expression) : Program :=
  mkProgram [ExpressionStatement e].

(** The tree of [(f()).b]: a member access whose object is a call. *)
Definition member_of_call : Expression :=
  MemberExpression false (CallExpression (Identifier "f") [])
                   (Identifier "b").

(** The tree of [a.b[i](1, 'x') * -c < 010 || !d == true]. *)
Definition sample : Expression :=
  LogicalExpression "||"
    (BinaryExpression "<"
       (BinaryExpression "*"
          (CallExpression
             (MemberExpression true
                (MemberExpression false (Identifier "a") (Identifier "b"))
                (Identifier "i"))
             [NumericLiteral 1; StringLiteral "'x'"])
          (UnaryExpression "-" (Identifier "c")))
       (NumericLiteral 8))
    (LogicalExpression "=="
       (UnaryExpression "!" (Identifier "d")) (BooleanLiteral true)).


(* ================================================================== *)
(** ** One step of each parsing function *)

Section Unfold.

Variable n : nat.

Lemma binary_loop_S ty node operand left :
  binary_loop (S n) ty node operand left =
    (t <- peek ;;
     if TokenType_beq t ty then
       operator <- eat ty ;;
       right <- operand ;;
       binary_loop n ty node operand (node (Value operator) left right)
     else ret left).
Proof. reflexivity. Qed.

Lemma statementList_S stop statements :
  statementList (S n) stop statements =
    (ty <- peek ;;
     if negb (TokenType_beq ty stop) then
       s <- statement n ;;
       statementList n stop (statements ++ [s])
     else ret statements).
Proof. reflexivity. Qed.

Lemma statement_S : statement (S n) = expressionStatement n.
Proof. reflexivity. Qed.

Lemma expressionStatement_S :
  expressionStatement (S n) =
    (e <- expression n ;; ret (ast.ExpressionStatement e)).
Proof. reflexivity. Qed.

Lemma expression_S : expression (S n) = assignmentExpression n.
Proof. reflexivity. Qed.

Lemma assignmentExpression_S :
  assignmentExpression (S n) =
    (left <- logicalOrExpression n ;;
     ty <- peek ;;
     if negb (isAssignmentOperator ty) then ret left
     else
       operator <- assignmentOperator ;;
       right <- assignmentExpression n ;;
       ret (ast.AssignmentExpression (Value operator) left right)).
Proof. reflexivity. Qed.

Lemma logicalOrExpression_S :
  logicalOrExpression (S n) =
    (left <- logicalAndExpression n ;;
     binary_loop n LOGICAL_OR ast.LogicalExpression
                 (logicalAndExpression n) left).
Proof. reflexivity. Qed.

Lemma logicalAndExpression_S :
  logicalAndExpression (S n) =
    (left <- equality n ;;
     binary_loop n LOGICAL_AND ast.LogicalExpression (equality n) left).
Proof. reflexivity. Qed.

Lemma equality_S :
  equality (S n) =
    (left <- comparison n ;;
     binary_loop n EQUALITY_OPERATOR ast.LogicalExpression
                 (comparison n) left).
Proof. reflexivity. Qed.

Lemma comparison_S :
  comparison (S n) =
    (left <- term n ;;
     binary_loop n RELATIONAL_OPERATOR ast.BinaryExpression (term n) left).
Proof. reflexivity. Qed.

Lemma term_S :
  term (S n) =
    (left <- factor n ;;
     binary_loop n ADDITIVE_OPERATOR ast.BinaryExpression (factor n) left).
Proof. reflexivity. Qed.

Lemma factor_S :
  factor (S n) =
    (left <- unary n ;;
     binary_loop n MULTIPLICATIVE_OPERATOR ast.BinaryExpression
                 (unary n) left).
Proof. reflexivity. Qed.

Lemma unary_S :
  unary (S n) =
    (ty <- peek ;;
     operator <- match ty with
                 | ADDITIVE_OPERATOR =>
                     tok <- eat ADDITIVE_OPERATOR ;; ret (Value tok)
                 | LOGICAL_NOT => tok <- eat LOGICAL_NOT ;; ret (Value tok)
                 | _ => ret EmptyString
                 end ;;
     if (0 <? String.length operator)%nat then
       right <- unary n ;;
       ret (ast.UnaryExpression operator right)
     else leftHandSideExp n).
Proof. reflexivity. Qed.

Lemma leftHandSideExp_S : leftHandSideExp (S n) = callMemberExp n.
Proof. reflexivity. Qed.

Lemma callMemberExp_S :
  callMemberExp (S n) =
    (ty <- peek ;;
     if TokenType_beq ty SUPER then
       callee <- super ;;
       callExpression n callee
     else
       member <- memberExp n ;;
       ty <- peek ;;
       if TokenType_beq ty LPAREN then callExpression n member
       else ret member).
Proof. reflexivity. Qed.

Lemma memberExp_S :
  memberExp (S n) = (object <- primary n ;; memberExp_loop n object).
Proof. reflexivity. Qed.

Lemma memberExp_loop_S object :
  memberExp_loop (S n) object =
    (ty <- peek ;;
     if TokenType_beq ty DOT || TokenType_beq ty LBRACKET then
       if TokenType_beq ty DOT then
         _ <- eat DOT ;;
         property <- identifier ;;
         memberExp_loop n (ast.MemberExpression false object property)
       else
         _ <- eat LBRACKET ;;
         property <- expression n ;;
         _ <- eat RBRACKET ;;
         memberExp_loop n (ast.MemberExpression true object property)
     else ret object).
Proof. reflexivity. Qed.

Lemma callExpression_S callee :
  callExpression (S n) callee =
    (args <- arguments n ;;
     ty <- peek ;;
     if TokenType_beq ty LPAREN
     then callExpression n (ast.CallExpression callee args)
     else ret (ast.CallExpression callee args)).
Proof. reflexivity. Qed.

Lemma arguments_S :
  arguments (S n) =
    (_ <- eat LPAREN ;;
     ty <- peek ;;
     argumentList_ <- (if negb (TokenType_beq ty RPAREN)
                       then argumentList n else ret []) ;;
     _ <- eat RPAREN ;;
     ret argumentList_).
Proof. reflexivity. Qed.

Lemma argumentList_S :
  argumentList (S n) =
    (first <- assignmentExpression n ;; argumentList_loop n [first]).
Proof. reflexivity. Qed.

Lemma argumentList_loop_S acc :
  argumentList_loop (S n) acc =
    (ty <- peek ;;
     if TokenType_beq ty COMMA then
       _ <- eat COMMA ;;
       next <- assignmentExpression n ;;
       argumentList_loop n (acc ++ [next])
     else ret acc).
Proof. reflexivity. Qed.

Lemma primary_S :
  primary (S n) =
    (ty <- peek ;;
     if isLiteral ty then literal
     else match ty with
          | LPAREN =>
              _ <- eat LPAREN ;;
              exp <- expression n ;;
              _ <- eat RPAREN ;;
              ret exp
          | IDENTIFIER => identifier
          | THIS => _ <- eat THIS ;; ret ast.ThisExpression
          | NEW =>
              _ <- eat NEW ;;
              callee <- memberExp n ;;
              args <- arguments n ;;
              ret (ast.NewExpression callee args)
          | _ => panic "Unexpected primary expression."
          end).
Proof. reflexivity. Qed.

End Unfold.

(* ================================================================== *)
(** ** A larger budget never changes a result *)

Section Monotone.

(** [m2] answers as [m1] wherever [m1] answers. *)
Definition extends_ {A} (m1 m2 : M A) : Prop :=
  forall p, m1 p <> OutOfFuel -> m2 p = m1 p.

Lemma extends_refl {A} (m : M A) : extends_ m m.
Proof. intros p _. reflexivity. Qed.

Lemma extends_oof {A} (m : M A) : extends_ out_of_fuel m.
Proof. intros p H. exfalso. apply H. reflexivity. Qed.

Lemma extends_bind {A B} (m1 m2 : M A) (k1 k2 : A -> M B) :
  extends_ m1 m2 -> (forall a, extends_ (k1 a) (k2 a)) ->
  extends_ (bind m1 k1) (bind m2 k2).
Proof.
  intros Hm Hk p. unfold bind. intros H.
  rewrite Hm by (destruct (m1 p) as [[? ?]| |]; congruence).
  destruct (m1 p) as [[a p']| |]; [apply Hk; assumption|reflexivity..].
Qed.

Lemma extends_trans {A} (m1 m2 m3 : M A) :
  extends_ m1 m2 -> extends_ m2 m3 -> extends_ m1 m3.
Proof.
  intros H12 H23 p H. rewrite H23; rewrite H12; auto.
Qed.

Ltac extends_step :=
  match goal with
  | |- extends_ ?m ?m => apply extends_refl
  | |- extends_ out_of_fuel _ => apply extends_oof
  | H : _ |- _ => apply H
  | |- extends_ (bind _ _) (bind _ _) => apply extends_bind; [|intros ?]
  | |- extends_ (if ?b then _ else _) (if ?b then _ else _) => destruct b
  | |- extends_ (match ?x with _ => _ end) (match ?x with _ => _ end) =>
      destruct x
  end.

Lemma binary_loop_extends n ty node (op1 op2 : M ast.Expression) :
  extends_ op1 op2 ->
  forall left,
    extends_ (binary_loop n ty node op1 left)
             (binary_loop (S n) ty node op2 left).
Proof.
  intros Hop. induction n as [|n IH]; intros left.
  - apply extends_oof.
  - rewrite (binary_loop_S (S n)), (binary_loop_S n).
    repeat extends_step.
Qed.

(** All functions of the parser at budget [n] and at budget [S n]. *)
Definition extends_at (n : nat) : Prop :=
  (forall stop ss,
      extends_ (statementList n stop ss) (statementList (S n) stop ss))
  /\ extends_ (statement n) (statement (S n))
  /\ extends_ (expressionStatement n) (expressionStatement (S n))
  /\ extends_ (expression n) (expression (S n))
  /\ extends_ (assignmentExpression n) (assignmentExpression (S n))
  /\ extends_ (logicalOrExpression n) (logicalOrExpression (S n))
  /\ extends_ (logicalAndExpression n) (logicalAndExpression (S n))
  /\ extends_ (equality n) (equality (S n))
  /\ extends_ (comparison n) (comparison (S n))
  /\ extends_ (term n) (term (S n))
  /\ extends_ (factor n) (factor (S n))
  /\ extends_ (unary n) (unary (S n))
  /\ extends_ (leftHandSideExp n) (leftHandSideExp (S n))
  /\ extends_ (callMemberExp n) (callMemberExp (S n))
  /\ extends_ (memberExp n) (memberExp (S n))
  /\ (forall o, extends_ (memberExp_loop n o) (memberExp_loop (S n) o))
  /\ (forall c, extends_ (callExpression n c) (callExpression (S n) c))
  /\ extends_ (arguments n) (arguments (S n))
  /\ extends_ (argumentList n) (argumentList (S n))
  /\ (forall a, extends_ (argumentList_loop n a) (argumentList_loop (S n) a))
  /\ extends_ (primary n) (primary (S n)).

Lemma extends_at_all n : extends_at n.
Proof.
  induction n as [|n IH].
  - repeat split; intros; apply extends_oof.
  - destruct IH as (H1 & H2 & H3 & H4 & H5 & H6 & H7 & H8 & H9 & H10 & H11
                    & H12 & H13 & H14 & H15 & H16 & H17 & H18 & H19 & H20
                    & H21).
    repeat split; intros.
    + rewrite (statementList_S (S n)), (statementList_S n).
      repeat extends_step.
    + rewrite !statement_S. assumption.
    + rewrite !expressionStatement_S. repeat extends_step.
    + rewrite !expression_S. assumption.
    + rewrite !assignmentExpression_S. repeat extends_step.
    + rewrite !logicalOrExpression_S.
      apply extends_bind; [assumption|intros].
      apply binary_loop_extends; assumption.
    + rewrite !logicalAndExpression_S.
      apply extends_bind; [assumption|intros].
      apply binary_loop_extends; assumption.
    + rewrite !equality_S.
      apply extends_bind; [assumption|intros].
      apply binary_loop_extends; assumption.
    + rewrite !comparison_S.
      apply extends_bind; [assumption|intros].
      apply binary_loop_extends; assumption.
    + rewrite !term_S.
      apply extends_bind; [assumption|intros].
      apply binary_loop_extends; assumption.
    + rewrite !factor_S.
      apply extends_bind; [assumption|intros].
      apply binary_loop_extends; assumption.
    + rewrite !unary_S. repeat extends_step.
    + rewrite !leftHandSideExp_S. assumption.
    + rewrite !callMemberExp_S. repeat extends_step.
    + rewrite !memberExp_S. repeat extends_step.
    + rewrite (memberExp_loop_S (S n)), (memberExp_loop_S n).
      repeat extends_step.
    + rewrite (callExpression_S (S n)), (callExpression_S n).
      repeat extends_step.
    + rewrite !arguments_S. repeat extends_step.
    + rewrite !argumentList_S. repeat extends_step.
    + rewrite (argumentList_loop_S (S n)), (argumentList_loop_S n).
      repeat extends_step.
    + rewrite !primary_S. repeat extends_step.
Qed.

End Monotone.

(* ================================================================== *)
(** ** What a successful call consumes *)

Section Progress.

(** The token types that some rule of the grammar eats. *)
Definition eatable (ty : TokenType) : bool :=
  match ty with
  | LPAREN | RPAREN | LBRACKET | RBRACKET | COMMA | DOT
  | TRUE | FALSE | NULL | THIS | SUPER | NEW
  | NUMBER | STRING | IDENTIFIER
  | SIMPLE_ASSIGN | COMPLEX_ASSIGN | RELATIONAL_OPERATOR
  | EQUALITY_OPERATOR | ADDITIVE_OPERATOR | MULTIPLICATIVE_OPERATOR
  | LOGICAL_AND | LOGICAL_OR | LOGICAL_NOT => true
  | _ => false
  end.

(** [reach p p']: [p'] is [p] after eating zero or more tokens, each of an
    eatable type. *)
Inductive reach : Parser -> Parser -> Prop :=
  | reach_refl p : reach p p
  | reach_step p p' :
      eatable (Type_ (lookAhead p)) = true ->
      reach (advance p) p' -> reach p p'.

(** At least one token. *)
Definition reach1 (p p' : Parser) : Prop :=
  eatable (Type_ (lookAhead p)) = true /\ reach (advance p) p'.

Definition weak {A} (m : M A) : Prop :=
  forall p a p', m p = Ok (a, p') -> reach p p'.

Definition strict {A} (m : M A) : Prop :=
  forall p a p', m p = Ok (a, p') -> reach1 p p'.

Lemma reach_trans p1 p2 p3 : reach p1 p2 -> reach p2 p3 -> reach p1 p3.
Proof.
  induction 1; intros; auto. apply reach_step; auto.
Qed.

Lemma reach1_reach p p' : reach1 p p' -> reach p p'.
Proof. intros [H1 H2]. apply reach_step; auto. Qed.

Lemma reach1_then p1 p2 p3 : reach1 p1 p2 -> reach p2 p3 -> reach1 p1 p3.
Proof. intros [H1 H2] H3. split; auto. eapply reach_trans; eauto. Qed.

Lemma reach_then1 p1 p2 p3 : reach p1 p2 -> reach1 p2 p3 -> reach1 p1 p3.
Proof.
  intros H1 H2. destruct H1 as [p|p p' He H1]; auto.
  split; auto. eapply reach_trans; eauto. apply reach1_reach; auto.
Qed.

Lemma bind_Ok {A B} (m : M A) (k : A -> M B) p r :
  bind m k p = Ok r -> exists a p1, m p = Ok (a, p1) /\ k a p1 = Ok r.
Proof.
  unfold bind. destruct (m p) as [[a p1]| |]; try discriminate. eauto.
Qed.

Lemma peek_Ok p ty p' :
  peek p = Ok (ty, p') -> ty = Type_ (lookAhead p) /\ p' = p.
Proof. unfold peek. intros H. injection H as <- <-. auto. Qed.

Lemma ret_Ok {A} (a b : A) p p' : ret a p = Ok (b, p') -> b = a /\ p' = p.
Proof. unfold ret. intros H. injection H as <- <-. auto. Qed.

Lemma eat_Ok tt p tok p' :
  eat tt p = Ok (tok, p') ->
  tok = lookAhead p /\ Type_ (lookAhead p) = tt /\ p' = advance p.
Proof.
  unfold eat, advance.
  destruct (TokenType_beq (Type_ (lookAhead p)) EOF); [discriminate|].
  destruct (TokenType_beq (Type_ (lookAhead p)) tt) eqn:E; [|discriminate].
  apply internal_TokenType_dec_bl in E. cbn [negb].
  destruct (GetNextToken (scanner p)) as [tok' sc].
  intros H. injection H as <- <-. auto.
Qed.

Lemma eat_same tt p :
  Type_ (lookAhead p) = tt -> tt <> EOF ->
  eat tt p = Ok (lookAhead p, advance p).
Proof.
  intros Ht Hn. unfold eat, advance. rewrite Ht.
  destruct (TokenType_beq tt EOF) eqn:E.
  - apply internal_TokenType_dec_bl in E. contradiction.
  - rewrite (internal_TokenType_dec_lb _ _ eq_refl). cbn [negb].
    destruct (GetNextToken (scanner p)); reflexivity.
Qed.

Lemma eat_reach1 tt p tok p' :
  eatable tt = true -> eat tt p = Ok (tok, p') -> reach1 p p'.
Proof.
  intros He H. apply eat_Ok in H as (_ & <- & ->).
  split; [assumption|apply reach_refl].
Qed.

End Progress.

Ltac split_all := repeat match goal with |- _ /\ _ => split end.

(** Inversion of a successful run, one bind after the other. *)
Ltac minv H :=
  lazymatch type of H with
  | bind _ _ _ = Ok _ =>
      let a := fresh "a" in
      let p := fresh "p" in
      let E := fresh "E" in
      apply bind_Ok in H as (a & p & E & H); minv E; minv H
  | peek _ = Ok _ => apply peek_Ok in H as [? ?]; subst
  | ret _ _ = Ok _ => apply ret_Ok in H as [? ?]; subst
  | panic _ _ = Ok _ => discriminate H
  | out_of_fuel _ = Ok _ => discriminate H
  | (if ?b then _ else _) _ = Ok _ =>
      let Hb := fresh "Hb" in
      destruct b eqn:Hb; try (exfalso; cbn in Hb; discriminate Hb); minv H
  | (match ?x with _ => _ end) _ = Ok _ =>
      let Hx := fresh "Hx" in destruct x eqn:Hx; minv H
  | _ => idtac
  end.

Section ProgressOfParser.

Create HintDb reach_db.

#[local] Hint Resolve reach_refl reach1_reach reach_trans reach1_then
  reach_then1 : reach_db.

Ltac eat_solve :=
  match goal with
  | H : eat _ _ = Ok _ |- _ =>
      apply eat_reach1 in H; [assumption|reflexivity]
  end.

Lemma assignmentOperator_strict : strict assignmentOperator.
Proof.
  intros p a p' H. unfold assignmentOperator in H. minv H; eat_solve.
Qed.

Lemma super_strict : strict super.
Proof.
  intros p a p' H. unfold super in H. minv H. eat_solve.
Qed.

Lemma identifier_strict : strict identifier.
Proof.
  intros p a p' H. unfold identifier in H. minv H. eat_solve.
Qed.

Lemma literal_strict : strict literal.
Proof.
  intros p a p' H. unfold literal in H. minv H; eat_solve.
Qed.

Ltac reach_facts :=
  repeat match goal with
    | H : eat _ _ = Ok _ |- _ => apply eat_reach1 in H; [|reflexivity]
    | H : identifier _ = Ok _ |- _ => apply identifier_strict in H
    | H : literal _ = Ok _ |- _ => apply literal_strict in H
    | H : super _ = Ok _ |- _ => apply super_strict in H
    | H : assignmentOperator _ = Ok _ |- _ =>
        apply assignmentOperator_strict in H
    | IH : strict ?m, H : ?m _ = Ok _ |- _ => apply IH in H
    | IH : weak ?m, H : ?m _ = Ok _ |- _ => apply IH in H
    | IH : forall x, weak (?f x), H : ?f _ _ = Ok _ |- _ => apply IH in H
    | IH : forall x, strict (?f x), H : ?f _ _ = Ok _ |- _ => apply IH in H
    | IH : forall x y, weak (?f x y), H : ?f _ _ _ = Ok _ |- _ =>
        apply IH in H
    end.

Ltac reach_solve := reach_facts; eauto 8 with reach_db.

Lemma binary_loop_weak n ty node (operand : M ast.Expression) :
  eatable ty = true -> strict operand ->
  forall left, weak (binary_loop n ty node operand left).
Proof.
  intros Hty Hop. induction n as [|n IH]; intros left p a p' H.
  - discriminate.
  - rewrite binary_loop_S in H. minv H.
    + match goal with
      | E : eat ty _ = Ok _ |- _ => apply (eat_reach1 _ _ _ _ Hty) in E
      end.
      reach_solve.
    + reach_solve.
Qed.

(** Every function but the three loops eats at least one token. *)
Definition progress_at (n : nat) : Prop :=
  (forall stop ss, weak (statementList n stop ss))
  /\ strict (statement n)
  /\ strict (expressionStatement n)
  /\ strict (expression n)
  /\ strict (assignmentExpression n)
  /\ strict (logicalOrExpression n)
  /\ strict (logicalAndExpression n)
  /\ strict (equality n)
  /\ strict (comparison n)
  /\ strict (term n)
  /\ strict (factor n)
  /\ strict (unary n)
  /\ strict (leftHandSideExp n)
  /\ strict (callMemberExp n)
  /\ strict (memberExp n)
  /\ (forall o, weak (memberExp_loop n o))
  /\ (forall c, strict (callExpression n c))
  /\ strict (arguments n)
  /\ strict (argumentList n)
  /\ (forall a, weak (argumentList_loop n a))
  /\ strict (primary n).

Lemma progress_at_all n : progress_at n.
Proof.
  induction n as [|n IH].
  - unfold progress_at; split_all; intros; intros q r q' H; discriminate H.
  - destruct IH as (H1 & H2 & H3 & H4 & H5 & H6 & H7 & H8 & H9 & H10 & H11
                    & H12 & H13 & H14 & H15 & H16 & H17 & H18 & H19 & H20
                    & H21).
    unfold progress_at; split_all; intros; intros q r q' H.
    + rewrite statementList_S in H. minv H; reach_solve.
    + rewrite statement_S in H. reach_solve.
    + rewrite expressionStatement_S in H. minv H; reach_solve.
    + rewrite expression_S in H. reach_solve.
    + rewrite assignmentExpression_S in H. minv H; reach_solve.
    + rewrite logicalOrExpression_S in H. minv H.
      apply binary_loop_weak in H; auto. reach_solve.
    + rewrite logicalAndExpression_S in H. minv H.
      apply binary_loop_weak in H; auto. reach_solve.
    + rewrite equality_S in H. minv H.
      apply binary_loop_weak in H; auto. reach_solve.
    + rewrite comparison_S in H. minv H.
      apply binary_loop_weak in H; auto. reach_solve.
    + rewrite term_S in H. minv H.
      apply binary_loop_weak in H; auto. reach_solve.
    + rewrite factor_S in H. minv H.
      apply binary_loop_weak in H; auto. reach_solve.
    + rewrite unary_S in H. minv H; reach_solve.
    + rewrite leftHandSideExp_S in H. reach_solve.
    + rewrite callMemberExp_S in H. minv H; reach_solve.
    + rewrite memberExp_S in H. minv H; reach_solve.
    + rewrite memberExp_loop_S in H. minv H; reach_solve.
    + rewrite callExpression_S in H. minv H; reach_solve.
    + rewrite arguments_S in H. minv H; reach_solve.
    + rewrite argumentList_S in H. minv H; reach_solve.
    + rewrite argumentList_loop_S in H. minv H; reach_solve.
    + rewrite primary_S in H. minv H; try (unfold literal in H; minv H);
        reach_solve.
Qed.

End ProgressOfParser.

(* ================================================================== *)
(** ** The parser always answers *)

Section Termination.

(** Unread bytes, plus one while the lookahead is a token still to eat. *)
Definition measure (p : Parser) : nat :=
  unread (scanner p) + (if is_end (Type_ (lookAhead p)) then 0 else 1).

Lemma advance_measure p :
  is_end (Type_ (lookAhead p)) = false -> measure (advance p) < measure p.
Proof.
  intros He. unfold measure, advance. rewrite He.
  destruct (GetNextToken_unread (scanner p)) as (Hi & Hc & Hu).
  destruct (GetNextToken (scanner p)) as [tok sc].
  cbn [fst snd scanner lookAhead] in *.
  destruct (is_end (Type_ tok)).
  - unfold unread. rewrite Hi. lia.
  - specialize (Hu eq_refl). lia.
Qed.

Lemma eatable_not_end ty : eatable ty = true -> is_end ty = false.
Proof. destruct ty; intros H; try discriminate H; reflexivity. Qed.

Lemma reach_measure p p' : reach p p' -> measure p' <= measure p.
Proof.
  induction 1 as [|p p' He _ IH]; [lia|].
  apply eatable_not_end, advance_measure in He. lia.
Qed.

Lemma reach1_measure p p' : reach1 p p' -> measure p' < measure p.
Proof.
  intros [He H]. apply reach_measure in H.
  apply eatable_not_end, advance_measure in He. lia.
Qed.

Definition answers {A} (m : M A) (p : Parser) : Prop := m p <> OutOfFuel.

Lemma bind_answers {A B} (m : M A) (k : A -> M B) p :
  answers m p ->
  (forall a p1, m p = Ok (a, p1) -> answers (k a) p1) ->
  answers (bind m k) p.
Proof.
  unfold answers, bind. intros Hm Hk.
  destruct (m p) as [[a p1]| |]; [auto|discriminate|congruence].
Qed.

Lemma eat_answers tt p : answers (eat tt) p.
Proof.
  unfold answers, eat.
  destruct (TokenType_beq _ EOF); [discriminate|].
  destruct (negb _); [discriminate|].
  destruct (GetNextToken _); discriminate.
Qed.

Ltac answers_step :=
  match goal with
  | |- answers (bind _ _) _ =>
      apply bind_answers; [|let E := fresh "E" in intros ? ? E; minv E]
  | |- answers (ret _) _ => discriminate
  | |- answers peek _ => discriminate
  | |- answers (panic _) _ => discriminate
  | |- answers (eat _) _ => apply eat_answers
  | |- answers (if ?b then _ else _) _ =>
      let Hb := fresh "Hb" in
      destruct b eqn:Hb; try (exfalso; cbn in Hb; discriminate Hb)
  | |- answers (match ?x with _ => _ end) _ => destruct x eqn:?
  end.

Lemma assignmentOperator_answers p : answers assignmentOperator p.
Proof. unfold assignmentOperator. repeat answers_step. Qed.

Lemma super_answers p : answers super p.
Proof. unfold super. repeat answers_step. Qed.

Lemma identifier_answers p : answers identifier p.
Proof. unfold identifier. repeat answers_step. Qed.

Lemma literal_answers p : answers literal p.
Proof. unfold literal. repeat answers_step. Qed.

Ltac measure_facts :=
  repeat match goal with
    | H : eat _ _ = Ok _ |- _ => apply eat_reach1 in H; [|reflexivity]
    | H : identifier _ = Ok _ |- _ => apply identifier_strict in H
    | H : literal _ = Ok _ |- _ => apply literal_strict in H
    | H : super _ = Ok _ |- _ => apply super_strict in H
    | H : assignmentOperator _ = Ok _ |- _ =>
        apply assignmentOperator_strict in H
    | IH : strict ?m, H : ?m _ = Ok _ |- _ => apply IH in H
    | IH : weak ?m, H : ?m _ = Ok _ |- _ => apply IH in H
    | IH : forall x, weak (?f x), H : ?f _ _ = Ok _ |- _ => apply IH in H
    | IH : forall x, strict (?f x), H : ?f _ _ = Ok _ |- _ => apply IH in H
    | IH : forall x y, weak (?f x y), H : ?f _ _ _ = Ok _ |- _ =>
        apply IH in H
    | H : reach1 _ _ |- _ => apply reach1_measure in H
    | H : reach _ _ |- _ => apply reach_measure in H
    end.

Lemma binary_loop_answers ty node (operand : M ast.Expression) :
  eatable ty = true -> strict operand ->
  forall k left p,
    (forall p', measure p' < measure p -> answers operand p') ->
    measure p < k ->
    answers (binary_loop k ty node operand left) p.
Proof.
  intros Hty Hop. induction k as [|k IH]; intros left p Hans Hk; [lia|].
  rewrite binary_loop_S.
  apply bind_answers; [discriminate|]. intros t p1 E. minv E.
  destruct (TokenType_beq _ ty); [|discriminate].
  apply bind_answers; [apply eat_answers|]. intros tok p1 E.
  apply (eat_reach1 _ _ _ _ Hty), reach1_measure in E.
  apply bind_answers; [apply Hans; assumption|]. intros right p2 E2.
  apply Hop, reach1_measure in E2.
  apply IH; [|lia]. intros p' Hp'. apply Hans. lia.
Qed.

(** The budget each function needs: sixteen per unit of [measure], plus its
    depth in the chain of calls that eat nothing. *)
Definition total_at (n : nat) : Prop :=
  (forall stop ss p,
      16 * measure p + 16 <= n -> answers (statementList n stop ss) p)
  /\ (forall p, 16 * measure p + 15 <= n -> answers (statement n) p)
  /\ (forall p, 16 * measure p + 14 <= n -> answers (expressionStatement n) p)
  /\ (forall p, 16 * measure p + 13 <= n -> answers (expression n) p)
  /\ (forall p, 16 * measure p + 12 <= n -> answers (assignmentExpression n) p)
  /\ (forall p, 16 * measure p + 11 <= n -> answers (logicalOrExpression n) p)
  /\ (forall p, 16 * measure p + 10 <= n -> answers (logicalAndExpression n) p)
  /\ (forall p, 16 * measure p + 9 <= n -> answers (equality n) p)
  /\ (forall p, 16 * measure p + 8 <= n -> answers (comparison n) p)
  /\ (forall p, 16 * measure p + 7 <= n -> answers (term n) p)
  /\ (forall p, 16 * measure p + 6 <= n -> answers (factor n) p)
  /\ (forall p, 16 * measure p + 5 <= n -> answers (unary n) p)
  /\ (forall p, 16 * measure p + 4 <= n -> answers (leftHandSideExp n) p)
  /\ (forall p, 16 * measure p + 3 <= n -> answers (callMemberExp n) p)
  /\ (forall p, 16 * measure p + 2 <= n -> answers (memberExp n) p)
  /\ (forall o p, 16 * measure p + 1 <= n -> answers (memberExp_loop n o) p)
  /\ (forall c p, 16 * measure p + 2 <= n -> answers (callExpression n c) p)
  /\ (forall p, 16 * measure p + 1 <= n -> answers (arguments n) p)
  /\ (forall p, 16 * measure p + 13 <= n -> answers (argumentList n) p)
  /\ (forall a p,
         16 * measure p + 1 <= n -> answers (argumentList_loop n a) p)
  /\ (forall p, 16 * measure p + 1 <= n -> answers (primary n) p).

Ltac answers_call :=
  match goal with
  | IH : forall p, _ <= _ -> answers ?m p |- answers ?m _ =>
      apply IH; measure_facts; lia
  | IH : forall x p, _ <= _ -> answers (?f x) p |- answers (?f _) _ =>
      apply IH; measure_facts; lia
  | IH : forall x y p, _ <= _ -> answers (?f x y) p |- answers (?f _ _) _ =>
      apply IH; measure_facts; lia
  | |- answers assignmentOperator _ => apply assignmentOperator_answers
  | |- answers super _ => apply super_answers
  | |- answers identifier _ => apply identifier_answers
  | |- answers literal _ => apply literal_answers
  | |- answers (binary_loop _ _ _ _ _) _ =>
      apply binary_loop_answers;
      [reflexivity
      |assumption
      |let q := fresh "q" in let Hq := fresh "Hq" in
       intros q Hq; measure_facts;
       match goal with
       | IH : forall p, _ <= _ -> answers ?m p |- answers ?m _ =>
           apply IH; lia
       end
      |measure_facts; lia]
  end.

Ltac answers_solve := repeat first [answers_step | answers_call].

Lemma total_at_all n : total_at n.
Proof.
  induction n as [|n IH].
  - unfold total_at; split_all; intros; lia.
  - destruct IH as (H1 & H2 & H3 & H4 & H5 & H6 & H7 & H8 & H9 & H10 & H11
                    & H12 & H13 & H14 & H15 & H16 & H17 & H18 & H19 & H20
                    & H21).
    destruct (progress_at_all n)
      as (P1 & P2 & P3 & P4 & P5 & P6 & P7 & P8 & P9 & P10 & P11
          & P12 & P13 & P14 & P15 & P16 & P17 & P18 & P19 & P20 & P21).
    unfold total_at; split_all; intros.
    + rewrite statementList_S. answers_solve.
    + rewrite statement_S. answers_solve.
    + rewrite expressionStatement_S. answers_solve.
    + rewrite expression_S. answers_solve.
    + rewrite assignmentExpression_S. answers_solve.
    + rewrite logicalOrExpression_S. answers_solve.
    + rewrite logicalAndExpression_S. answers_solve.
    + rewrite equality_S. answers_solve.
    + rewrite comparison_S. answers_solve.
    + rewrite term_S. answers_solve.
    + rewrite factor_S. answers_solve.
    + rewrite unary_S. answers_solve.
    + rewrite leftHandSideExp_S. answers_solve.
    + rewrite callMemberExp_S. answers_solve.
    + rewrite memberExp_S. answers_solve.
    + rewrite memberExp_loop_S. answers_solve.
    + rewrite callExpression_S. answers_solve.
    + rewrite arguments_S. answers_solve.
    + rewrite argumentList_S. answers_solve.
    + rewrite argumentList_loop_S. answers_solve.
    + rewrite primary_S. answers_solve.
Qed.

End Termination.

(* ================================================================== *)
(** ** [Parse] does not depend on its budget *)

Section Budget.

Lemma statementList_extends n k stop ss :
  extends_ (statementList n stop ss) (statementList (n + k) stop ss).
Proof.
  induction k as [|k IH].
  - rewrite Nat.add_0_r. apply extends_refl.
  - eapply extends_trans; [exact IH|].
    rewrite Nat.add_succ_r. apply (extends_at_all (n + k)).
Qed.

Lemma measure_advance p : measure (advance p) <= unread (scanner p) + 1.
Proof.
  unfold measure, advance.
  destruct (GetNextToken_unread (scanner p)) as (Hi & Hc & _).
  destruct (GetNextToken (scanner p)) as [tok sc].
  cbn [fst snd scanner lookAhead] in *.
  assert (unread sc <= unread (scanner p)) by (unfold unread; rewrite Hi; lia).
  destruct (is_end _); lia.
Qed.

Lemma Parse_fuel_answers fuel p :
  Parse_budget p <= fuel -> Parse_fuel fuel p <> OutOfFuel.
Proof.
  intros Hb. unfold Parse_fuel, program.
  apply bind_answers; [|discriminate].
  apply (total_at_all fuel).
  pose proof (measure_advance p). unfold Parse_budget in Hb. lia.
Qed.

Theorem Parse_total p : Parse p <> OutOfFuel.
Proof. apply Parse_fuel_answers. lia. Qed.

Theorem Parse_fuel_enough fuel p :
  Parse_budget p <= fuel -> Parse_fuel fuel p = Parse p.
Proof.
  intros Hb. unfold Parse.
  replace fuel with (Parse_budget p + (fuel - Parse_budget p)) by lia.
  generalize (fuel - Parse_budget p) as k. intros k.
  unfold Parse_fuel, program.
  apply extends_bind.
  - apply statementList_extends.
  - intros. apply extends_refl.
  - apply (Parse_fuel_answers (Parse_budget p) p). lia.
Qed.

(** Whatever a budget answers is the answer of [Parse]. *)
Lemma Parse_fuel_Parse fuel p :
  Parse_fuel fuel p <> OutOfFuel -> Parse p = Parse_fuel fuel p.
Proof.
  intros H.
  rewrite <- (Parse_fuel_enough (Parse_budget p + fuel)) by lia.
  rewrite Nat.add_comm.
  unfold Parse_fuel, program in *.
  apply extends_bind; auto.
  - apply statementList_extends.
  - intros. apply extends_refl.
Qed.

End Budget.

(* ================================================================== *)
(** ** The tokens behind a successful parse *)

Section Streams.

Lemma calls_S n t :
  calls (S n) t = fst (GetNextToken t) :: calls n (snd (GetNextToken t)).
Proof. simpl. destruct (GetNextToken t); reflexivity. Qed.

Lemma advance_lookAhead p : lookAhead (advance p) = fst (GetNextToken (scanner p)).
Proof. unfold advance. destruct (GetNextToken _); reflexivity. Qed.

Lemma advance_scanner p : scanner (advance p) = snd (GetNextToken (scanner p)).
Proof. unfold advance. destruct (GetNextToken _); reflexivity. Qed.

(** Once the end of the input is reported, it is reported again. *)
Lemma GetNextToken_EOF_again t :
  Type_ (fst (GetNextToken t)) = EOF ->
  GetNextToken (snd (GetNextToken t)) = GetNextToken t.
Proof.
  assert (H : Type_ (fst (GetNextToken t)) = EOF ->
              hasMoreTokens (snd (GetNextToken t)) = false
              /\ GetNextToken t
                 = (mkToken EOF EmptyString, snd (GetNextToken t))).
  { apply (GetNextToken_ind (fun _ r =>
             Type_ (fst r) = EOF ->
             hasMoreTokens (snd r) = false
             /\ r = (mkToken EOF EmptyString, snd r)));
      cbn [fst snd Type_]; intros; auto; try discriminate.
    match goal with
    | Hfm : first_match _ _ _ = Some _ |- _ =>
        apply first_match_Spec_type in Hfm
    end.
    subst ty. discriminate. }
  intros He. destruct (H He) as [Hm Hr].
  rewrite (GetNextToken_eq (snd (GetNextToken t))), Hm. cbn [negb].
  symmetry. exact Hr.
Qed.

Lemma calls_after_EOF n : forall t,
  Type_ (fst (GetNextToken t)) = EOF ->
  Forall (fun tok => Type_ tok = EOF) (calls n t).
Proof.
  induction n as [|n IH]; intros t He; [constructor|].
  rewrite calls_S. constructor; [assumption|].
  apply IH. rewrite GetNextToken_EOF_again; assumption.
Qed.

(** Every token that the tokenizer yields on the way to a state whose
    lookahead is the end of the input has been eaten. *)
Lemma reach_calls p pf :
  reach p pf -> Type_ (lookAhead pf) = EOF ->
  forall t, GetNextToken t = (lookAhead p, scanner p) ->
  forall n,
    Forall (fun tok => eatable (Type_ tok) = true \/ Type_ tok = EOF)
           (calls n t).
Proof.
  induction 1 as [p|p p' He Hr IH]; intros Hf t Ht n.
  - eapply Forall_impl; [|apply calls_after_EOF; rewrite Ht; exact Hf].
    cbn beta. auto.
  - destruct n as [|n]; [constructor|].
    rewrite calls_S, Ht. cbn [fst snd]. constructor; [auto|].
    apply IH; auto.
    rewrite advance_lookAhead, advance_scanner.
    destruct (GetNextToken (scanner p)); reflexivity.
Qed.

Lemma statementList_stops n : forall stop ss p r p',
  statementList n stop ss p = Ok (r, p') -> Type_ (lookAhead p') = stop.
Proof.
  induction n as [|n IH]; intros stop ss p r p' H; [discriminate|].
  rewrite statementList_S in H. minv H.
  - eauto.
  - apply negb_false_iff, internal_TokenType_dec_bl in Hb. assumption.
Qed.

Lemma Parse_Ok_reach p prog p' :
  Parse p = Ok (prog, p') ->
  reach (advance p) p' /\ Type_ (lookAhead p') = EOF.
Proof.
  unfold Parse, Parse_fuel, program. intros H. minv H. split.
  - destruct (progress_at_all (Parse_budget p)) as (P1 & _).
    eapply P1; eauto.
  - eapply statementList_stops; eauto.
Qed.

(** A source that parses holds none of the tokens the grammar never eats. *)
Lemma Parse_Ok_calls source prog p' n :
  Parse (parser.New source) = Ok (prog, p') ->
  Forall (fun tok => eatable (Type_ tok) = true \/ Type_ tok = EOF)
         (calls n (tokenizer.New source)).
Proof.
  intros H. apply Parse_Ok_reach in H as [Hr He].
  eapply reach_calls; eauto.
  rewrite advance_lookAhead, advance_scanner.
  destruct (GetNextToken _); reflexivity.
Qed.

End Streams.

(* ================================================================== *)
(** ** The tokenizer as a function of the unread text *)

Section UnreadText.

Lemma length_app (x s : string) :
  String.length (x ++ s) = String.length x + String.length s.
Proof. induction x as [|c x IH]; simpl; auto. Qed.

Lemma app_assoc (x y z : string) : (x ++ y) ++ z = x ++ (y ++ z).
Proof. induction x as [|c x IH]; simpl; congruence. Qed.

Lemma app_nil_r (x : string) : x ++ EmptyString = x.
Proof. induction x as [|c x IH]; simpl; congruence. Qed.

Lemma drop_app (x s : string) : drop (String.length x) (x ++ s) = s.
Proof. induction x as [|c x IH]; simpl; auto. Qed.

Lemma drop_add (a b : nat) (s : string) : drop (a + b) s = drop b (drop a s).
Proof.
  revert s. induction a as [|a IH]; intros s; simpl; auto.
  destruct s; simpl; auto. destruct b; reflexivity.
Qed.

(** The tokenizer [t] moved [k] bytes on. *)
Definition seek (t : Tokenizer) (k : nat) : Tokenizer :=
  mkTokenizer (input t) (cursor t + k).

(** The text [s] is what [t] has not read. *)
Definition Unread (t : Tokenizer) (s : string) : Prop :=
  drop (cursor t) (input t) = s
  /\ cursor t + String.length s = String.length (input t).

Lemma Unread_New (source : string) : Unread (tokenizer.New source) source.
Proof. split; reflexivity. Qed.

Lemma Unread_seek t x s :
  Unread t (x ++ s) -> Unread (seek t (String.length x)) s.
Proof.
  intros [Hd Hl]. split; cbn [seek input cursor].
  - rewrite drop_add, Hd. apply drop_app.
  - rewrite length_app in Hl. lia.
Qed.

Lemma Unread_more t s :
  Unread t s -> hasMoreTokens t = (0 <? String.length s)%nat.
Proof.
  intros [_ Hl]. unfold hasMoreTokens.
  destruct (String.length s) eqn:E.
  - apply Nat.ltb_ge. lia.
  - apply Nat.ltb_lt. lia.
Qed.

(** The first rule of [spec] with a non-empty match on [inp]. *)
Fixpoint classify (spec : list Tuple) (inp : string)
  : option (TokenType * string) :=
  match spec with
  | [] => None
  | r :: spec' =>
      if (String.length (RegEx r inp) =? 0)%nat then classify spec' inp
      else Some (Type__ r, RegEx r inp)
  end.

Lemma first_match_classify spec t inp :
  first_match spec t inp =
    match classify spec inp with
    | Some (ty, v) => Some (ty, v, seek t (String.length v))
    | None => None
    end.
Proof.
  induction spec as [|r spec IH]; simpl; [reflexivity|].
  rewrite match_spec.
  destruct (String.length (RegEx r inp) =? 0)%nat; auto.
Qed.

Lemma classify_app l1 l2 inp :
  Forall (fun r => RegEx r inp = EmptyString) l1 ->
  classify (l1 ++ l2) inp = classify l2 inp.
Proof.
  induction 1 as [|r l1 Hr _ IH]; simpl; auto. rewrite Hr. exact IH.
Qed.

Lemma lex_eof t : Unread t EmptyString ->
  GetNextToken t = (mkToken EOF EmptyString, t).
Proof.
  intros H. rewrite GetNextToken_eq, (Unread_more _ _ H). reflexivity.
Qed.

Lemma classify_nonempty spec inp ty v :
  classify spec inp = Some (ty, v) -> 0 < String.length v.
Proof.
  induction spec as [|r spec IH]; simpl; [discriminate|].
  destruct (String.length (RegEx r inp) =? 0)%nat eqn:E; auto.
  intros H. injection H as <- <-. apply Nat.eqb_neq in E. lia.
Qed.

Lemma lex_tok t x s ty :
  Unread t (x ++ s) ->
  classify Spec (x ++ s) = Some (ty, x) ->
  TokenType_beq ty IGNORE = false ->
  GetNextToken t = (mkToken ty x, seek t (String.length x)).
Proof.
  intros Hu Hc Hty. pose proof (classify_nonempty _ _ _ _ Hc) as Hx.
  rewrite GetNextToken_eq, (Unread_more _ _ Hu), length_app.
  replace (0 <? _ + _)%nat with true by (symmetry; apply Nat.ltb_lt; lia).
  cbn [negb]. destruct Hu as [-> _].
  rewrite first_match_classify, Hc, Hty. reflexivity.
Qed.

Lemma lex_skip t x s :
  Unread t (x ++ s) ->
  classify Spec (x ++ s) = Some (IGNORE, x) ->
  GetNextToken t = GetNextToken (seek t (String.length x)).
Proof.
  intros Hu Hc. pose proof (classify_nonempty _ _ _ _ Hc) as Hx.
  rewrite GetNextToken_eq, (Unread_more _ _ Hu), length_app.
  replace (0 <? _ + _)%nat with true by (symmetry; apply Nat.ltb_lt; lia).
  cbn [negb]. destruct Hu as [-> _].
  rewrite first_match_classify, Hc. reflexivity.
Qed.

End UnreadText.

(* ================================================================== *)
(** ** Word tokens do not depend on what follows them *)

Section WordTokens.

Fixpoint all (p : ascii -> bool) (s : string) : bool :=
  match s with
  | String c r => p c && all p r
  | EmptyString => true
  end.

(** The text [s] does not go on with a word character. *)
Definition boundary (s : string) : bool :=
  negb (is_word_opt (first_char s)).

Definition Spec_punct : list Tuple := firstn 21 Spec.
Definition Spec_words : list Tuple := skipn 21 Spec.

Lemma Spec_split : Spec = (Spec_punct ++ Spec_words)%list.
Proof. reflexivity. Qed.

Ltac by_cases_on c :=
  destruct c as [[] [] [] [] [] [] [] []]; intros; try discriminate;
  try reflexivity.

Lemma word_not_other c :
  is_word c = true ->
  is_space c = false /\ (c =? dquote)%char = false
  /\ (c =? squote)%char = false.
Proof. by_cases_on c; repeat split. Qed.

Lemma digit_is_word c : is_digit c = true -> is_word c = true.
Proof. by_cases_on c. Qed.

(** No rule before the keywords matches a text that begins with a word
    character. *)
Lemma punct_miss c r :
  is_word c = true ->
  Forall (fun rule => RegEx rule (String c r) = EmptyString) Spec_punct.
Proof.
  unfold Spec_punct. cbn [firstn Spec].
  by_cases_on c; repeat (constructor; [reflexivity|]); constructor.
Qed.

Lemma take_while_ext p w s :
  (forall c, p c = true -> is_word c = true) ->
  boundary s = true ->
  take_while p (w ++ s) = take_while p w.
Proof.
  intros Hp Hs. induction w as [|c w IH]; simpl.
  - destruct s as [|c s]; [reflexivity|]. simpl.
    destruct (p c) eqn:E; [|reflexivity].
    apply Hp in E. unfold boundary in Hs. simpl in Hs.
    rewrite E in Hs. discriminate.
  - rewrite IH. reflexivity.
Qed.

Lemma take_while_all p w : all p w = true -> take_while p w = w.
Proof.
  induction w as [|c w IH]; simpl; [reflexivity|].
  intros H. apply andb_true_iff in H as [-> H]. rewrite IH; auto.
Qed.

Lemma all_take_while p s : all p (take_while p s) = true.
Proof.
  induction s as [|c s IH]; simpl; [reflexivity|].
  destruct (p c) eqn:E; simpl; [rewrite E; exact IH|reflexivity].
Qed.

(** What [take_while] leaves begins with a character outside the class. *)
Lemma take_while_rest p s :
  s = take_while p s ++ drop (String.length (take_while p s)) s
  /\ match drop (String.length (take_while p s)) s with
     | String c _ => p c = false
     | EmptyString => True
     end.
Proof.
  induction s as [|c s [IH1 IH2]]; simpl; [auto|].
  destruct (p c) eqn:E; simpl; [|auto].
  split; [congruence|exact IH2].
Qed.

(** The test of [rx_keyword] after its literal: the keyword is a prefix and
    no word character follows it. *)
Lemma keyword_tail_ext kw : forall w s,
  all is_word kw = true -> boundary s = true ->
  prefix kw (w ++ s)
  && negb (is_word_opt (first_char (drop (String.length kw) (w ++ s))))
  = prefix kw w
    && negb (is_word_opt (first_char (drop (String.length kw) w))).
Proof.
  induction kw as [|a kw IH]; intros w s Hkw Hs.
  - destruct w as [|b w]; simpl; [|reflexivity].
    destruct s; [reflexivity|]. exact Hs.
  - simpl in Hkw. apply andb_true_iff in Hkw as [Ha Hkw].
    destruct w as [|b w]; simpl.
    + destruct s as [|c s]; [reflexivity|]. simpl.
      destruct (ascii_dec a c) as [->|]; [|reflexivity].
      unfold boundary in Hs. simpl in Hs. rewrite Ha in Hs. discriminate.
    + destruct (ascii_dec a b); [|reflexivity]. apply IH; assumption.
Qed.

Lemma last_char_word kw :
  all is_word kw = true -> kw <> EmptyString ->
  is_word_opt (last_char kw) = true.
Proof.
  induction kw as [|a kw IH]; [congruence|]. intros H _.
  simpl in H. apply andb_true_iff in H as [Ha H].
  destruct kw as [|b kw]; [exact Ha|]. apply IH; [exact H|discriminate].
Qed.

Lemma rx_keyword_ext kw c w s :
  all is_word kw = true -> kw <> EmptyString -> boundary s = true ->
  rx_keyword kw (String c w ++ s) = rx_keyword kw (String c w).
Proof.
  intros Hkw Hne Hs. unfold rx_keyword, word_boundary.
  rewrite (last_char_word kw Hkw Hne).
  cbn [is_word_opt xorb first_char append].
  change (String c (w ++ s)) with (String c w ++ s).
  rewrite !(andb_comm (prefix _ _)), <- !andb_assoc.
  rewrite keyword_tail_ext by assumption. reflexivity.
Qed.

End WordTokens.

Section WordTokens2.

Lemma rx_quoted_miss q c r :
  (c =? q)%char = false -> rx_quoted q (String c r) = EmptyString.
Proof. intros H. unfold rx_quoted. rewrite H. reflexivity. Qed.

(** A text that begins with a word character is classified by its first
    word alone. *)
Lemma word_ext c w s :
  is_word c = true -> boundary s = true ->
  classify Spec (String c w ++ s) = classify Spec (String c w).
Proof.
  intros Hc Hs.
  rewrite Spec_split, !classify_app
    by (apply punct_miss; assumption).
  destruct (word_not_other c Hc) as (_ & Hd & Hq).
  unfold Spec_words. cbn [skipn Spec classify RegEx Type__].
  rewrite !rx_keyword_ext by (reflexivity || discriminate || assumption).
  unfold rx_plus.
  rewrite (take_while_ext is_digit) by (auto using digit_is_word).
  rewrite (take_while_ext is_word) by auto.
  cbn [append]. rewrite !rx_quoted_miss by assumption.
  reflexivity.
Qed.

(** The text [v], alone, is one token of type [ty]. *)
Definition lexes_as (ty : TokenType) (v : string) : bool :=
  match classify Spec v with
  | Some (ty', v') => TokenType_beq ty' ty && (v' =? v)%string
  | None => false
  end.

Lemma lexes_as_classify ty v :
  lexes_as ty v = true <-> classify Spec v = Some (ty, v).
Proof.
  unfold lexes_as. destruct (classify Spec v) as [[ty' v']|].
  - rewrite andb_true_iff, String.eqb_eq. split.
    + intros [H ->]. apply internal_TokenType_dec_bl in H. congruence.
    + intros H. injection H as -> ->.
      split; [apply internal_TokenType_dec_lb|]; reflexivity.
  - split; discriminate.
Qed.

(** The types of the tokens made of word characters. *)
Definition is_word_type (ty : TokenType) : bool :=
  match ty with
  | LET | IF | ELSE | TRUE | FALSE | NULL | DEF | RETURN | WHILE | DO | FOR
  | CLASS | THIS | EXTENDS | SUPER | NEW | NUMBER | IDENTIFIER => true
  | _ => false
  end.

End WordTokens2.

(* ================================================================== *)
(** ** What the text of a token can be *)

Section TokenTexts.

(** A quote, characters other than that quote, the same quote. *)
Definition string_ok (v : string) : bool :=
  match v with
  | String q r =>
      ((q =? dquote)%char || (q =? squote)%char)
      && (rx_quoted q v =? v)%string
  | EmptyString => false
  end.

(** The operators of each operator type. *)
Definition ops_of (ty : TokenType) : list string :=
  match ty with
  | ADDITIVE_OPERATOR => ["+"; "-"]
  | MULTIPLICATIVE_OPERATOR => ["*"; "/"]
  | RELATIONAL_OPERATOR => ["<"; ">"; "<="; ">="]
  | EQUALITY_OPERATOR => ["=="; "!="]
  | LOGICAL_AND => ["&&"]
  | LOGICAL_OR => ["||"]
  | LOGICAL_NOT => ["!"]
  | SIMPLE_ASSIGN => ["="]
  | COMPLEX_ASSIGN => ["+="; "-="; "*="; "/="]
  | _ => []
  end.

Definition is_op (ty : TokenType) (v : string) : bool :=
  existsb (String.eqb v) (ops_of ty).

Definition token_ok (tok : Token) : bool :=
  match Type_ tok with
  | IDENTIFIER => lexes_as IDENTIFIER (Value tok)
  | STRING => string_ok (Value tok)
  | ADDITIVE_OPERATOR | MULTIPLICATIVE_OPERATOR | RELATIONAL_OPERATOR
  | EQUALITY_OPERATOR | LOGICAL_AND | LOGICAL_OR | LOGICAL_NOT
  | SIMPLE_ASSIGN | COMPLEX_ASSIGN => is_op (Type_ tok) (Value tok)
  | _ => true
  end.

Lemma take_while_stop p body c r :
  all p body = true -> p c = false ->
  take_while p (body ++ String c r) = body.
Proof.
  intros Hb Hc. induction body as [|b body IH]; simpl.
  - rewrite Hc. reflexivity.
  - simpl in Hb. apply andb_true_iff in Hb as [-> Hb]. rewrite IH; auto.
Qed.

Lemma is_not_self q : is_not q q = false.
Proof. unfold is_not. rewrite Ascii.eqb_refl. reflexivity. Qed.

Lemma rx_quoted_quoted q body s :
  all (is_not q) body = true ->
  rx_quoted q (quoted q body ++ s) = quoted q body.
Proof.
  intros Hb. unfold quoted, rx_quoted. cbn [append].
  rewrite Ascii.eqb_refl, app_assoc. cbn [append].
  rewrite take_while_stop by (auto using is_not_self).
  rewrite drop_app. reflexivity.
Qed.

(** A non-empty match of a string rule is a well-formed literal and a
    prefix of the input. *)
Lemma rx_quoted_inv q inp :
  rx_quoted q inp <> EmptyString ->
  exists body s,
    all (is_not q) body = true
    /\ inp = quoted q body ++ s
    /\ rx_quoted q inp = quoted q body.
Proof.
  unfold rx_quoted. destruct inp as [|c r]; [congruence|].
  destruct (Ascii.eqb_spec c q) as [->|]; [|congruence].
  destruct (take_while_rest (is_not q) r) as [Hr Hn].
  set (body := take_while (is_not q) r) in *.
  destruct (drop (String.length body) r) as [|c' r'] eqn:E; [congruence|].
  intros _. exists body, r'. split; [apply all_take_while|].
  unfold is_not in Hn. apply negb_false_iff, Ascii.eqb_eq in Hn. subst c'.
  unfold quoted. split; [|reflexivity].
  cbn [append]. rewrite app_assoc. cbn [append]. congruence.
Qed.

Lemma string_ok_inv v :
  string_ok v = true ->
  exists q body,
    (q = dquote \/ q = squote)
    /\ all (is_not q) body = true /\ v = quoted q body.
Proof.
  unfold string_ok. destruct v as [|q r]; [discriminate|].
  rewrite andb_true_iff, orb_true_iff, !Ascii.eqb_eq, String.eqb_eq.
  intros [Hq Hv].
  destruct (rx_quoted_inv q (String q r)) as (body & s & Hb & _ & Hrx).
  { rewrite Hv. discriminate. }
  exists q, body. repeat split; auto. congruence.
Qed.

Lemma quoted_string_ok q body :
  q = dquote \/ q = squote -> all (is_not q) body = true ->
  string_ok (quoted q body) = true.
Proof.
  intros Hq Hb. unfold string_ok. cbn [quoted].
  rewrite andb_true_iff, orb_true_iff, !Ascii.eqb_eq, String.eqb_eq.
  split; [assumption|].
  change (String q (body ++ String q EmptyString)) with (quoted q body).
  rewrite <- (app_nil_r (quoted q body)) at 1.
  apply rx_quoted_quoted. assumption.
Qed.

End TokenTexts.

Section TokenTexts2.

Lemma length_zero_iff (s : string) :
  (String.length s =? 0)%nat = false <-> s <> EmptyString.
Proof.
  destruct s; simpl; split; intros; congruence.
Qed.

Ltac op_case inp E :=
  let c := fresh "c" in
  let r := fresh "r" in
  destruct inp as [|c r]; [cbn in E; discriminate E|];
  destruct c as [[] [] [] [] [] [] [] []];
  cbn in E |- *; try discriminate E; try reflexivity;
  destruct (prefix "=" r); cbn in E |- *;
  first [reflexivity | discriminate E].

Ltac lit_case inp E :=
  unfold rx_lit in *;
  match type of E with
  | context [prefix ?l inp] =>
      destruct (prefix l inp); [reflexivity|cbn in E; discriminate E]
  end.

(** The text of every token the table yields is what its type allows. *)
Lemma classify_token_ok inp ty v :
  classify Spec inp = Some (ty, v) -> token_ok (mkToken ty v) = true.
Proof.
  intros H. pose proof H as H0.
  unfold Spec in H. cbn [classify RegEx Type__] in H.
  repeat match type of H with
    | (if ?b then _ else _) = _ =>
        let E := fresh "E" in
        destruct b eqn:E;
        [|injection H as <- <-; try reflexivity]
    end; try discriminate H;
  match goal with
  | E : _ = false |- token_ok (mkToken STRING _) = true =>
      apply length_zero_iff in E;
      destruct (rx_quoted_inv _ _ E) as (body & s & Hb & _ & ->);
      apply quoted_string_ok; auto
  | E : _ = false |- token_ok (mkToken IDENTIFIER _) = true => idtac
  | E : _ = false |- _ => first [lit_case inp E | op_case inp E]
  end.
  match goal with E : _ = false |- _ => rename E into Em end.
  cbn [token_ok Type_ Value]. apply lexes_as_classify.
  unfold rx_plus in *.
  destruct (take_while_rest is_word inp) as [Hi Hr].
  pose proof (all_take_while is_word inp) as Hw.
  destruct (take_while is_word inp) as [|c w] eqn:Ev; [discriminate Em|].
  cbn [all] in Hw. apply andb_true_iff in Hw as [Hc _].
  rewrite <- H0. rewrite Hi. symmetry. apply word_ext; [assumption|].
  unfold boundary.
  destruct (drop _ inp); [reflexivity|]. cbn. rewrite Hr. reflexivity.
Qed.

Lemma GetNextToken_token_ok t : token_ok (fst (GetNextToken t)) = true.
Proof.
  apply (GetNextToken_ind (fun _ r => token_ok (fst r) = true));
    cbn [fst]; intros; auto.
  match goal with
  | Hfm : first_match _ _ _ = Some _ |- _ =>
      rewrite first_match_classify in Hfm;
      destruct (classify Spec _) as [[ty' v']|] eqn:Hc; [|discriminate];
      injection Hfm as <- <- _
  end.
  eapply classify_token_ok; eauto.
Qed.

End TokenTexts2.

(* ================================================================== *)
(** ** The trees the parser builds *)

Section WellFormed.

Definition is_identifier (e : Expression) : bool :=
  match e with Identifier _ => true | _ => false end.

(** What holds of every tree the parser returns: a name is the text of an
    IDENTIFIER token, a string that of a STRING token, a number is within
    the non-negative [int64], an operator is one of its node's level, and
    the property of a dot access is a name. *)
Fixpoint wf (e : Expression) : bool :=
  match e with
  | NumericLiteral v => ((0 <=? v) && (v <? 2 ^ 63))%Z
  | StringLiteral s => string_ok s
  | BooleanLiteral _ | NullLiteral | SuperExpression | ThisExpression => true
  | Identifier x => lexes_as IDENTIFIER x
  | AssignmentExpression op l r =>
      (is_op SIMPLE_ASSIGN op || is_op COMPLEX_ASSIGN op) && wf l && wf r
  | LogicalExpression op l r =>
      (is_op LOGICAL_OR op || is_op LOGICAL_AND op
       || is_op EQUALITY_OPERATOR op) && wf l && wf r
  | BinaryExpression op l r =>
      (is_op RELATIONAL_OPERATOR op || is_op ADDITIVE_OPERATOR op
       || is_op MULTIPLICATIVE_OPERATOR op) && wf l && wf r
  | UnaryExpression op r =>
      (is_op ADDITIVE_OPERATOR op || is_op LOGICAL_NOT op) && wf r
  | CallExpression c args => wf c && forallb wf args
  | MemberExpression computed o p =>
      (computed || is_identifier p) && wf o && wf p
  | NewExpression c args => wf c && forallb wf args
  end.

Definition wf_statement (s : Statement) : bool :=
  match s with ExpressionStatement e => wf e end.

(** The lookahead is a token of the tokenizer. *)
Definition good (p : Parser) : Prop := token_ok (lookAhead p) = true.

Definition sound {A} (Q : A -> bool) (m : M A) : Prop :=
  forall p a p', good p -> m p = Ok (a, p') -> good p' /\ Q a = true.

Lemma good_advance p : good (advance p).
Proof.
  unfold good. rewrite advance_lookAhead. apply GetNextToken_token_ok.
Qed.

Lemma eat_good tt p tok p' :
  good p -> eat tt p = Ok (tok, p') ->
  good p' /\ Type_ tok = tt /\ token_ok tok = true.
Proof.
  intros Hg H. apply eat_Ok in H as (-> & <- & ->).
  repeat split; [apply good_advance|exact Hg].
Qed.

Lemma parse_digits_nonneg base s : forall n r,
  (0 <= n)%Z -> strconv.parse_digits base n s = inl r -> (0 <= r)%Z.
Proof.
  induction s as [|c s IH]; intros n r Hn; simpl.
  - intros H. injection H as <-. exact Hn.
  - destruct (negb (is_digit c)); [discriminate|].
    destruct (base <=? strconv.digit_value c)%Z; [discriminate|].
    destruct (_ <=? n)%Z; [discriminate|].
    destruct (_ || _); [discriminate|].
    apply IH. apply Z.mod_pos_bound. reflexivity.
Qed.

Lemma ParseInt_range s v :
  strconv.ParseInt s = inl v -> (0 <= v < 2 ^ 63)%Z.
Proof.
  unfold strconv.ParseInt.
  destruct (strconv.ParseUint s) as [un|] eqn:E; [|discriminate].
  destruct (2 ^ 63 <=? un)%Z eqn:Hc; [discriminate|].
  intros H. injection H as <-. apply Z.leb_gt in Hc. split; [|exact Hc].
  unfold strconv.ParseUint in E.
  destruct s as [|c s]; [discriminate|].
  destruct (Ascii.eqb_spec c "0") as [->|Hne].
  - eapply parse_digits_nonneg; [|exact E]. lia.
  - assert (E' : strconv.parse_digits 10 0 (String c s) = inl un).
    { revert E. destruct c as [[] [] [] [] [] [] [] []]; auto.
      congruence. }
    eapply parse_digits_nonneg; [|exact E']. lia.
Qed.

End WellFormed.

Ltac split_bools :=
  repeat match goal with
    | H : _ && _ = true |- _ => apply andb_true_iff in H; destruct H
    end.

Ltac wf_tac :=
  split_bools;
  cbn [wf forallb wf_statement is_identifier];
  rewrite ?forallb_app; cbn [forallb];
  repeat match goal with
    | H : _ = true |- _ => rewrite H
    end;
  cbn [andb orb]; rewrite ?orb_true_r; auto.

Section SoundParser.

Lemma eat_sound tt p tok p' :
  good p -> eat tt p = Ok (tok, p') ->
  good p' /\ token_ok (mkToken tt (Value tok)) = true.
Proof.
  intros Hg H. destruct (eat_good _ _ _ _ Hg H) as (H1 & H2 & H3).
  split; [assumption|]. subst tt. destruct tok; assumption.
Qed.

Lemma binary_loop_sound n ty node (operand : M Expression) :
  (forall v, token_ok (mkToken ty v) = is_op ty v) ->
  (forall op l r,
      is_op ty op = true -> wf l = true -> wf r = true ->
      wf (node op l r) = true) ->
  sound wf operand ->
  forall left, wf left = true ->
    sound wf (binary_loop n ty node operand left).
Proof.
  intros Htok Hnode Hop. induction n as [|n IH]; intros left Hl p a p' Hg H.
  - discriminate.
  - rewrite binary_loop_S in H. minv H; [|auto].
    match goal with
    | E : eat ty _ = Ok _ |- _ =>
        apply (eat_sound _ _ _ _ Hg) in E; destruct E as [Hg1 E];
        rewrite Htok in E
    end.
    match goal with
    | E : operand _ = Ok _ |- _ =>
        apply (Hop _ _ _ Hg1) in E; destruct E as [Hg2 E]
    end.
    eapply IH; [|exact Hg2|exact H]. auto.
Qed.

Ltac snd_step :=
  match goal with
  | Hg : good ?p, H : eat _ ?p = Ok _ |- _ =>
      apply (eat_sound _ _ _ _ Hg) in H; destruct H as [? H];
      cbn [token_ok Type_ Value] in H
  | IH : sound _ ?m, Hg : good ?p, H : ?m ?p = Ok _ |- _ =>
      apply (IH _ _ _ Hg) in H; destruct H as [? H]; cbn beta in H
  | IH : forall x, wf x = true -> sound _ (?f x), Hg : good ?p,
    H : ?f ?x ?p = Ok _ |- _ =>
      let Hwf := fresh "Hwf" in
      assert (Hwf : wf x = true) by wf_tac;
      apply (IH x Hwf _ _ _ Hg) in H; destruct H as [? H]
  | IH : forall x, forallb wf x = true -> sound _ (?f x), Hg : good ?p,
    H : ?f ?x ?p = Ok _ |- _ =>
      let Hwf := fresh "Hwf" in
      assert (Hwf : forallb wf x = true) by wf_tac;
      apply (IH x Hwf _ _ _ Hg) in H; destruct H as [? H]
  | IH : forall y x, forallb wf_statement x = true -> sound _ (?f y x),
    Hg : good ?p, H : ?f ?y ?x ?p = Ok _ |- _ =>
      let Hwf := fresh "Hwf" in
      assert (Hwf : forallb wf_statement x = true) by wf_tac;
      apply (IH y x Hwf _ _ _ Hg) in H; destruct H as [? H]
  | Hg : good ?p, H : binary_loop ?n ?ty ?node ?op ?left ?p = Ok _ |- _ =>
      let H1 := fresh "H" in
      assert (H1 : sound wf (binary_loop n ty node op left))
        by (apply binary_loop_sound;
            [reflexivity | intros; wf_tac | assumption | wf_tac]);
      apply (H1 _ _ _ Hg) in H; destruct H as [? H]; clear H1
  end.

Ltac snd_solve := repeat snd_step; (split; [assumption|wf_tac]).

Lemma identifier_sound :
  sound (fun e => wf e && is_identifier e) identifier.
Proof.
  intros p a p' Hg H. unfold identifier in H. minv H. snd_solve.
Qed.

Lemma super_sound : sound wf super.
Proof.
  intros p a p' Hg H. unfold super in H. minv H. snd_solve.
Qed.

Lemma assignmentOperator_sound :
  sound (fun tok => is_op SIMPLE_ASSIGN (Value tok)
                    || is_op COMPLEX_ASSIGN (Value tok))
        assignmentOperator.
Proof.
  intros p a p' Hg H. unfold assignmentOperator in H. minv H; snd_solve.
Qed.

Lemma literal_sound : sound wf literal.
Proof.
  intros p a p' Hg H. unfold literal in H. minv H;
    snd_step; (split; [assumption|]); try wf_tac.
  cbn [wf].
  match goal with
  | Hx : strconv.ParseInt _ = inl _ |- _ => apply ParseInt_range in Hx
  end.
  apply andb_true_iff. split; [apply Z.leb_le|apply Z.ltb_lt]; lia.
Qed.

Definition sound_at (n : nat) : Prop :=
  (forall stop ss,
      forallb wf_statement ss = true ->
      sound (forallb wf_statement) (statementList n stop ss))
  /\ sound wf_statement (statement n)
  /\ sound wf_statement (expressionStatement n)
  /\ sound wf (expression n)
  /\ sound wf (assignmentExpression n)
  /\ sound wf (logicalOrExpression n)
  /\ sound wf (logicalAndExpression n)
  /\ sound wf (equality n)
  /\ sound wf (comparison n)
  /\ sound wf (term n)
  /\ sound wf (factor n)
  /\ sound wf (unary n)
  /\ sound wf (leftHandSideExp n)
  /\ sound wf (callMemberExp n)
  /\ sound wf (memberExp n)
  /\ (forall o, wf o = true -> sound wf (memberExp_loop n o))
  /\ (forall c, wf c = true -> sound wf (callExpression n c))
  /\ sound (forallb wf) (arguments n)
  /\ sound (forallb wf) (argumentList n)
  /\ (forall a, forallb wf a = true ->
                sound (forallb wf) (argumentList_loop n a))
  /\ sound wf (primary n).

Lemma sound_at_all n : sound_at n.
Proof.
  pose proof identifier_sound as Hid.
  pose proof super_sound as Hsu.
  pose proof assignmentOperator_sound as Hao.
  pose proof literal_sound as Hli.
  induction n as [|n IH].
  - unfold sound_at; split_all; intros; intros q r q' Hg Hrun; discriminate Hrun.
  - destruct IH as (H1 & H2 & H3 & H4 & H5 & H6 & H7 & H8 & H9 & H10 & H11
                    & H12 & H13 & H14 & H15 & H16 & H17 & H18 & H19 & H20
                    & H21).
    unfold sound_at; split_all; intros; intros q r q' Hg Hrun.
    + rewrite statementList_S in Hrun. minv Hrun; snd_solve.
    + rewrite statement_S in Hrun. snd_solve.
    + rewrite expressionStatement_S in Hrun. minv Hrun; snd_solve.
    + rewrite expression_S in Hrun. snd_solve.
    + rewrite assignmentExpression_S in Hrun. minv Hrun; snd_solve.
    + rewrite logicalOrExpression_S in Hrun. minv Hrun; snd_solve.
    + rewrite logicalAndExpression_S in Hrun. minv Hrun; snd_solve.
    + rewrite equality_S in Hrun. minv Hrun; snd_solve.
    + rewrite comparison_S in Hrun. minv Hrun; snd_solve.
    + rewrite term_S in Hrun. minv Hrun; snd_solve.
    + rewrite factor_S in Hrun. minv Hrun; snd_solve.
    + rewrite unary_S in Hrun. minv Hrun; snd_solve.
    + rewrite leftHandSideExp_S in Hrun. snd_solve.
    + rewrite callMemberExp_S in Hrun. minv Hrun; snd_solve.
    + rewrite memberExp_S in Hrun. minv Hrun; snd_solve.
    + rewrite memberExp_loop_S in Hrun. minv Hrun; snd_solve.
    + rewrite callExpression_S in Hrun. minv Hrun; snd_solve.
    + rewrite arguments_S in Hrun. minv Hrun; snd_solve.
    + rewrite argumentList_S in Hrun. minv Hrun; snd_solve.
    + rewrite argumentList_loop_S in Hrun. minv Hrun; snd_solve.
    + rewrite primary_S in Hrun. minv Hrun; snd_solve.
Qed.

End SoundParser.

Lemma Parse_wf p prog p' :
  Parse p = Ok (prog, p') -> forallb wf_statement (Statements prog) = true.
Proof.
  unfold Parse, Parse_fuel, program. intros H. minv H.
  destruct (sound_at_all (Parse_budget p)) as (H1 & _).
  eapply (H1 EOF []); [reflexivity|apply good_advance|eassumption].
Qed.

(* ================================================================== *)
(** ** Parsing a sequence of tokens *)

Section Runs.

(** [stream p toks p']: the lookahead of [p] and of the states that follow
    it are the tokens [toks], after which the parser is in [p']. *)
Inductive stream : Parser -> list Token -> Parser -> Prop :=
  | stream_nil p : stream p [] p
  | stream_cons p tok toks p' :
      lookAhead p = tok -> stream (advance p) toks p' ->
      stream p (tok :: toks) p'.

Lemma stream_app p l1 p1 l2 p2 :
  stream p l1 p1 -> stream p1 l2 p2 -> stream p (l1 ++ l2)%list p2.
Proof.
  induction 1; intros; simpl; auto. constructor; auto.
Qed.

Lemma stream_app_inv l1 : forall p l2 p2,
  stream p (l1 ++ l2)%list p2 ->
  exists p1, stream p l1 p1 /\ stream p1 l2 p2.
Proof.
  induction l1 as [|tok l1 IH]; intros p l2 p2 H; simpl in H.
  - exists p. split; [constructor|assumption].
  - inversion H; subst. destruct (IH _ _ _ H5) as (p1 & H1 & H2).
    exists p1. split; [constructor|]; auto.
Qed.

Lemma stream_cons_inv p tok l p' :
  stream p (tok :: l) p' -> lookAhead p = tok /\ stream (advance p) l p'.
Proof. inversion 1; subst; auto. Qed.

Lemma stream_nil_inv p p' : stream p [] p' -> p' = p.
Proof. inversion 1; reflexivity. Qed.

(** [f], given enough budget, returns [a] and leaves the parser in [p']. *)
Definition runs {A} (f : nat -> M A) (p : Parser) (a : A) (p' : Parser)
  : Prop :=
  exists n0, forall n, n0 <= n -> f n p = Ok (a, p').

Lemma eat_tok tt v p :
  lookAhead p = mkToken tt v -> tt <> EOF ->
  eat tt p = Ok (mkToken tt v, advance p).
Proof.
  intros H Hn. rewrite <- H. apply eat_same; [rewrite H; reflexivity|auto].
Qed.

(** A level of left-associative operators whose operator is not the
    lookahead returns what the level below returned. *)
Lemma level_pass (lower upper : nat -> M Expression) ty node p e p' :
  (forall n, upper (S n)
             = (left <- lower n ;; binary_loop n ty node (lower n) left)) ->
  runs lower p e p' ->
  TokenType_beq (Type_ (lookAhead p')) ty = false ->
  runs upper p e p'.
Proof.
  intros Heq [n0 H] Hty. exists (S (S n0)). intros n Hn.
  destruct n as [|[|n]]; try lia.
  rewrite Heq. unfold bind at 1. rewrite H by lia.
  rewrite binary_loop_S. unfold bind, peek. rewrite Hty. reflexivity.
Qed.

(** A level applies its operator once to two operands of the level below
    when the lookahead after the second is not its operator again. *)
Lemma level_node (lower upper : nat -> M Expression) ty node p l p1 op r p2 :
  (forall n, upper (S n)
             = (left <- lower n ;; binary_loop n ty node (lower n) left)) ->
  runs lower p l p1 ->
  lookAhead p1 = mkToken ty op -> ty <> EOF ->
  runs lower (advance p1) r p2 ->
  TokenType_beq (Type_ (lookAhead p2)) ty = false ->
  runs upper p (node op l r) p2.
Proof.
  intros Heq [n1 H1] Hop Hne [n2 H2] Hty.
  exists (S (S (S (n1 + n2)))). intros n Hn.
  destruct n as [|[|[|n]]]; try lia.
  rewrite Heq. unfold bind at 1. rewrite H1 by lia.
  rewrite binary_loop_S. unfold bind at 1, peek at 1. rewrite Hop.
  cbn [Type_]. rewrite (internal_TokenType_dec_lb _ _ eq_refl).
  unfold bind at 1. rewrite (eat_tok _ _ _ Hop Hne).
  unfold bind at 1. rewrite H2 by lia.
  rewrite binary_loop_S. unfold bind, peek. rewrite Hty. reflexivity.
Qed.

End Runs.

(* ================================================================== *)
(** ** The decimal numeral of an [int64] parses back to it *)

Section Numerals.

Import Decimal.

(** The value of the digits [d] written after a numeral of value [acc]. *)
Fixpoint dval (d : uint) (acc : Z) : Z :=
  match d with
  | Nil => acc
  | D0 l => dval l (10 * acc)
  | D1 l => dval l (10 * acc + 1)
  | D2 l => dval l (10 * acc + 2)
  | D3 l => dval l (10 * acc + 3)
  | D4 l => dval l (10 * acc + 4)
  | D5 l => dval l (10 * acc + 5)
  | D6 l => dval l (10 * acc + 6)
  | D7 l => dval l (10 * acc + 7)
  | D8 l => dval l (10 * acc + 8)
  | D9 l => dval l (10 * acc + 9)
  end%Z.

Lemma dval_le d : forall acc, (0 <= acc -> acc <= dval d acc)%Z.
Proof.
  induction d; intros acc Hacc; cbn [dval]; [lia|..];
    match goal with
    | |- (_ <= dval d ?a)%Z => specialize (IHd a ltac:(lia)); lia
    end.
Qed.

Lemma dval_of_uint_acc d : forall acc,
  Z.pos (Pos.of_uint_acc d acc) = dval d (Z.pos acc).
Proof.
  induction d; intros acc; cbn [dval Pos.of_uint_acc]; try reflexivity;
    rewrite IHd; f_equal; lia.
Qed.

Lemma dval_of_uint d : Z.of_N (Pos.of_uint d) = dval d 0.
Proof.
  induction d; cbn [dval Pos.of_uint Z.of_N]; try reflexivity;
    try assumption; rewrite dval_of_uint_acc; reflexivity.
Qed.

Lemma string_of_uint_digits d :
  all is_digit (NilEmpty.string_of_uint d) = true.
Proof. induction d; simpl; auto. Qed.

Lemma parse_digits_string_of_uint d : forall acc,
  (0 <= acc)%Z -> (dval d acc < 2 ^ 63)%Z ->
  strconv.parse_digits 10 acc (NilEmpty.string_of_uint d)
  = inl (dval d acc).
Proof.
  induction d; intros acc Hacc Hlt; [reflexivity|..];
    cbn [NilEmpty.string_of_uint strconv.parse_digits dval] in *;
    match goal with
    | |- context [dval d ?a] =>
        pose proof (dval_le d a ltac:(lia)) as Hle
    end;
    change (negb (is_digit _)) with false; cbn [negb];
    (match goal with
     | |- context [strconv.digit_value ?c] =>
         let k := eval vm_compute in (strconv.digit_value c) in
         change (strconv.digit_value c) with k
     end);
    change (10 <=? _)%Z with false; cbv iota;
    change (strconv.maxUint64 / 10 + 1)%Z with 1844674407370955162%Z;
    change (2 ^ 64)%Z with 18446744073709551616%Z;
    change strconv.maxUint64 with 18446744073709551615%Z;
    change (2 ^ 63)%Z with 9223372036854775808%Z in *;
    (replace (1844674407370955162 <=? acc)%Z with false
      by (symmetry; apply Z.leb_gt; lia));
    rewrite (Z.mod_small (acc * 10)) by lia;
    rewrite (Z.mod_small (acc * 10 + _)) by lia;
    (replace (_ || _) with false
      by (symmetry; apply orb_false_iff; split;
          apply Z.ltb_ge; lia));
    match goal with
    | |- strconv.parse_digits 10 ?x _ = inl (dval d ?a) =>
        replace x with a by lia
    end;
    apply IHd; lia.
Qed.

Lemma ParseUint_base10 c s :
  (c =? "0")%char = false ->
  strconv.ParseUint (String c s) = strconv.parse_digits 10 0 (String c s).
Proof.
  destruct c as [[] [] [] [] [] [] [] []]; intros H;
    try discriminate H; reflexivity.
Qed.

(** The numeral of a non-negative [int64]: digits, no leading zero unless
    it is [0] itself, and [ParseInt] reads the number back. *)
Lemma format_int64_spec v :
  (0 <= v < 2 ^ 63)%Z ->
  ast.format_int64 v <> EmptyString
  /\ all is_digit (ast.format_int64 v) = true
  /\ strconv.ParseInt (ast.format_int64 v) = inl v.
Proof.
  intros [H0 Hlt]. unfold ast.format_int64.
  destruct v as [|p|p]; [|clear H0|lia].
  { repeat split. discriminate. }
  cbn [Z.to_int NilZero.string_of_int NilZero.string_of_uint].
  pose proof (DecimalPos.Unsigned.of_to p) as Hof.
  pose proof (DecimalPos.Unsigned.to_of (Pos.to_uint p)) as Hto.
  rewrite Hof in Hto. cbn [N.to_uint] in Hto.
  pose proof (DecimalPos.Unsigned.to_uint_nonzero p) as Hnz.
  assert (Hv : dval (Pos.to_uint p) 0 = Z.pos p).
  { rewrite <- dval_of_uint, Hof. reflexivity. }
  pose proof (string_of_uint_digits (Pos.to_uint p)) as Hd.
  pose proof (parse_digits_string_of_uint (Pos.to_uint p) 0 ltac:(lia)
                ltac:(rewrite Hv; exact Hlt)) as Hp.
  rewrite Hv in Hp.
  assert (Hhead : forall l, Pos.to_uint p <> D0 l).
  { intros l E. unfold unorm in Hto.
    pose proof (DecimalFacts.nzhead_nonzero (Pos.to_uint p) l) as Hn.
    destruct (nzhead (Pos.to_uint p)) eqn:En; congruence. }
  destruct (Pos.to_uint p) as [|l|l|l|l|l|l|l|l|l|l] eqn:E;
    try (exfalso; apply (Hhead l); reflexivity);
    try (exfalso; apply (DecimalPos.Unsigned.to_uint_nonnil p); exact E);
    cbn [NilEmpty.string_of_uint NilZero.string_of_uint] in *;
    (split; [discriminate|]; split; [exact Hd|]);
    unfold strconv.ParseInt;
    rewrite ParseUint_base10 by reflexivity; rewrite Hp;
    (replace (2 ^ 63 <=? Z.pos p)%Z with false
      by (symmetry; apply Z.leb_gt; exact Hlt));
    reflexivity.
Qed.

End Numerals.

(* ================================================================== *)
(** ** The grammar rules, one derivation step each *)

Section Derivations.

(** What [callMemberExp] and [callExpression] do once a callee is known. *)
Definition call_tail (n : nat) (callee : Expression) : M Expression :=
  ty <- peek ;;
  if TokenType_beq ty LPAREN then callExpression n callee else ret callee.

Definition closer (ty : TokenType) : bool :=
  match ty with EOF | RPAREN | RBRACKET | COMMA => true | _ => false end.

Ltac ev :=
  repeat first
    [ progress (unfold bind, peek, ret)
    | progress cbv beta iota
    | match goal with
      | H : lookAhead ?p = _ |- context [lookAhead ?p] => rewrite H
      end
    | match goal with
      | H : Type_ (lookAhead ?p) = _ |- context [Type_ (lookAhead ?p)] =>
          rewrite H
      end
    | match goal with
      | H : ?b = _ |- context [if ?b then _ else _] => rewrite H
      end
    | match goal with
      | H : TokenType_beq ?a ?b = _ |- context [TokenType_beq ?a ?b] =>
          rewrite H
      end
    | progress cbn [Type_ Value TokenType_beq negb orb andb isLiteral
                    isAssignmentOperator]
    | match goal with
      | H : lookAhead ?p = mkToken ?tt ?v |- context [eat ?tt ?p] =>
          rewrite (eat_tok tt v p H) by discriminate
      end
    | match goal with
      | H : forall n, _ <= n -> ?f n ?p = _ |- context [?f ?m ?p] =>
          rewrite (H m) by lia
      end
    | match goal with
      | H : forall n, _ <= n -> ?f n ?x ?p = _ |- context [?f ?m ?x ?p] =>
          rewrite (H m) by lia
      end ].

Ltac open_runs :=
  repeat match goal with
    | H : runs _ _ _ _ |- _ =>
        let n := fresh "n" in destruct H as [n H]; cbv beta in H
    end.

Tactic Notation "start" constr(k) :=
  match goal with
  | |- runs _ _ _ _ => exists k; intros m Hm; cbv beta
  end.

Lemma primary_number p s v :
  lookAhead p = mkToken NUMBER s -> strconv.ParseInt s = inl v ->
  runs primary p (NumericLiteral v) (advance p).
Proof.
  intros Hl Hv. open_runs. start 1%nat. destruct m; [lia|].
  rewrite primary_S. unfold literal. ev. rewrite Hv. reflexivity.
Qed.

Lemma primary_string p s :
  lookAhead p = mkToken STRING s ->
  runs primary p (StringLiteral s) (advance p).
Proof.
  intros Hl. open_runs. start 1%nat. destruct m; [lia|].
  rewrite primary_S. unfold literal. ev. reflexivity.
Qed.

Lemma primary_bool p (b : bool) :
  lookAhead p = (if b then mkToken TRUE "true" else mkToken FALSE "false") ->
  runs primary p (BooleanLiteral b) (advance p).
Proof.
  intros Hl. open_runs. start 1%nat. destruct m; [lia|].
  rewrite primary_S. unfold literal. destruct b; ev; reflexivity.
Qed.

Lemma primary_null p v :
  lookAhead p = mkToken NULL v -> runs primary p NullLiteral (advance p).
Proof.
  intros Hl. open_runs. start 1%nat. destruct m; [lia|].
  rewrite primary_S. unfold literal. ev. reflexivity.
Qed.

Lemma primary_identifier p x :
  lookAhead p = mkToken IDENTIFIER x ->
  runs primary p (Identifier x) (advance p).
Proof.
  intros Hl. open_runs. start 1%nat. destruct m; [lia|].
  rewrite primary_S. unfold identifier. ev. reflexivity.
Qed.

Lemma primary_this p v :
  lookAhead p = mkToken THIS v -> runs primary p ThisExpression (advance p).
Proof.
  intros Hl. open_runs. start 1%nat. destruct m; [lia|].
  rewrite primary_S. ev. reflexivity.
Qed.

Lemma primary_paren p v e p1 v' :
  lookAhead p = mkToken LPAREN v ->
  runs expression (advance p) e p1 ->
  lookAhead p1 = mkToken RPAREN v' ->
  runs primary p e (advance p1).
Proof.
  intros Hl He Hr. open_runs. start (S n)%nat. destruct m; [lia|].
  rewrite primary_S. ev. reflexivity.
Qed.

Lemma loop_stop o p :
  TokenType_beq (Type_ (lookAhead p)) DOT = false ->
  TokenType_beq (Type_ (lookAhead p)) LBRACKET = false ->
  runs (fun n => memberExp_loop n o) p o p.
Proof.
  intros H1 H2. open_runs. start 1%nat. destruct m; [lia|].
  rewrite memberExp_loop_S. ev. reflexivity.
Qed.

Lemma loop_dot o p v x X q :
  lookAhead p = mkToken DOT v ->
  lookAhead (advance p) = mkToken IDENTIFIER x ->
  runs (fun n => memberExp_loop n (MemberExpression false o (Identifier x)))
       (advance (advance p)) X q ->
  runs (fun n => memberExp_loop n o) p X q.
Proof.
  intros H1 H2 H. open_runs. start (S n)%nat. destruct m; [lia|].
  rewrite memberExp_loop_S. unfold identifier. ev. reflexivity.
Qed.

Lemma loop_bracket o p v prop p1 v' X q :
  lookAhead p = mkToken LBRACKET v ->
  runs expression (advance p) prop p1 ->
  lookAhead p1 = mkToken RBRACKET v' ->
  runs (fun n => memberExp_loop n (MemberExpression true o prop))
       (advance p1) X q ->
  runs (fun n => memberExp_loop n o) p X q.
Proof.
  intros H1 He H2 H. open_runs. start (S (n + n0))%nat. destruct m; [lia|].
  rewrite memberExp_loop_S. ev. reflexivity.
Qed.

Lemma memberExp_of_primary p e p1 X q :
  runs primary p e p1 ->
  runs (fun n => memberExp_loop n e) p1 X q ->
  runs memberExp p X q.
Proof.
  intros H1 H2. open_runs. start (S (n + n0))%nat. destruct m; [lia|].
  rewrite memberExp_S. ev. reflexivity.
Qed.

Lemma callMemberExp_of_member p e p1 X q :
  TokenType_beq (Type_ (lookAhead p)) SUPER = false ->
  runs memberExp p e p1 ->
  runs (fun n => call_tail n e) p1 X q ->
  runs callMemberExp p X q.
Proof.
  intros Hs H1 H2. open_runs. start (S (n + n0))%nat. destruct m; [lia|].
  rewrite callMemberExp_S. ev. unfold call_tail in H2.
  specialize (H2 m ltac:(lia)). revert H2. ev. auto.
Qed.

Lemma call_tail_stop e p :
  TokenType_beq (Type_ (lookAhead p)) LPAREN = false ->
  runs (fun n => call_tail n e) p e p.
Proof.
  intros H. open_runs. start 0%nat. unfold call_tail. ev. reflexivity.
Qed.

Lemma call_tail_call c p args p1 X q :
  Type_ (lookAhead p) = LPAREN ->
  runs arguments p args p1 ->
  runs (fun n => call_tail n (CallExpression c args)) p1 X q ->
  runs (fun n => call_tail n c) p X q.
Proof.
  intros Hl H1 H2. open_runs. start (S (n + n0))%nat. destruct m; [lia|].
  unfold call_tail. ev. rewrite callExpression_S. ev.
  unfold call_tail in H2.
  specialize (H2 m ltac:(lia)). revert H2. ev. auto.
Qed.

Lemma arguments_none p v v' :
  lookAhead p = mkToken LPAREN v ->
  lookAhead (advance p) = mkToken RPAREN v' ->
  runs arguments p [] (advance (advance p)).
Proof.
  intros H1 H2. open_runs. start 1%nat. destruct m; [lia|].
  rewrite arguments_S. ev. reflexivity.
Qed.

Lemma arguments_some p v args p1 v' :
  lookAhead p = mkToken LPAREN v ->
  TokenType_beq (Type_ (lookAhead (advance p))) RPAREN = false ->
  runs argumentList (advance p) args p1 ->
  lookAhead p1 = mkToken RPAREN v' ->
  runs arguments p args (advance p1).
Proof.
  intros H1 H2 H3 H4. open_runs. start (S n)%nat. destruct m; [lia|].
  rewrite arguments_S. ev. reflexivity.
Qed.

Lemma argumentList_first p a p1 args q :
  runs assignmentExpression p a p1 ->
  runs (fun n => argumentList_loop n [a]) p1 args q ->
  runs argumentList p args q.
Proof.
  intros H1 H2. open_runs. start (S (n + n0))%nat. destruct m; [lia|].
  rewrite argumentList_S. ev. reflexivity.
Qed.

Lemma argloop_stop acc p :
  TokenType_beq (Type_ (lookAhead p)) COMMA = false ->
  runs (fun n => argumentList_loop n acc) p acc p.
Proof.
  intros H. open_runs. start 1%nat. destruct m; [lia|].
  rewrite argumentList_loop_S. ev. reflexivity.
Qed.

Lemma argloop_comma acc p v a p1 args q :
  lookAhead p = mkToken COMMA v ->
  runs assignmentExpression (advance p) a p1 ->
  runs (fun n => argumentList_loop n (acc ++ [a])) p1 args q ->
  runs (fun n => argumentList_loop n acc) p args q.
Proof.
  intros H1 H2 H3. open_runs. start (S (n + n0))%nat. destruct m; [lia|].
  rewrite argumentList_loop_S. ev. reflexivity.
Qed.

Lemma unary_pass p e p' :
  TokenType_beq (Type_ (lookAhead p)) ADDITIVE_OPERATOR = false ->
  TokenType_beq (Type_ (lookAhead p)) LOGICAL_NOT = false ->
  runs callMemberExp p e p' ->
  runs unary p e p'.
Proof.
  intros H1 H2 H. open_runs. start (S (S n))%nat. destruct m as [|[|m]]; try lia.
  rewrite unary_S. ev.
  destruct (Type_ (lookAhead p)); try discriminate;
    ev; change (0 <? String.length EmptyString)%nat with false;
    ev; rewrite leftHandSideExp_S; ev; reflexivity.
Qed.

Lemma unary_op p ty op r p' :
  lookAhead p = mkToken ty op ->
  ty = ADDITIVE_OPERATOR \/ ty = LOGICAL_NOT ->
  (0 <? String.length op)%nat = true ->
  runs unary (advance p) r p' ->
  runs unary p (UnaryExpression op r) p'.
Proof.
  intros Hl Hty Hop H. open_runs. start (S n)%nat. destruct m; [lia|].
  rewrite unary_S. destruct Hty; subst ty; ev; reflexivity.
Qed.

Lemma assignment_pass p e p' :
  runs logicalOrExpression p e p' ->
  isAssignmentOperator (Type_ (lookAhead p')) = false ->
  runs assignmentExpression p e p'.
Proof.
  intros H Hn. open_runs. start (S n)%nat. destruct m; [lia|].
  rewrite assignmentExpression_S. ev. rewrite Hn. reflexivity.
Qed.

Lemma expression_of_assignment p e p' :
  runs assignmentExpression p e p' -> runs expression p e p'.
Proof.
  intros H. open_runs. start (S n)%nat. destruct m; [lia|].
  rewrite expression_S. ev. reflexivity.
Qed.

End Derivations.

Section Levels.

Ltac not_op Hc :=
  let ty := fresh "ty" in
  match type of Hc with
  | closer ?t = true =>
      destruct t; try discriminate Hc; reflexivity
  end.

Lemma factor_pass p e p' :
  runs unary p e p' ->
  TokenType_beq (Type_ (lookAhead p')) MULTIPLICATIVE_OPERATOR = false ->
  runs factor p e p'.
Proof. apply level_pass with (node := BinaryExpression). apply factor_S. Qed.

Lemma term_pass p e p' :
  runs factor p e p' ->
  TokenType_beq (Type_ (lookAhead p')) ADDITIVE_OPERATOR = false ->
  runs term p e p'.
Proof. apply level_pass with (node := BinaryExpression). apply term_S. Qed.

Lemma comparison_pass p e p' :
  runs term p e p' ->
  TokenType_beq (Type_ (lookAhead p')) RELATIONAL_OPERATOR = false ->
  runs comparison p e p'.
Proof.
  apply level_pass with (node := BinaryExpression). apply comparison_S.
Qed.

Lemma equality_pass p e p' :
  runs comparison p e p' ->
  TokenType_beq (Type_ (lookAhead p')) EQUALITY_OPERATOR = false ->
  runs equality p e p'.
Proof.
  apply level_pass with (node := LogicalExpression). apply equality_S.
Qed.

Lemma logicalAnd_pass p e p' :
  runs equality p e p' ->
  TokenType_beq (Type_ (lookAhead p')) LOGICAL_AND = false ->
  runs logicalAndExpression p e p'.
Proof.
  apply level_pass with (node := LogicalExpression).
  apply logicalAndExpression_S.
Qed.

Lemma logicalOr_pass p e p' :
  runs logicalAndExpression p e p' ->
  TokenType_beq (Type_ (lookAhead p')) LOGICAL_OR = false ->
  runs logicalOrExpression p e p'.
Proof.
  apply level_pass with (node := LogicalExpression).
  apply logicalOrExpression_S.
Qed.

(** An expression of the [unary] level followed by a token that continues
    nothing is the whole expression. *)
Lemma climb_assignment p e p' :
  runs unary p e p' -> closer (Type_ (lookAhead p')) = true ->
  runs assignmentExpression p e p'.
Proof.
  intros H Hc.
  apply assignment_pass; [|not_op Hc].
  apply logicalOr_pass; [|not_op Hc].
  apply logicalAnd_pass; [|not_op Hc].
  apply equality_pass; [|not_op Hc].
  apply comparison_pass; [|not_op Hc].
  apply term_pass; [|not_op Hc].
  apply factor_pass; [|not_op Hc]. exact H.
Qed.

Lemma climb p e p' :
  runs unary p e p' -> closer (Type_ (lookAhead p')) = true ->
  runs expression p e p'.
Proof.
  intros H Hc. apply expression_of_assignment, climb_assignment; assumption.
Qed.

Definition is_binop_type (ty : TokenType) : bool :=
  match ty with
  | LOGICAL_OR | LOGICAL_AND | EQUALITY_OPERATOR | RELATIONAL_OPERATOR
  | ADDITIVE_OPERATOR | MULTIPLICATIVE_OPERATOR => true
  | _ => false
  end.

Definition node_of (ty : TokenType)
  : string -> Expression -> Expression -> Expression :=
  match ty with
  | LOGICAL_OR | LOGICAL_AND | EQUALITY_OPERATOR => LogicalExpression
  | _ => BinaryExpression
  end.

Ltac ne Hl Hc :=
  first [ rewrite Hl; reflexivity | not_op Hc ].

(** Two operands around one binary operator, then a token that continues
    nothing. *)
Lemma binary_expression p l p1 ty op r p2 :
  is_binop_type ty = true ->
  runs unary p l p1 ->
  lookAhead p1 = mkToken ty op ->
  runs unary (advance p1) r p2 ->
  closer (Type_ (lookAhead p2)) = true ->
  runs expression p (node_of ty op l r) p2.
Proof.
  intros Hty Hl Hop Hr Hc.
  apply expression_of_assignment, assignment_pass; [|not_op Hc].
  destruct ty; try discriminate Hty; cbn [node_of].
  - (* relational *)
    apply logicalOr_pass; [|not_op Hc].
    apply logicalAnd_pass; [|not_op Hc].
    apply equality_pass; [|not_op Hc].
    eapply level_node with (lower := term);
      [apply comparison_S| |exact Hop|discriminate| |not_op Hc].
    + apply term_pass; [|ne Hop Hc]. apply factor_pass; [|ne Hop Hc]. exact Hl.
    + apply term_pass; [|ne Hop Hc]. apply factor_pass; [|ne Hop Hc]. exact Hr.
  - (* equality *)
    apply logicalOr_pass; [|not_op Hc].
    apply logicalAnd_pass; [|not_op Hc].
    eapply level_node with (lower := comparison);
      [apply equality_S| |exact Hop|discriminate| |not_op Hc].
    + apply comparison_pass; [|ne Hop Hc].
      apply term_pass; [|ne Hop Hc]. apply factor_pass; [|ne Hop Hc]. exact Hl.
    + apply comparison_pass; [|ne Hop Hc].
      apply term_pass; [|ne Hop Hc]. apply factor_pass; [|ne Hop Hc]. exact Hr.
  - (* additive *)
    apply logicalOr_pass; [|not_op Hc].
    apply logicalAnd_pass; [|not_op Hc].
    apply equality_pass; [|not_op Hc].
    apply comparison_pass; [|not_op Hc].
    eapply level_node with (lower := factor);
      [apply term_S| |exact Hop|discriminate| |not_op Hc].
    + apply factor_pass; [|ne Hop Hc]. exact Hl.
    + apply factor_pass; [|ne Hop Hc]. exact Hr.
  - (* multiplicative *)
    apply logicalOr_pass; [|not_op Hc].
    apply logicalAnd_pass; [|not_op Hc].
    apply equality_pass; [|not_op Hc].
    apply comparison_pass; [|not_op Hc].
    apply term_pass; [|not_op Hc].
    eapply level_node with (lower := unary);
      [apply factor_S|exact Hl|exact Hop|discriminate|exact Hr|not_op Hc].
  - (* logical and *)
    apply logicalOr_pass; [|not_op Hc].
    eapply level_node with (lower := equality);
      [apply logicalAndExpression_S| |exact Hop|discriminate| |not_op Hc].
    + apply equality_pass; [|ne Hop Hc]. apply comparison_pass; [|ne Hop Hc].
      apply term_pass; [|ne Hop Hc]. apply factor_pass; [|ne Hop Hc]. exact Hl.
    + apply equality_pass; [|ne Hop Hc]. apply comparison_pass; [|ne Hop Hc].
      apply term_pass; [|ne Hop Hc]. apply factor_pass; [|ne Hop Hc]. exact Hr.
  - (* logical or *)
    eapply level_node with (lower := logicalAndExpression);
      [apply logicalOrExpression_S| |exact Hop|discriminate| |not_op Hc].
    + apply logicalAnd_pass; [|ne Hop Hc].
      apply equality_pass; [|ne Hop Hc]. apply comparison_pass; [|ne Hop Hc].
      apply term_pass; [|ne Hop Hc]. apply factor_pass; [|ne Hop Hc]. exact Hl.
    + apply logicalAnd_pass; [|ne Hop Hc].
      apply equality_pass; [|ne Hop Hc]. apply comparison_pass; [|ne Hop Hc].
      apply term_pass; [|ne Hop Hc]. apply factor_pass; [|ne Hop Hc]. exact Hr.
Qed.

End Levels.

(* ================================================================== *)
(** ** Pure expressions and their tokens *)

Section PureExpressions.

Definition is_call (e : Expression) : bool :=
  match e with CallExpression _ _ => true | _ => false end.

(** The trees made of literals, names, [this], unary, binary and logical
    operators, member accesses and calls, in which no member access has a
    call as its object. *)
Fixpoint pure (e : Expression) : bool :=
  match e with
  | NumericLiteral _ | StringLiteral _ | BooleanLiteral _ | NullLiteral
  | Identifier _ | ThisExpression => true
  | LogicalExpression _ l r | BinaryExpression _ l r => pure l && pure r
  | UnaryExpression _ r => pure r
  | CallExpression c args => pure c && forallb pure args
  | MemberExpression _ o p => negb (is_call o) && pure o && pure p
  | AssignmentExpression _ _ _ | SuperExpression | NewExpression _ _ => false
  end.

(** The type of the token of an operator. *)
Definition op_type (op : string) : TokenType :=
  if is_op ADDITIVE_OPERATOR op then ADDITIVE_OPERATOR
  else if is_op MULTIPLICATIVE_OPERATOR op then MULTIPLICATIVE_OPERATOR
  else if is_op RELATIONAL_OPERATOR op then RELATIONAL_OPERATOR
  else if is_op EQUALITY_OPERATOR op then EQUALITY_OPERATOR
  else if is_op LOGICAL_AND op then LOGICAL_AND
  else if is_op LOGICAL_OR op then LOGICAL_OR
  else if is_op LOGICAL_NOT op then LOGICAL_NOT
  else ERROR.

(** The token lists [ls] with [sep] between them, as [String.concat]. *)
Fixpoint sep_concat {A} (sep : list A) (ls : list (list A)) : list A :=
  match ls with
  | [] => []
  | [x] => x
  | x :: xs => (x ++ sep ++ sep_concat sep xs)%list
  end.

(** The tokens of the rendering of a pure expression. *)
Fixpoint toks (e : Expression) : list Token :=
  match e with
  | NumericLiteral v => [mkToken NUMBER (ast.format_int64 v)]
  | StringLiteral s => [mkToken STRING s]
  | BooleanLiteral b =>
      [if b then mkToken TRUE "true" else mkToken FALSE "false"]
  | NullLiteral => [mkToken NULL "null"]
  | Identifier x => [mkToken IDENTIFIER x]
  | ThisExpression => [mkToken THIS "this"]
  | SuperExpression => [mkToken SUPER "super"]
  | LogicalExpression op l r | BinaryExpression op l r =>
      (mkToken LPAREN "(" :: toks l
       ++ mkToken (op_type op) op :: toks r ++ [mkToken RPAREN ")"])%list
  | UnaryExpression op r =>
      (mkToken LPAREN "(" :: mkToken (op_type op) op :: toks r
       ++ [mkToken RPAREN ")"])%list
  | MemberExpression computed o p =>
      if negb computed
      then (toks o ++ mkToken DOT "." :: toks p)%list
      else (toks o ++ mkToken LBRACKET "[" :: toks p
            ++ [mkToken RBRACKET "]"])%list
  | CallExpression c args =>
      (toks c ++ mkToken LPAREN "(" :: sep_concat [mkToken COMMA ","]
                                         (map toks args)
       ++ [mkToken RPAREN ")"])%list
  | AssignmentExpression _ _ _ | NewExpression _ _ => []
  end.

(** Induction on expressions, through the argument lists. *)
Lemma Expression_nested_ind (P : Expression -> Prop) :
  (forall v, P (NumericLiteral v)) ->
  (forall s, P (StringLiteral s)) ->
  (forall b, P (BooleanLiteral b)) ->
  P NullLiteral ->
  (forall op l r, P l -> P r -> P (AssignmentExpression op l r)) ->
  (forall op l r, P l -> P r -> P (LogicalExpression op l r)) ->
  (forall op l r, P l -> P r -> P (BinaryExpression op l r)) ->
  (forall op r, P r -> P (UnaryExpression op r)) ->
  (forall c args, P c -> Forall P args -> P (CallExpression c args)) ->
  (forall computed o p, P o -> P p -> P (MemberExpression computed o p)) ->
  P SuperExpression ->
  (forall x, P (Identifier x)) ->
  P ThisExpression ->
  (forall c args, P c -> Forall P args -> P (NewExpression c args)) ->
  forall e, P e.
Proof.
  intros Hnum Hstr Hbool Hnull Hasg Hlog Hbin Hun Hcall Hmem Hsup Hid Hthis
    Hnew.
  fix IH 1. intros e.
  destruct e as [v|s|b| |op l r|op l r|op l r|op r|c args|cp o p| |x| |c args].
  - apply Hnum.
  - apply Hstr.
  - apply Hbool.
  - apply Hnull.
  - apply Hasg; apply IH.
  - apply Hlog; apply IH.
  - apply Hbin; apply IH.
  - apply Hun; apply IH.
  - apply Hcall; [apply IH|].
    induction args as [|a args IHargs]; constructor; [apply IH|exact IHargs].
  - apply Hmem; apply IH.
  - apply Hsup.
  - apply Hid.
  - apply Hthis.
  - apply Hnew; [apply IH|].
    induction args as [|a args IHargs]; constructor; [apply IH|exact IHargs].
Qed.

(** The types of the tokens a pure expression can begin with. *)
Definition first_ok (ty : TokenType) : bool :=
  match ty with
  | NUMBER | STRING | TRUE | FALSE | NULL | IDENTIFIER | THIS | LPAREN =>
      true
  | _ => false
  end.

Lemma toks_first e :
  pure e = true ->
  exists tok rest, toks e = tok :: rest /\ first_ok (Type_ tok) = true.
Proof.
  induction e
    as [v|s|b| |op l IHl r IHr|op l IHl r IHr|op l IHl r IHr|op r IHr
        |c IHc args|cp o IHo p IHp| |x| |c IHc args];
    cbn [pure toks]; intros Hp; try discriminate Hp;
    try (eexists; eexists; split; [reflexivity|reflexivity]).
  - destruct b; eexists; eexists; split; reflexivity.
  - apply andb_true_iff in Hp as [Hp _].
    destruct (IHc Hp) as (tok & rest & -> & Hf).
    eexists; eexists; split; [reflexivity|exact Hf].
  - apply andb_true_iff in Hp as [Hp _].
    apply andb_true_iff in Hp as [_ Hp].
    destruct (IHo Hp) as (tok & rest & -> & Hf).
    destruct (negb cp); eexists; eexists; split;
      try reflexivity; exact Hf.
Qed.

End PureExpressions.

(* ================================================================== *)
(** ** The parser on the tokens of a pure expression *)

Section ParsePure.

(** The lookahead does not continue a member chain. *)
Definition not_access (p : Parser) : Prop :=
  TokenType_beq (Type_ (lookAhead p)) DOT = false
  /\ TokenType_beq (Type_ (lookAhead p)) LBRACKET = false.

(** On the tokens of [e], [memberExp] comes to its loop with [e] as the
    object, and [callMemberExp] to the test for a call with [e] as the
    callee. *)
Definition parses (e : Expression) : Prop :=
  forall p p', stream p (toks e) p' ->
    (is_call e = false ->
     forall X q, runs (fun n => memberExp_loop n e) p' X q ->
                 runs memberExp p X q)
    /\ (forall X q,
           (is_call e = false -> not_access p') ->
           runs (fun n => call_tail n e) p' X q ->
           runs callMemberExp p X q).

Lemma first_ok_types ty :
  first_ok ty = true ->
  TokenType_beq ty SUPER = false
  /\ TokenType_beq ty ADDITIVE_OPERATOR = false
  /\ TokenType_beq ty LOGICAL_NOT = false
  /\ TokenType_beq ty RPAREN = false.
Proof. destruct ty; intros H; try discriminate H; repeat split. Qed.

Lemma stream_first e p p' :
  pure e = true -> stream p (toks e) p' ->
  first_ok (Type_ (lookAhead p)) = true.
Proof.
  intros Hp Hs. destruct (toks_first e Hp) as (tok & rest & E & Hf).
  rewrite E in Hs. apply stream_cons_inv in Hs as [-> _]. exact Hf.
Qed.

Lemma parses_callMemberExp e p p' :
  parses e -> stream p (toks e) p' ->
  not_access p' ->
  TokenType_beq (Type_ (lookAhead p')) LPAREN = false ->
  runs callMemberExp p e p'.
Proof.
  intros He Hs Hna Hlp. destruct (He p p' Hs) as [_ Hct].
  apply Hct; [auto|]. apply call_tail_stop. exact Hlp.
Qed.

Lemma parses_unary e p p' :
  pure e = true -> parses e -> stream p (toks e) p' ->
  not_access p' ->
  TokenType_beq (Type_ (lookAhead p')) LPAREN = false ->
  runs unary p e p'.
Proof.
  intros Hp He Hs Hna Hlp.
  destruct (first_ok_types _ (stream_first e p p' Hp Hs)) as (_ & Ha & Hn & _).
  apply unary_pass; auto. apply parses_callMemberExp; auto.
Qed.

Lemma closer_not_access p :
  closer (Type_ (lookAhead p)) = true ->
  not_access p /\ TokenType_beq (Type_ (lookAhead p)) LPAREN = false.
Proof.
  unfold not_access. destruct (Type_ (lookAhead p)); intros H;
    try discriminate H; repeat split.
Qed.

Lemma parses_assignment e p p' :
  pure e = true -> parses e -> stream p (toks e) p' ->
  closer (Type_ (lookAhead p')) = true ->
  runs assignmentExpression p e p'.
Proof.
  intros Hp He Hs Hc. destruct (closer_not_access _ Hc).
  apply climb_assignment; auto. apply parses_unary; auto.
Qed.

Lemma parses_expression e p p' :
  pure e = true -> parses e -> stream p (toks e) p' ->
  closer (Type_ (lookAhead p')) = true ->
  runs expression p e p'.
Proof.
  intros. apply expression_of_assignment, parses_assignment; auto.
Qed.

(** What [primary] parses is parsed by the levels above it. *)
Lemma parses_of_primary e :
  is_call e = false ->
  (forall p p', stream p (toks e) p' ->
     runs primary p e p'
     /\ TokenType_beq (Type_ (lookAhead p)) SUPER = false) ->
  parses e.
Proof.
  intros Hnc H p p' Hs. destruct (H p p' Hs) as [Hprim Hsup].
  assert (Hm : forall X q, runs (fun n => memberExp_loop n e) p' X q ->
                           runs memberExp p X q).
  { intros X q Hl. eapply memberExp_of_primary; eauto. }
  split; [auto|].
  intros X q Hna Hct. destruct (Hna Hnc) as [H1 H2].
  eapply callMemberExp_of_member; [exact Hsup| |exact Hct].
  apply Hm. apply loop_stop; assumption.
Qed.

Lemma stream_one p tok p' :
  stream p [tok] p' -> lookAhead p = tok /\ p' = advance p.
Proof.
  intros H. apply stream_cons_inv in H as [H1 H2].
  apply stream_nil_inv in H2. auto.
Qed.

Ltac atom :=
  let p := fresh "p" in
  let p' := fresh "p'" in
  let Hs := fresh "Hs" in
  apply parses_of_primary; [reflexivity|];
  intros p p' Hs; cbn [toks] in Hs;
  apply stream_one in Hs; destruct Hs as [Hs ->];
  split; [|rewrite Hs; reflexivity].

Lemma binary_ops op :
  is_op RELATIONAL_OPERATOR op || is_op ADDITIVE_OPERATOR op
  || is_op MULTIPLICATIVE_OPERATOR op = true ->
  is_binop_type (op_type op) = true
  /\ node_of (op_type op) = BinaryExpression.
Proof.
  unfold is_op, ops_of, op_type, is_op, ops_of. cbn [existsb].
  repeat match goal with
    | |- context [String.eqb op ?x] =>
        destruct (String.eqb_spec op x) as [->|?];
        [intros H; first [discriminate H | split; reflexivity]|]
    end.
  cbn [orb]. discriminate.
Qed.

Lemma logical_ops op :
  is_op LOGICAL_OR op || is_op LOGICAL_AND op
  || is_op EQUALITY_OPERATOR op = true ->
  is_binop_type (op_type op) = true
  /\ node_of (op_type op) = LogicalExpression.
Proof.
  unfold is_op, ops_of, op_type, is_op, ops_of. cbn [existsb].
  repeat match goal with
    | |- context [String.eqb op ?x] =>
        destruct (String.eqb_spec op x) as [->|?];
        [intros H; first [discriminate H | split; reflexivity]|]
    end.
  cbn [orb]. discriminate.
Qed.

Lemma unary_ops op :
  is_op ADDITIVE_OPERATOR op || is_op LOGICAL_NOT op = true ->
  (op_type op = ADDITIVE_OPERATOR \/ op_type op = LOGICAL_NOT)
  /\ (0 <? String.length op)%nat = true.
Proof.
  unfold is_op, ops_of, op_type, is_op, ops_of. cbn [existsb].
  repeat match goal with
    | |- context [String.eqb op ?x] =>
        destruct (String.eqb_spec op x) as [->|?];
        [intros H; first [discriminate H | split; [auto|reflexivity]]|]
    end.
  cbn [orb]. discriminate.
Qed.

Lemma binop_not_access p ty op :
  lookAhead p = mkToken ty op -> is_binop_type ty = true ->
  not_access p /\ TokenType_beq (Type_ (lookAhead p)) LPAREN = false.
Proof.
  intros Hl H. unfold not_access. rewrite Hl. cbn [Type_].
  destruct ty; try discriminate H; repeat split; reflexivity.
Qed.

(** Both operands between parentheses. *)
Lemma parses_binary node op l r :
  (forall x y, toks (node op x y)
               = (mkToken LPAREN "(" :: toks x
                  ++ mkToken (op_type op) op :: toks y
                  ++ [mkToken RPAREN ")"])%list) ->
  is_call (node op l r) = false ->
  is_binop_type (op_type op) = true ->
  node_of (op_type op) = node ->
  pure l = true -> pure r = true -> parses l -> parses r ->
  parses (node op l r).
Proof.
  intros Htoks Hnc Hty Hnode Hpl Hpr Hl Hr.
  apply parses_of_primary; [assumption|].
  intros p p' Hs. rewrite Htoks in Hs.
  apply stream_cons_inv in Hs as [Hlp Hs].
  apply stream_app_inv in Hs as (p1 & Hsl & Hs).
  apply stream_cons_inv in Hs as [Hop Hs].
  apply stream_app_inv in Hs as (p2 & Hsr & Hs).
  apply stream_one in Hs as [Hrp ->].
  split; [|rewrite Hlp; reflexivity].
  eapply primary_paren; [exact Hlp| |exact Hrp].
  rewrite <- Hnode.
  destruct (binop_not_access _ _ _ Hop Hty) as [Hna1 Hl1].
  assert (Hc : closer (Type_ (lookAhead p2)) = true)
    by (rewrite Hrp; reflexivity).
  destruct (closer_not_access _ Hc) as [Hna2 Hl2].
  eapply binary_expression; eauto using parses_unary.
Qed.


Lemma parses_unary_node op r :
  is_op ADDITIVE_OPERATOR op || is_op LOGICAL_NOT op = true ->
  pure r = true -> parses r -> parses (UnaryExpression op r).
Proof.
  intros Hop Hpr Hr. destruct (unary_ops op Hop) as [Hty Hlen].
  apply parses_of_primary; [reflexivity|].
  intros p p' Hs. cbn [toks] in Hs.
  apply stream_cons_inv in Hs as [Hlp Hs].
  apply stream_cons_inv in Hs as [Ho Hs].
  apply stream_app_inv in Hs as (p2 & Hsr & Hs).
  apply stream_one in Hs as [Hrp ->].
  split; [|rewrite Hlp; reflexivity].
  eapply primary_paren; [exact Hlp| |exact Hrp].
  assert (Hc : closer (Type_ (lookAhead p2)) = true)
    by (rewrite Hrp; reflexivity).
  destruct (closer_not_access _ Hc) as [Hna2 Hl2].
  apply climb; [|exact Hc].
  eapply unary_op; [exact Ho|exact Hty|exact Hlen|].
  apply parses_unary; assumption.
Qed.

(** What [memberExp] brings to its loop is parsed by [callMemberExp]. *)
Lemma parses_of_member e :
  is_call e = false ->
  (forall p p', stream p (toks e) p' ->
     TokenType_beq (Type_ (lookAhead p)) SUPER = false
     /\ forall X q, runs (fun n => memberExp_loop n e) p' X q ->
                    runs memberExp p X q) ->
  parses e.
Proof.
  intros Hnc H p p' Hs. destruct (H p p' Hs) as [Hsup Hm].
  split; [auto|].
  intros X q Hna Hct. destruct (Hna Hnc) as [H1 H2].
  eapply callMemberExp_of_member; [exact Hsup| |exact Hct].
  apply Hm. apply loop_stop; assumption.
Qed.

Lemma parses_member_dot o x :
  is_call o = false -> pure o = true -> parses o ->
  parses (MemberExpression false o (Identifier x)).
Proof.
  intros Hnc Hpo Ho. apply parses_of_member; [reflexivity|].
  intros p p' Hs. cbn [toks negb] in Hs.
  apply stream_app_inv in Hs as (p1 & Hso & Hs).
  apply stream_cons_inv in Hs as [Hd Hs].
  apply stream_one in Hs as [Hx ->].
  destruct (first_ok_types _ (stream_first o p p1 Hpo Hso)) as (Hsup & _).
  split; [exact Hsup|]. intros X q Hl.
  destruct (Ho p p1 Hso) as [Hm _]. apply Hm; [exact Hnc|].
  eapply loop_dot; eauto.
Qed.

Lemma parses_member_bracket o prop :
  is_call o = false -> pure o = true -> pure prop = true ->
  parses o -> parses prop ->
  parses (MemberExpression true o prop).
Proof.
  intros Hnc Hpo Hpp Ho Hprop. apply parses_of_member; [reflexivity|].
  intros p p' Hs. cbn [toks negb] in Hs.
  apply stream_app_inv in Hs as (p1 & Hso & Hs).
  apply stream_cons_inv in Hs as [Hlb Hs].
  apply stream_app_inv in Hs as (p2 & Hsp & Hs).
  apply stream_one in Hs as [Hrb ->].
  destruct (first_ok_types _ (stream_first o p p1 Hpo Hso)) as (Hsup & _).
  split; [exact Hsup|]. intros X q Hl.
  destruct (Ho p p1 Hso) as [Hm _]. apply Hm; [exact Hnc|].
  eapply loop_bracket; [exact Hlb| |exact Hrb|exact Hl].
  apply parses_expression; auto. rewrite Hrb. reflexivity.
Qed.

(** The tokens of the arguments after the first: a comma before each. *)
Definition more_toks (rest : list Expression) : list Token :=
  flat_map (fun a => mkToken COMMA "," :: toks a) rest.

Lemma sep_concat_cons a rest :
  sep_concat [mkToken COMMA ","] (map toks (a :: rest))
  = (toks a ++ more_toks rest)%list.
Proof.
  revert a. induction rest as [|b rest IH]; intros a.
  - cbn. rewrite List.app_nil_r. reflexivity.
  - change (map toks (a :: b :: rest))
      with (toks a :: map toks (b :: rest)).
    cbn [sep_concat]. change (map toks (b :: rest))
      with (toks b :: map toks rest) at 1.
    cbv iota. rewrite IH. reflexivity.
Qed.

Lemma more_first rest p p' :
  stream p (more_toks rest ++ [mkToken RPAREN ")"])%list p' ->
  closer (Type_ (lookAhead p)) = true.
Proof.
  destruct rest as [|b rest]; cbn; intros H;
    apply stream_cons_inv in H as [-> _]; reflexivity.
Qed.

Lemma argloop_run rest : forall acc p p',
  Forall (fun a => pure a = true /\ parses a) rest ->
  stream p (more_toks rest ++ [mkToken RPAREN ")"])%list p' ->
  exists p2,
    lookAhead p2 = mkToken RPAREN ")" /\ p' = advance p2
    /\ runs (fun n => argumentList_loop n acc) p (acc ++ rest)%list p2.
Proof.
  induction rest as [|b rest IH]; intros acc p p' Hall Hs.
  - cbn in Hs. apply stream_one in Hs as [Hrp ->].
    exists p. repeat split; auto. rewrite List.app_nil_r.
    apply argloop_stop. rewrite Hrp. reflexivity.
  - inversion Hall as [|? ? [Hpb Hb] Hall']; subst.
    cbn [more_toks flat_map] in Hs. rewrite <- List.app_assoc in Hs.
    cbn [app] in Hs.
    apply stream_cons_inv in Hs as [Hc Hs].
    apply stream_app_inv in Hs as (pb & Hsb & Hs).
    destruct (IH (acc ++ [b])%list pb p' Hall' Hs) as (p2 & Hrp & -> & Hrun).
    exists p2. repeat split; auto.
    eapply argloop_comma; [exact Hc| |].
    + apply (parses_assignment b (advance p) pb Hpb Hb Hsb).
      eapply more_first; exact Hs.
    + rewrite <- List.app_assoc in Hrun. exact Hrun.
Qed.

Lemma arguments_run args p p' :
  lookAhead p = mkToken LPAREN "(" ->
  Forall (fun a => pure a = true /\ parses a) args ->
  stream (advance p)
         (sep_concat [mkToken COMMA ","] (map toks args)
          ++ [mkToken RPAREN ")"])%list p' ->
  runs arguments p args p'.
Proof.
  intros Hlp Hall Hs. destruct args as [|a rest].
  - cbn in Hs. apply stream_one in Hs as [Hrp ->].
    eapply arguments_none; eauto.
  - rewrite sep_concat_cons, <- List.app_assoc in Hs.
    apply stream_app_inv in Hs as (pa & Hsa & Hs).
    inversion Hall as [|? ? [Hpa Ha] Hall']; subst.
    destruct (argloop_run rest [a] pa p' Hall' Hs) as (p2 & Hrp & -> & Hrun).
    destruct (first_ok_types _ (stream_first a _ _ Hpa Hsa))
      as (_ & _ & _ & Hnr).
    eapply arguments_some; [exact Hlp|exact Hnr| |exact Hrp].
    eapply argumentList_first; [|exact Hrun].
    apply (parses_assignment a (advance p) pa Hpa Ha Hsa).
    eapply more_first; exact Hs.
Qed.

Lemma parses_call c args :
  pure c = true -> parses c ->
  Forall (fun a => pure a = true /\ parses a) args ->
  parses (CallExpression c args).
Proof.
  intros Hpc Hc Hall p p' Hs. cbn [toks] in Hs.
  apply stream_app_inv in Hs as (p1 & Hsc & Hs).
  apply stream_cons_inv in Hs as [Hlp Hs].
  split; [discriminate|].
  intros X q _ Hct. destruct (Hc p p1 Hsc) as [_ Hcc].
  apply Hcc.
  - intros _. unfold not_access. rewrite Hlp. split; reflexivity.
  - eapply call_tail_call; [rewrite Hlp; reflexivity| |exact Hct].
    apply arguments_run; assumption.
Qed.

(** The parser on the tokens of a pure, well-formed expression. *)
Theorem parses_pure e : pure e = true -> wf e = true -> parses e.
Proof.
  induction e as [v|s|b| |op l r IHl IHr|op l r IHl IHr|op l r IHl IHr
                  |op r IHr|c args IHc IHargs|cp o prop IHo IHp| |x|
                  |c args IHc IHargs]
    using Expression_nested_ind;
    cbn [pure wf]; intros Hp Hw; try discriminate Hp; split_bools.
  - (* number *)
    atom. apply primary_number with (s := ast.format_int64 v); [exact Hs|].
    apply format_int64_spec.
    repeat match goal with
      | H : (_ <=? _)%Z = true |- _ => apply Z.leb_le in H
      | H : (_ <? _)%Z = true |- _ => apply Z.ltb_lt in H
      end.
    lia.
  - atom. apply primary_string. exact Hs.
  - destruct b; atom; apply primary_bool; exact Hs.
  - atom. eapply primary_null. exact Hs.
  - (* logical *)
    destruct (logical_ops op) as [Hty Hnode]; [assumption|].
    apply parses_binary; auto.
  - (* binary *)
    destruct (binary_ops op) as [Hty Hnode]; [assumption|].
    apply parses_binary; auto.
  - apply parses_unary_node; auto.
  - (* call *)
    apply parses_call; auto.
    rewrite forallb_forall in *. rewrite Forall_forall in *.
    intros a Hin. split; auto.
  - (* member *)
    destruct cp.
    + apply parses_member_bracket; auto.
      destruct (is_call o); [discriminate|reflexivity].
    + destruct prop; try discriminate.
      apply parses_member_dot; auto.
      destruct (is_call o); [discriminate|reflexivity].
  - atom. apply primary_identifier. exact Hs.
  - atom. eapply primary_this. exact Hs.
Qed.

End ParsePure.

(* ================================================================== *)
(** ** The tokens of a text *)

Section TokensOfText.

(** The parser whose lookahead is the next token of [t]. *)
Definition poised (t : Tokenizer) : Parser :=
  let (tok, sc) := GetNextToken t in mkParser tok sc.

Lemma advance_poised p : advance p = poised (scanner p).
Proof. reflexivity. Qed.

Lemma lookAhead_poised t : lookAhead (poised t) = fst (GetNextToken t).
Proof. unfold poised. destruct (GetNextToken t); reflexivity. Qed.

Lemma scanner_poised t : scanner (poised t) = snd (GetNextToken t).
Proof. unfold poised. destruct (GetNextToken t); reflexivity. Qed.

Lemma seek_0 t : seek t 0 = t.
Proof. destruct t. unfold seek. cbn. rewrite Nat.add_0_r. reflexivity. Qed.

Lemma seek_seek t a b : seek (seek t a) b = seek t (a + b).
Proof. unfold seek. cbn. rewrite Nat.add_assoc. reflexivity. Qed.

(** The text [x], before any text that [ok] accepts, is read as the tokens
    [l]. *)
Definition lexes_to (x : string) (l : list Token) (ok : string -> bool)
  : Prop :=
  forall t s, Unread t (x ++ s) -> ok s = true ->
    stream (poised t) l (poised (seek t (String.length x))).

Definition any (s : string) : bool := true.

Lemma lexes_to_nil ok : lexes_to EmptyString [] ok.
Proof. intros t s _ _. cbn [String.length]. rewrite seek_0. constructor. Qed.

Lemma lexes_to_app x l1 ok1 y l2 ok2 :
  lexes_to x l1 ok1 -> lexes_to y l2 ok2 ->
  (forall s, ok2 s = true -> ok1 (y ++ s) = true) ->
  lexes_to (x ++ y) (l1 ++ l2)%list ok2.
Proof.
  intros Hx Hy Hok t s Hu Hs. rewrite app_assoc in Hu.
  eapply stream_app.
  - eapply Hx; [exact Hu|]. apply Hok. exact Hs.
  - rewrite length_app, <- seek_seek.
    eapply Hy; [|exact Hs]. apply Unread_seek. exact Hu.
Qed.

Lemma lexes_to_weaken x l (ok ok' : string -> bool) :
  lexes_to x l ok -> (forall s, ok' s = true -> ok s = true) ->
  lexes_to x l ok'.
Proof. intros H Hok t s Hu Hs. eapply H; eauto. Qed.

(** One token. *)
Lemma lexes_to_token x ty (ok : string -> bool) :
  TokenType_beq ty IGNORE = false ->
  (forall s, ok s = true -> classify Spec (x ++ s) = Some (ty, x)) ->
  lexes_to x [mkToken ty x] ok.
Proof.
  intros Hty Hc t s Hu Hs. specialize (Hc s Hs).
  pose proof (lex_tok t x s ty Hu Hc Hty) as Hg.
  constructor.
  - rewrite lookAhead_poised, Hg. reflexivity.
  - rewrite advance_poised, scanner_poised, Hg. constructor.
Qed.

(** A token and the blank after it. *)
Lemma lexes_to_skip x l (ok : string -> bool) w (ok' : string -> bool) :
  lexes_to x l ok ->
  (forall s, ok' s = true -> classify Spec (w ++ s) = Some (IGNORE, w)) ->
  (forall s, ok' s = true -> ok (w ++ s) = true) ->
  lexes_to (x ++ w) l ok'.
Proof.
  intros Hx Hw Hok t s Hu Hs. rewrite app_assoc in Hu.
  rewrite length_app, <- seek_seek.
  replace (poised (seek (seek t (String.length x)) (String.length w)))
    with (poised (seek t (String.length x))).
  - eapply Hx; [exact Hu|]. auto.
  - unfold poised.
    rewrite (lex_skip _ w s (Unread_seek _ _ _ Hu) (Hw s Hs)). reflexivity.
Qed.

End TokensOfText.

(* ================================================================== *)
(** ** The token at the head of a text *)

Section HeadToken.

(** The characters a rendered expression begins with. *)
Definition operand_start (s : string) : bool :=
  match s with
  | String c _ =>
      is_word c || (c =? "(")%char || (c =? dquote)%char
      || (c =? squote)%char
  | EmptyString => false
  end.

Definition all_ops : list string :=
  ["+"; "-"; "*"; "/"; "<"; ">"; "<="; ">="; "=="; "!="; "&&"; "||"; "!"].

Lemma classify_punct x ty s :
  In (x, ty) [("(", LPAREN); (")", RPAREN); ("[", LBRACKET);
              ("]", RBRACKET); (",", COMMA); (".", DOT)] ->
  classify Spec (x ++ s) = Some (ty, x).
Proof.
  intros H. repeat (destruct H as [H|H]; [injection H as <- <-|]);
    [..|destruct H]; destruct s; reflexivity.
Qed.

Lemma classify_op op s :
  In op all_ops -> operand_start s = true ->
  classify Spec (op ++ s) = Some (op_type op, op).
Proof.
  intros H Hs. destruct s as [|c s]; [discriminate Hs|].
  repeat (destruct H as [<-|H]); [..|destruct H];
    destruct c as [[] [] [] [] [] [] [] []]; try discriminate Hs;
    reflexivity.
Qed.

Lemma classify_space s :
  operand_start s = true ->
  classify Spec (" " ++ s) = Some (IGNORE, " ").
Proof.
  intros Hs. destruct s as [|c s]; [discriminate Hs|].
  destruct c as [[] [] [] [] [] [] [] []]; try discriminate Hs; reflexivity.
Qed.

End HeadToken.

(* ================================================================== *)
(** ** Words, numerals and strings at the head of a text *)

Section HeadWord.

Lemma classify_In l inp ty v :
  classify l inp = Some (ty, v) -> In ty (map Type__ l).
Proof.
  induction l as [|r l IH]; cbn [classify map]; [discriminate|].
  destruct (String.length (RegEx r inp) =? 0)%nat.
  - intros H. right. auto.
  - intros H. injection H as <- _. left. reflexivity.
Qed.

Lemma classify_app_or l1 l2 inp r :
  classify (l1 ++ l2) inp = Some r ->
  classify l1 inp = Some r \/ classify l2 inp = Some r.
Proof.
  induction l1 as [|a l1 IH]; cbn [classify List.app]; [auto|].
  destruct (String.length (RegEx a inp) =? 0)%nat; auto.
Qed.

Lemma rx_keyword_nonword kw c w :
  is_word c = false -> rx_keyword kw (String c w) = EmptyString.
Proof.
  intros H. unfold rx_keyword, word_boundary.
  cbn [first_char is_word_opt]. rewrite H. cbn [xorb].
  rewrite andb_false_r. reflexivity.
Qed.

Lemma nonword_not_digit c : is_word c = false -> is_digit c = false.
Proof.
  intros H. destruct (is_digit c) eqn:E; [|reflexivity].
  apply digit_is_word in E. congruence.
Qed.

(** A token of a word type begins with a word character. *)
Lemma word_first ty c w v :
  classify Spec (String c w) = Some (ty, v) -> is_word_type ty = true ->
  is_word c = true.
Proof.
  intros H Hty. destruct (is_word c) eqn:Hc; [reflexivity|exfalso].
  rewrite Spec_split in H. apply classify_app_or in H as [H|H].
  - apply classify_In in H. unfold Spec_punct in H.
    cbn [firstn Spec map Type__] in H.
    repeat (destruct H as [<-|H]; [discriminate Hty|]). destruct H.
  - unfold Spec_words in H. cbn [skipn Spec classify RegEx Type__] in H.
    rewrite !rx_keyword_nonword in H by assumption.
    unfold rx_plus in H. cbn [take_while] in H.
    rewrite Hc, (nonword_not_digit c Hc) in H.
    cbn [String.length Nat.eqb] in H.
    repeat match type of H with
      | (if ?b then _ else _) = _ => destruct b
      end; try discriminate H; injection H as <- _; discriminate Hty.
Qed.

Lemma classify_word ty x s :
  lexes_as ty x = true -> is_word_type ty = true -> boundary s = true ->
  classify Spec (x ++ s) = Some (ty, x).
Proof.
  intros H Hty Hs. apply lexes_as_classify in H.
  destruct x as [|c w]; [vm_compute in H; discriminate H|].
  rewrite word_ext; auto. eapply word_first; eauto.
Qed.

Lemma digits_miss c w :
  is_digit c = true ->
  Forall (fun rule => RegEx rule (String c w) = EmptyString)
         (firstn 16 Spec_words).
Proof.
  unfold Spec_words. cbn [skipn firstn Spec].
  destruct c as [[] [] [] [] [] [] [] []]; intros; try discriminate;
  repeat (constructor; [reflexivity|]); constructor.
Qed.

(** A run of digits is a NUMBER. *)
Lemma lexes_as_digits x :
  x <> EmptyString -> all is_digit x = true -> lexes_as NUMBER x = true.
Proof.
  intros Hx Hd. apply lexes_as_classify.
  destruct x as [|c w]; [congruence|].
  pose proof Hd as Hd'. cbn [all] in Hd'.
  apply andb_true_iff in Hd' as [Hc _].
  rewrite Spec_split, classify_app
    by (apply punct_miss, digit_is_word, Hc).
  rewrite <- (firstn_skipn 16 Spec_words), classify_app
    by (apply digits_miss, Hc).
  unfold Spec_words. cbn [skipn Spec classify RegEx Type__].
  unfold rx_plus. rewrite (take_while_all is_digit) by exact Hd.
  reflexivity.
Qed.

Lemma quote_miss q r :
  q = dquote \/ q = squote ->
  Forall (fun rule => RegEx rule (String q r) = EmptyString) (firstn 38 Spec).
Proof.
  cbn [firstn Spec].
  intros [-> | ->]; repeat (constructor; [reflexivity|]); constructor.
Qed.

(** A string literal is a STRING whatever follows it. *)
Lemma classify_string v s :
  string_ok v = true -> classify Spec (v ++ s) = Some (STRING, v).
Proof.
  intros H. apply string_ok_inv in H as (q & body & Hq & Hb & ->).
  rewrite <- (firstn_skipn 38 Spec).
  rewrite classify_app by (apply quote_miss; exact Hq).
  cbn [skipn Spec classify RegEx Type__].
  destruct Hq as [-> | ->].
  - rewrite rx_quoted_quoted by exact Hb. reflexivity.
  - pose proof (rx_quoted_quoted squote body s Hb) as Hq.
    set (inp := quoted squote body ++ s) in *.
    assert (Hm : rx_quoted dquote inp = EmptyString)
      by (apply (rx_quoted_miss dquote); reflexivity).
    rewrite Hm, Hq. reflexivity.
Qed.

End HeadWord.

(* ================================================================== *)
(** ** The tokens of a rendered expression *)

Section RenderedTokens.

Lemma operand_start_app x s :
  operand_start x = true -> operand_start (x ++ s) = true.
Proof. destruct x; [discriminate|]. auto. Qed.

Lemma is_op_In ty op :
  is_op ty op = true ->
  TokenType_beq ty SIMPLE_ASSIGN = false ->
  TokenType_beq ty COMPLEX_ASSIGN = false ->
  In op all_ops.
Proof.
  unfold is_op. intros H Hs Hc. apply existsb_exists in H as (x & Hx & He).
  apply String.eqb_eq in He. subst x.
  destruct ty; try discriminate Hs; try discriminate Hc;
    cbn [ops_of In] in Hx; unfold all_ops; cbn [In]; tauto.
Qed.

Lemma op_boundary op s : In op all_ops -> boundary (op ++ s) = true.
Proof.
  intros H. repeat (destruct H as [<-|H]; [reflexivity|]). destruct H.
Qed.

Lemma op_not_IGNORE op :
  In op all_ops -> TokenType_beq (op_type op) IGNORE = false.
Proof.
  intros H. repeat (destruct H as [<-|H]; [reflexivity|]). destruct H.
Qed.

(** A rendered expression begins with a word character, a parenthesis or a
    quote. *)
Lemma render_start e :
  pure e = true -> wf e = true ->
  operand_start (Expression_ToString e) = true.
Proof.
  induction e
    as [v|s|b| |op l IHl r IHr|op l IHl r IHr|op l IHl r IHr|op r IHr
        |c IHc args|cp o IHo p IHp| |x| |c IHc args];
    cbn [pure wf Expression_ToString]; intros Hp Hw;
    try discriminate Hp; try reflexivity.
  - apply andb_true_iff in Hw as [H0 H1].
    apply Z.leb_le in H0. apply Z.ltb_lt in H1.
    destruct (format_int64_spec v (conj H0 H1)) as (Hne & Hd & _).
    destruct (ast.format_int64 v) as [|c w]; [congruence|].
    cbn [all] in Hd. apply andb_true_iff in Hd as [Hc _].
    cbn [operand_start]. rewrite (digit_is_word c Hc). reflexivity.
  - apply string_ok_inv in Hw as (q & body & [-> | ->] & _ & ->);
      reflexivity.
  - destruct b; reflexivity.
  - split_bools. apply operand_start_app. auto.
  - split_bools. destruct (negb cp); apply operand_start_app; auto.
  - apply lexes_as_classify in Hw.
    destruct x as [|c w]; [vm_compute in Hw; discriminate Hw|].
    cbn [operand_start]. erewrite word_first by eauto. reflexivity.
Qed.

Lemma lexes_to_punct x ty ok :
  In (x, ty) [("(", LPAREN); (")", RPAREN); ("[", LBRACKET);
              ("]", RBRACKET); (",", COMMA); (".", DOT)] ->
  lexes_to x [mkToken ty x] ok.
Proof.
  intros H. apply lexes_to_token.
  - repeat (destruct H as [H|H]; [injection H as <- <-; reflexivity|]).
    destruct H.
  - intros s _. apply classify_punct. exact H.
Qed.

Lemma lexes_to_op op :
  In op all_ops -> lexes_to op [mkToken (op_type op) op] operand_start.
Proof.
  intros H. apply lexes_to_token.
  - apply op_not_IGNORE. exact H.
  - intros s Hs. apply classify_op; assumption.
Qed.

Lemma lexes_to_word ty x :
  lexes_as ty x = true -> is_word_type ty = true ->
  lexes_to x [mkToken ty x] boundary.
Proof.
  intros H Hty. apply lexes_to_token.
  - destruct ty; try discriminate Hty; reflexivity.
  - intros s Hs. apply classify_word; assumption.
Qed.

(** The separator of the arguments: a comma and a blank. *)
Lemma lexes_to_separator :
  lexes_to ", " [mkToken COMMA ","] operand_start.
Proof.
  apply (lexes_to_skip "," [mkToken COMMA ","] any " " operand_start).
  - apply lexes_to_punct. cbn [In]. tauto.
  - intros s Hs. apply classify_space. exact Hs.
  - reflexivity.
Qed.

End RenderedTokens.

Section RenderedTokens2.

(** The arguments of a call, with their separators. *)
Lemma lexes_to_arguments args :
  Forall (fun a => pure a = true -> wf a = true ->
            lexes_to (Expression_ToString a) (toks a) boundary) args ->
  forallb pure args = true -> forallb wf args = true ->
  lexes_to (String.concat ", " (map Expression_ToString args))
           (sep_concat [mkToken COMMA ","] (map toks args)) boundary.
Proof.
  induction 1 as [|a args Ha Hargs IH]; intros Hp Hw.
  - apply lexes_to_nil.
  - cbn [forallb] in Hp, Hw. split_bools.
    destruct args as [|b args].
    + cbn [map String.concat sep_concat]. auto.
    + change (lexes_to
        (Expression_ToString a ++
         (", " ++ String.concat ", " (map Expression_ToString (b :: args))))
        (toks a ++ ([mkToken COMMA ","] ++
           sep_concat [mkToken COMMA ","] (map toks (b :: args))))%list
        boundary).
      apply lexes_to_app with (ok1 := boundary); [auto| |reflexivity].
      apply lexes_to_app with (ok1 := operand_start);
        [apply lexes_to_separator|auto|].
      intros s _. apply operand_start_app.
      match goal with
      | H : forallb pure (b :: args) = true |- _ =>
          cbn [forallb] in H; apply andb_true_iff in H as [Hb _]
      end.
      match goal with
      | H : forallb wf (b :: args) = true |- _ =>
          cbn [forallb] in H; apply andb_true_iff in H as [Hb' _]
      end.
      pose proof (render_start b Hb Hb') as Hs.
      destruct args; cbn [map String.concat];
        [exact Hs|apply operand_start_app; exact Hs].
Qed.

Ltac op_found H := eapply is_op_In; [exact H|reflexivity|reflexivity].

Ltac op_in2 H := apply orb_true_iff in H as [H|H]; op_found H.

Ltac op_in3 H :=
  apply orb_true_iff in H as [H|H]; [op_in2 H|op_found H].

(** The text of a pure expression is read as its tokens. *)
Lemma render_lexes e :
  pure e = true -> wf e = true ->
  lexes_to (Expression_ToString e) (toks e) boundary.
Proof.
  induction e
    as [v|s|b| |op l r IHl IHr|op l r IHl IHr|op l r IHl IHr|op r IHr
        |c args IHc IHargs|cp o p IHo IHp| |x| |c args IHc IHargs]
    using Expression_nested_ind;
    cbn [pure wf Expression_ToString toks]; intros Hp Hw;
    try discriminate Hp.
  - apply andb_true_iff in Hw as [H0 H1].
    apply Z.leb_le in H0. apply Z.ltb_lt in H1.
    destruct (format_int64_spec v (conj H0 H1)) as (Hne & Hd & _).
    apply lexes_to_word; [|reflexivity].
    apply lexes_as_digits; assumption.
  - apply lexes_to_token; [reflexivity|].
    intros t _. apply classify_string. exact Hw.
  - destruct b; apply lexes_to_word; reflexivity.
  - apply lexes_to_word; reflexivity.
  - (* logical *)
    apply andb_true_iff in Hw as [Hw Hr]. apply andb_true_iff in Hw as [Ho Hl].
    apply andb_true_iff in Hp as [Hpl Hpr].
    assert (Hop : In op all_ops) by (op_in3 Ho).
    apply (lexes_to_app "(" [mkToken LPAREN "("] any);
      [apply lexes_to_punct; cbn [In]; tauto| |reflexivity].
    apply lexes_to_app with (ok1 := boundary);
      [auto| |intros; rewrite app_assoc; apply op_boundary; exact Hop].
    apply (lexes_to_app op [mkToken (op_type op) op] operand_start);
      [apply lexes_to_op; exact Hop| |
       intros; apply operand_start_app, operand_start_app, render_start; auto].
    apply lexes_to_app with (ok1 := boundary);
      [auto|apply lexes_to_punct; cbn [In]; tauto|reflexivity].
  - (* binary *)
    apply andb_true_iff in Hw as [Hw Hr]. apply andb_true_iff in Hw as [Ho Hl].
    apply andb_true_iff in Hp as [Hpl Hpr].
    assert (Hop : In op all_ops) by (op_in3 Ho).
    apply (lexes_to_app "(" [mkToken LPAREN "("] any);
      [apply lexes_to_punct; cbn [In]; tauto| |reflexivity].
    apply lexes_to_app with (ok1 := boundary);
      [auto| |intros; rewrite app_assoc; apply op_boundary; exact Hop].
    apply (lexes_to_app op [mkToken (op_type op) op] operand_start);
      [apply lexes_to_op; exact Hop| |
       intros; apply operand_start_app, operand_start_app, render_start; auto].
    apply lexes_to_app with (ok1 := boundary);
      [auto|apply lexes_to_punct; cbn [In]; tauto|reflexivity].
  - (* unary *)
    apply andb_true_iff in Hw as [Ho Hr].
    assert (Hop : In op all_ops) by (op_in2 Ho).
    apply (lexes_to_app "(" [mkToken LPAREN "("] any);
      [apply lexes_to_punct; cbn [In]; tauto| |reflexivity].
    apply (lexes_to_app op [mkToken (op_type op) op] operand_start);
      [apply lexes_to_op; exact Hop| |
       intros; apply operand_start_app, operand_start_app, render_start; auto].
    apply lexes_to_app with (ok1 := boundary);
      [auto|apply lexes_to_punct; cbn [In]; tauto|reflexivity].
  - (* call *)
    apply andb_true_iff in Hw as [Hwc Hwa].
    apply andb_true_iff in Hp as [Hpc Hpa].
    apply lexes_to_app with (ok1 := boundary); [auto| |reflexivity].
    apply (lexes_to_app "(" [mkToken LPAREN "("] any);
      [apply lexes_to_punct; cbn [In]; tauto| |reflexivity].
    apply lexes_to_app with (ok1 := boundary);
      [apply lexes_to_arguments; assumption
      |apply lexes_to_punct; cbn [In]; tauto|reflexivity].
  - (* member *)
    apply andb_true_iff in Hw as [Hw Hwp]. apply andb_true_iff in Hw as [_ Hwo].
    apply andb_true_iff in Hp as [Hp Hpp]. apply andb_true_iff in Hp as [_ Hpo].
    destruct cp; cbn [negb].
    + apply lexes_to_app with (ok1 := boundary); [auto| |reflexivity].
      apply (lexes_to_app "[" [mkToken LBRACKET "["] any);
        [apply lexes_to_punct; cbn [In]; tauto| |reflexivity].
      apply lexes_to_app with (ok1 := boundary);
        [auto|apply lexes_to_punct; cbn [In]; tauto|reflexivity].
    + apply lexes_to_app with (ok1 := boundary); [auto| |reflexivity].
      apply (lexes_to_app "." [mkToken DOT "."] any);
        [apply lexes_to_punct; cbn [In]; tauto|auto|reflexivity].
  - apply lexes_to_word; [exact Hw|reflexivity].
  - apply lexes_to_word; reflexivity.
Qed.

End RenderedTokens2.

(* ================================================================== *)
(** ** Parsing the rendering of an expression *)

Section Reparse.

Lemma first_ok_not_EOF ty :
  first_ok ty = true -> TokenType_beq ty EOF = false.
Proof. destruct ty; intros H; try discriminate H; reflexivity. Qed.

(** A source whose tokens are one expression and the end of the input is a
    program of one statement. *)
Lemma parse_one source e pE :
  pure e = true ->
  stream (poised (tokenizer.New source)) (toks e) pE ->
  Type_ (lookAhead pE) = EOF ->
  runs expression (poised (tokenizer.New source)) e pE ->
  parse source = Ok (one e).
Proof.
  intros Hp Hs He [n0 Hn].
  destruct (toks_first e Hp) as (tok & rest & Ht & Hf).
  rewrite Ht in Hs. apply stream_cons_inv in Hs as [Hla _].
  apply first_ok_not_EOF in Hf. rewrite <- Hla in Hf.
  unfold parse.
  rewrite <- (Parse_fuel_enough
                (S (S (S (n0 + Parse_budget (parser.New source))))))
    by lia.
  unfold Parse_fuel, program. rewrite advance_poised.
  change (scanner (parser.New source)) with (tokenizer.New source).
  set (p0 := poised (tokenizer.New source)) in *.
  rewrite statementList_S.
  unfold bind at 1. unfold bind at 1, peek at 1. rewrite Hf. cbn [negb].
  rewrite statement_S, expressionStatement_S.
  unfold bind at 1. unfold bind at 1. rewrite Hn by lia.
  unfold ret at 1. rewrite statementList_S.
  unfold bind at 1, peek at 1. rewrite He. reflexivity.
Qed.

Lemma parse_wf source e : parse source = Ok (one e) -> wf e = true.
Proof.
  unfold parse.
  destruct (Parse (parser.New source)) as [[prog p']| |] eqn:E;
    intros H; try discriminate H.
  injection H as ->. apply Parse_wf in E. cbn in E.
  rewrite andb_true_r in E. exact E.
Qed.

Lemma Program_ToString_one e :
  Program_ToString (one e) = Expression_ToString e.
Proof. reflexivity. Qed.

(** The rendering of a well-formed pure expression parses to it. *)
Lemma reparse e :
  pure e = true -> wf e = true ->
  parse (Expression_ToString e) = Ok (one e).
Proof.
  intros Hp Hw.
  set (text := Expression_ToString e).
  set (t := tokenizer.New text).
  assert (Hu : Unread t (text ++ EmptyString))
    by (rewrite app_nil_r; apply Unread_New).
  pose proof (render_lexes e Hp Hw t EmptyString Hu eq_refl) as Hs.
  fold text in Hs.
  assert (He : lookAhead (poised (seek t (String.length text)))
               = mkToken EOF EmptyString).
  { rewrite lookAhead_poised, lex_eof; [reflexivity|].
    apply Unread_seek. exact Hu. }
  apply (parse_one text e (poised (seek t (String.length text)))).
  - exact Hp.
  - exact Hs.
  - rewrite He. reflexivity.
  - apply parses_expression.
    + exact Hp.
    + apply parses_pure; assumption.
    + exact Hs.
    + rewrite He. reflexivity.
Qed.

End Reparse.

(* ================================================================== *)
(** ** A keyword that goes on with a word character *)

Section KeywordPrefix.

Lemma lex_head t inp ty v :
  Unread t inp -> classify Spec inp = Some (ty, v) ->
  TokenType_beq ty IGNORE = false ->
  GetNextToken t = (mkToken ty v, seek t (String.length v)).
Proof.
  intros Hu Hc Hty.
  rewrite GetNextToken_eq, (Unread_more _ _ Hu).
  destruct inp as [|c r]; [vm_compute in Hc; discriminate Hc|].
  cbn [String.length Nat.ltb Nat.leb negb]. destruct Hu as [-> _].
  rewrite first_match_classify, Hc, Hty. reflexivity.
Qed.

Lemma take_while_app p x s :
  all p x = true -> take_while p (x ++ s) = x ++ take_while p s.
Proof.
  induction x as [|c x IH]; cbn [all append take_while]; [reflexivity|].
  intros H. apply andb_true_iff in H as [-> H]. rewrite IH by exact H.
  reflexivity.
Qed.

Lemma rx_keyword_longer kw c w :
  is_word_opt (last_char kw) = true -> is_word c = true ->
  rx_keyword kw (kw ++ String c w) = EmptyString.
Proof.
  intros Hk Hc. unfold rx_keyword, word_boundary.
  rewrite drop_app. cbn [first_char is_word_opt].
  rewrite Hk, Hc. cbn [xorb]. rewrite andb_false_r. reflexivity.
Qed.

(** No keyword rule matches a keyword that goes on with a word character,
    and the text is an identifier up to its first non-word character. *)
Lemma keyword_prefix_identifier kw ty c rest :
  In (kw, ty) keywords -> is_word c = true ->
  classify Spec (kw ++ String c rest)
  = Some (IDENTIFIER, kw ++ String c (take_while is_word rest)).
Proof.
  intros Hin Hc.
  assert (Hw : all is_word kw = true /\ kw <> EmptyString
               /\ is_word_opt (last_char kw) = true
               /\ Forall (fun rule =>
                            RegEx rule (kw ++ String c rest) = EmptyString)
                         (firstn 38 Spec)).
  { unfold keywords in Hin.
    repeat (destruct Hin as [Hin|Hin];
      [injection Hin as <- <-;
       split; [reflexivity|]; split; [discriminate|];
       split; [reflexivity|];
       cbn [firstn Spec];
       repeat (constructor;
         [first [reflexivity
                |apply rx_keyword_longer; [reflexivity|exact Hc]]|]);
       constructor|]).
    destruct Hin. }
  destruct Hw as (Hall & Hne & _ & Hmiss).
  rewrite <- (firstn_skipn 38 Spec), classify_app by exact Hmiss.
  cbn [skipn Spec classify RegEx Type__].
  destruct kw as [|k kw]; [congruence|].
  pose proof Hall as Hk. cbn [all] in Hk. apply andb_true_iff in Hk as [Hk _].
  destruct (word_not_other k Hk) as (_ & Hd & Hq).
  cbn [append]. rewrite !rx_quoted_miss by assumption.
  cbn [String.length Nat.eqb].
  change (String k (kw ++ String c rest)) with (String k kw ++ String c rest).
  unfold rx_plus. rewrite take_while_app by exact Hall.
  cbn [take_while]. rewrite Hc. reflexivity.
Qed.

End KeywordPrefix.

(* ================================================================== *)
(** ** A token is a piece of the input *)

Section TokenSlice.

(** [x] is the beginning of [inp]. *)
Definition starts (x inp : string) : Prop := exists rest, inp = x ++ rest.

Lemma starts_nil inp : starts EmptyString inp.
Proof. exists inp. reflexivity. Qed.

Lemma starts_cons c x inp : starts x inp -> starts (String c x) (String c inp).
Proof. intros [rest ->]. exists rest. reflexivity. Qed.

Lemma starts_prefix x inp : prefix x inp = true -> starts x inp.
Proof.
  revert inp. induction x as [|c x IH]; intros inp H.
  - apply starts_nil.
  - destruct inp as [|d inp]; [discriminate H|].
    cbn [prefix] in H. destruct (ascii_dec c d) as [<-|]; [|discriminate H].
    apply starts_cons, IH, H.
Qed.

Lemma starts_take_while p inp : starts (take_while p inp) inp.
Proof.
  induction inp as [|c inp IH]; cbn [take_while]; [apply starts_nil|].
  destruct (p c); [apply starts_cons, IH|apply starts_nil].
Qed.

Lemma starts_until_close inp m : until_close inp = Some m -> starts m inp.
Proof.
  revert m. induction inp as [|c inp IH]; intros m; [discriminate|].
  cbn [until_close].
  destruct (prefix "*/" (String c inp)) eqn:E.
  - intros H. injection H as <-. apply starts_prefix, E.
  - destruct (until_close inp) as [m'|]; [|discriminate].
    intros H. injection H as <-. apply starts_cons, IH. reflexivity.
Qed.

Lemma starts_length x inp :
  starts x inp -> String.length x <= String.length inp.
Proof. intros [rest ->]. rewrite length_app. lia. Qed.

Lemma starts_rx_plus p inp : starts (rx_plus p inp) inp.
Proof. apply starts_take_while. Qed.

Lemma starts_rx_lit l inp : starts (rx_lit l inp) inp.
Proof.
  unfold rx_lit. destruct (prefix l inp) eqn:E;
    [apply starts_prefix, E|apply starts_nil].
Qed.

Lemma starts_rx_class cs inp : starts (rx_class cs inp) inp.
Proof.
  unfold rx_class. destruct inp as [|c r]; [apply starts_nil|].
  destruct (is_one_of cs c); [apply starts_cons|]; apply starts_nil.
Qed.

Lemma starts_rx_class_eq cs inp : starts (rx_class_eq cs inp) inp.
Proof.
  unfold rx_class_eq. destruct inp as [|c r]; [apply starts_nil|].
  destruct (is_one_of cs c); [|apply starts_nil].
  destruct (prefix "=" r) eqn:E; [|apply starts_nil].
  apply starts_cons, starts_prefix, E.
Qed.

Lemma starts_rx_class_opt_eq cs inp : starts (rx_class_opt_eq cs inp) inp.
Proof.
  unfold rx_class_opt_eq. destruct inp as [|c r]; [apply starts_nil|].
  destruct (is_one_of cs c); [|apply starts_nil].
  destruct (prefix "=" r) eqn:E; apply starts_cons;
    [apply starts_prefix, E|apply starts_nil].
Qed.

Lemma starts_rx_line_comment inp : starts (rx_line_comment inp) inp.
Proof.
  unfold rx_line_comment. destruct (prefix "//" inp) eqn:E;
    [|apply starts_nil].
  apply starts_prefix in E as [rest ->].
  cbn [append drop]. do 2 apply starts_cons. apply starts_take_while.
Qed.

Lemma starts_rx_block_comment inp : starts (rx_block_comment inp) inp.
Proof.
  unfold rx_block_comment. destruct (prefix "/*" inp) eqn:E;
    [|apply starts_nil].
  apply starts_prefix in E as [rest ->]. cbn [append drop].
  destruct (until_close rest) as [m|] eqn:Em; [|apply starts_nil].
  do 2 apply starts_cons. apply starts_until_close, Em.
Qed.

Lemma starts_rx_keyword kw inp : starts (rx_keyword kw inp) inp.
Proof.
  unfold rx_keyword. destruct (prefix kw inp) eqn:E;
    cbn [andb]; [|apply starts_nil].
  destruct (_ && _); [apply starts_prefix, E|apply starts_nil].
Qed.

Lemma starts_rx_quoted q inp : starts (rx_quoted q inp) inp.
Proof.
  destruct (String.length (rx_quoted q inp)) eqn:E.
  - destruct (rx_quoted q inp); [apply starts_nil|discriminate E].
  - destruct (rx_quoted_inv q inp) as (body & s & _ & -> & ->).
    + intros H. rewrite H in E. discriminate E.
    + exists s. reflexivity.
Qed.

(** Every rule of the table is anchored: what it matches is the beginning
    of the text it is tried on. *)
Lemma Spec_starts :
  Forall (fun rule => forall inp, starts (RegEx rule inp) inp) Spec.
Proof.
  unfold Spec.
  repeat (constructor;
    [intros inp; cbn [RegEx];
     first [ apply starts_rx_plus | apply starts_rx_lit
           | apply starts_rx_class_opt_eq | apply starts_rx_class_eq
           | apply starts_rx_class | apply starts_rx_line_comment
           | apply starts_rx_block_comment | apply starts_rx_keyword
           | apply starts_rx_quoted ]|]).
  constructor.
Qed.

Lemma first_match_starts t inp ty v t' :
  first_match Spec t inp = Some (ty, v, t') -> starts v inp.
Proof.
  intros H. apply first_match_Some in H as (_ & _ & r & Hin & _ & <-).
  pose proof Spec_starts as HS. rewrite Forall_forall in HS. auto.
Qed.

Lemma drop_length n : forall s,
  String.length (drop n s) = String.length s - n.
Proof.
  induction n as [|n IH]; intros s; cbn [drop]; [lia|].
  destruct s as [|c s]; cbn [String.length]; [reflexivity|]. apply IH.
Qed.

Lemma substring_app x rest :
  substring 0 (String.length x) (x ++ rest) = x.
Proof.
  induction x as [|c x IH]; cbn.
  - destruct rest; reflexivity.
  - rewrite IH. reflexivity.
Qed.

Lemma substring_drop n : forall m s,
  substring n m s = substring 0 m (drop n s).
Proof.
  induction n as [|n IH]; intros m s; [reflexivity|].
  destruct s as [|c s]; cbn [substring drop]; [|apply IH].
  destruct m; reflexivity.
Qed.

(** What [GetNextToken] keeps and what its token is: the input is never
    changed and the cursor never moves back nor past the end; a token other
    than the two sentinels is the non-empty piece of the input that ends at
    the new cursor. *)
Lemma GetNextToken_slice t :
  cursor t <= String.length (input t) ->
  let r := GetNextToken t in
  input (snd r) = input t
  /\ cursor t <= cursor (snd r) <= String.length (input t)
  /\ (is_end (Type_ (fst r)) = false ->
      let k := String.length (Value (fst r)) in
      0 < k <= cursor (snd r) - cursor t
      /\ substring (cursor (snd r) - k) k (input t) = Value (fst r)).
Proof.
  cbv zeta.
  apply (GetNextToken_ind (fun t r =>
    cursor t <= String.length (input t) ->
    input (snd r) = input t
    /\ cursor t <= cursor (snd r) <= String.length (input t)
    /\ (is_end (Type_ (fst r)) = false ->
        0 < String.length (Value (fst r)) <= cursor (snd r) - cursor t
        /\ substring (cursor (snd r) - String.length (Value (fst r)))
                     (String.length (Value (fst r))) (input t)
           = Value (fst r)))); clear t; cbn [fst snd Type_ Value].
  - intros t _ Hc. split_all; auto; discriminate.
  - intros t ty v t' _ Hfm _ Hc.
    pose proof (first_match_starts _ _ _ _ _ Hfm) as Hs.
    apply first_match_Some in Hfm as (Hv & -> & _). cbn [input cursor].
    pose proof (starts_length _ _ Hs) as Hl. rewrite drop_length in Hl.
    split_all; auto; try lia. intros _. split; [lia|].
    replace (cursor t + String.length v - String.length v) with (cursor t)
      by lia.
    rewrite substring_drop. destruct Hs as [rest ->]. apply substring_app.
  - intros t v t' _ Hfm IH Hc.
    pose proof (first_match_starts _ _ _ _ _ Hfm) as Hs.
    apply first_match_Some in Hfm as (Hv & -> & _). cbn [input cursor] in IH.
    pose proof (starts_length _ _ Hs) as Hl. rewrite drop_length in Hl.
    destruct IH as (H1 & H2 & H3); [lia|].
    split_all; auto; try lia. intros He. destruct (H3 He) as [H4 H5].
    split; [lia|exact H5].
  - intros t _ _ Hc. split_all; auto; discriminate.
Qed.

End TokenSlice.

(* ================================================================== *)
(** ** The end of the token stream *)

Section Sentinels.

(** After EOF or ERROR the tokenizer does not move: the next call returns
    the same token and the same tokenizer. *)
Lemma GetNextToken_end_again t :
  is_end (Type_ (fst (GetNextToken t))) = true ->
  GetNextToken (snd (GetNextToken t)) = GetNextToken t.
Proof.
  apply (GetNextToken_ind (fun _ r =>
           is_end (Type_ (fst r)) = true -> GetNextToken (snd r) = r));
    cbn [fst snd Type_].
  - intros t0 Hm _. rewrite GetNextToken_eq, Hm. reflexivity.
  - intros t0 ty v t' _ Hfm _ He.
    apply first_match_Spec_type in Hfm. congruence.
  - auto.
  - intros t0 Hm Hfm _. rewrite GetNextToken_eq, Hm, Hfm. reflexivity.
Qed.

Lemma calls_after_end n : forall t,
  is_end (Type_ (fst (GetNextToken t))) = true ->
  Forall (fun tok => tok = fst (GetNextToken t)) (calls n t).
Proof.
  induction n as [|n IH]; intros t He; [constructor|].
  rewrite calls_S. constructor; [reflexivity|].
  pose proof (GetNextToken_end_again t He) as Hr.
  eapply Forall_impl;
    [|apply (IH (snd (GetNextToken t))); rewrite Hr; exact He].
  cbn beta. intros tok ->. rewrite Hr. reflexivity.
Qed.

Lemma Forall_skipn {A} (P : A -> Prop) (l : list A) a :
  Forall P (skipn a l) -> forall b, a <= b -> Forall P (skipn b l).
Proof.
  intros H b Hab. replace b with ((b - a) + a) by lia.
  rewrite <- skipn_skipn.
  generalize (b - a) as k. intros k. revert H.
  generalize (skipn a l) as m. intros m Hm. revert m Hm.
  induction k as [|k IH]; intros m Hm; [exact Hm|].
  destruct m; [constructor|]. cbn [skipn]. apply IH.
  inversion Hm; assumption.
Qed.


End Sentinels.

(* ================================================================== *)
(** ** The text of each token *)

Section TokenText.

(** The text of the tokens whose type has one spelling. *)
Definition fixed_text (ty : TokenType) : option string :=
  match ty with
  | LPAREN => Some "(" | RPAREN => Some ")"
  | LBRACE => Some "{" | RBRACE => Some "}"
  | LBRACKET => Some "[" | RBRACKET => Some "]"
  | COMMA => Some "," | SEMICOLON => Some ";" | DOT => Some "."
  | LET => Some "let" | IF => Some "if" | ELSE => Some "else"
  | TRUE => Some "true" | FALSE => Some "false" | NULL => Some "null"
  | DEF => Some "def" | RETURN => Some "return"
  | WHILE => Some "while" | DO => Some "do" | FOR => Some "for"
  | CLASS => Some "class" | THIS => Some "this"
  | EXTENDS => Some "extends" | SUPER => Some "super" | NEW => Some "new"
  | LOGICAL_AND => Some "&&" | LOGICAL_OR => Some "||"
  | LOGICAL_NOT => Some "!" | SIMPLE_ASSIGN => Some "="
  | EOF | ERROR => Some EmptyString
  | _ => None
  end.

(** What the text of a token can be, by its type. *)
Definition token_text (tok : Token) : bool :=
  match fixed_text (Type_ tok) with
  | Some s => (Value tok =? s)%string
  | None =>
      match Type_ tok with
      | NUMBER =>
          (0 <? String.length (Value tok))%nat && all is_digit (Value tok)
      | IGNORE => false
      | _ => token_ok tok
      end
  end.

Ltac literal_case inp E :=
  unfold rx_lit in *;
  match type of E with
  | context [prefix ?l inp] =>
      destruct (prefix l inp); [reflexivity|cbn in E; discriminate E]
  end.

Ltac kw_case inp E :=
  unfold rx_keyword in *;
  match type of E with
  | context [if ?b then _ else _] =>
      destruct b; [reflexivity|cbn in E; discriminate E]
  end.

Lemma classify_token_text inp ty v :
  classify Spec inp = Some (ty, v) ->
  TokenType_beq ty IGNORE = false ->
  token_text (mkToken ty v) = true.
Proof.
  intros H Hi. pose proof (classify_token_ok inp ty v H) as Hok.
  unfold Spec in H. cbn [classify RegEx Type__] in H.
  repeat match type of H with
    | (if ?b then _ else _) = _ =>
        let E := fresh "E" in
        destruct b eqn:E;
        [|injection H as <- <-; try discriminate Hi; try exact Hok]
    end; try discriminate H;
  unfold token_text; cbn [fixed_text Type_ Value];
  match goal with
  | E : _ = false |- (_ && all is_digit _) = true =>
      unfold rx_plus in *; rewrite all_take_while, andb_true_r;
      destruct (take_while is_digit inp); [discriminate E|reflexivity]
  | E : _ = false |- _ => first [literal_case inp E | kw_case inp E]
  end.
Qed.


End TokenText.

(* ================================================================== *)
(** ** Panics of the first statement *)

Section Failures.

(** [f] panics with [msg] in [p], whatever the budget from some point on. *)
Definition fails {A} (f : nat -> M A) (p : Parser) (msg : string) : Prop :=
  exists n0, forall n, n0 <= n -> f n p = Panic msg.

Lemma bind_Panic {A B} (m : M A) (k : A -> M B) p msg :
  m p = Panic msg -> bind m k p = Panic msg.
Proof. intros H. unfold bind. rewrite H. reflexivity. Qed.

Lemma bind_Ok_then {A B} (m : M A) (k : A -> M B) p a p' :
  m p = Ok (a, p') -> bind m k p = k a p'.
Proof. intros H. unfold bind. rewrite H. reflexivity. Qed.

Lemma peek_then {B} (k : TokenType -> M B) p :
  bind peek k p = k (Type_ (lookAhead p)) p.
Proof. reflexivity. Qed.

(** A level of left-associative operators panics when its first operand
    does. *)
Lemma level_fails (lower upper : nat -> M Expression) ty node p msg :
  (forall n, upper (S n)
             = (left <- lower n ;; binary_loop n ty node (lower n) left)) ->
  fails lower p msg -> fails upper p msg.
Proof.
  intros Heq [n0 H]. exists (S n0). intros n Hn.
  destruct n as [|n]; [lia|].
  rewrite Heq. apply bind_Panic, H. lia.
Qed.

Lemma memberExp_fails p msg : fails primary p msg -> fails memberExp p msg.
Proof.
  intros [n0 H]. exists (S n0). intros n Hn. destruct n as [|n]; [lia|].
  rewrite memberExp_S. apply bind_Panic, H. lia.
Qed.

Lemma callMemberExp_fails p msg :
  TokenType_beq (Type_ (lookAhead p)) SUPER = false ->
  fails memberExp p msg -> fails callMemberExp p msg.
Proof.
  intros Hs [n0 H]. exists (S n0). intros n Hn. destruct n as [|n]; [lia|].
  rewrite callMemberExp_S, peek_then, Hs. apply bind_Panic, H. lia.
Qed.

Lemma unary_fails p msg :
  TokenType_beq (Type_ (lookAhead p)) ADDITIVE_OPERATOR = false ->
  TokenType_beq (Type_ (lookAhead p)) LOGICAL_NOT = false ->
  fails callMemberExp p msg -> fails unary p msg.
Proof.
  intros H1 H2 [n0 H]. exists (S (S n0)). intros n Hn.
  destruct n as [|[|n]]; try lia.
  rewrite unary_S, peek_then.
  destruct (Type_ (lookAhead p)); try discriminate H1; try discriminate H2;
    (rewrite (bind_Ok_then _ _ p EmptyString p) by reflexivity);
    change (0 <? String.length EmptyString)%nat with false; cbv iota;
    rewrite leftHandSideExp_S; apply H; lia.
Qed.

Lemma assignment_fails p msg :
  fails logicalOrExpression p msg -> fails assignmentExpression p msg.
Proof.
  intros [n0 H]. exists (S n0). intros n Hn. destruct n as [|n]; [lia|].
  rewrite assignmentExpression_S. apply bind_Panic, H. lia.
Qed.

Lemma expression_fails p msg :
  fails assignmentExpression p msg -> fails expression p msg.
Proof.
  intros [n0 H]. exists (S n0). intros n Hn. destruct n as [|n]; [lia|].
  rewrite expression_S. apply H. lia.
Qed.

(** The token types that begin an operand at the [unary] level before
    [primary] is reached. *)
Definition is_prefix_type (ty : TokenType) : bool :=
  match ty with
  | SUPER | ADDITIVE_OPERATOR | LOGICAL_NOT => true
  | _ => false
  end.

(** A panic of [primary] at the first token of an expression is the panic
    of the expression. *)
Lemma primary_fails_up p msg :
  is_prefix_type (Type_ (lookAhead p)) = false ->
  fails primary p msg -> fails expression p msg.
Proof.
  intros Hty H.
  apply expression_fails, assignment_fails.
  apply (level_fails logicalAndExpression logicalOrExpression
           LOGICAL_OR LogicalExpression); [apply logicalOrExpression_S|].
  apply (level_fails equality logicalAndExpression
           LOGICAL_AND LogicalExpression); [apply logicalAndExpression_S|].
  apply (level_fails comparison equality
           EQUALITY_OPERATOR LogicalExpression); [apply equality_S|].
  apply (level_fails term comparison
           RELATIONAL_OPERATOR BinaryExpression); [apply comparison_S|].
  apply (level_fails factor term
           ADDITIVE_OPERATOR BinaryExpression); [apply term_S|].
  apply (level_fails unary factor
           MULTIPLICATIVE_OPERATOR BinaryExpression); [apply factor_S|].
  apply unary_fails;
    [destruct (Type_ (lookAhead p)); try discriminate Hty; reflexivity..|].
  apply callMemberExp_fails;
    [destruct (Type_ (lookAhead p)); try discriminate Hty; reflexivity|].
  apply memberExp_fails, H.
Qed.

(** The parser before the first statement of [source]. *)
Definition start_of (source : string) : Parser :=
  poised (tokenizer.New source).

Lemma advance_New source : advance (parser.New source) = start_of source.
Proof. reflexivity. Qed.

(** A panic of the first statement is the panic of [Parse]. *)
Lemma parse_fails source msg :
  TokenType_beq (Type_ (lookAhead (start_of source))) EOF = false ->
  fails expression (start_of source) msg ->
  parse source = Panic msg.
Proof.
  intros Hne [n0 H]. unfold parse.
  rewrite <- (Parse_fuel_enough
                (S (S (S (n0 + Parse_budget (parser.New source))))))
    by lia.
  unfold Parse_fuel, program. rewrite advance_New.
  rewrite statementList_S.
  rewrite (bind_Panic _ _ _ msg); [reflexivity|].
  rewrite peek_then, Hne. cbn [negb].
  rewrite statement_S, expressionStatement_S.
  apply bind_Panic, bind_Panic, H. lia.
Qed.

(** One expression up to the end of the input is the program. *)
Lemma parse_single source e pE :
  TokenType_beq (Type_ (lookAhead (start_of source))) EOF = false ->
  runs expression (start_of source) e pE ->
  Type_ (lookAhead pE) = EOF ->
  parse source = Ok (one e).
Proof.
  intros Hne [n0 H] He. unfold parse.
  rewrite <- (Parse_fuel_enough
                (S (S (S (n0 + Parse_budget (parser.New source))))))
    by lia.
  unfold Parse_fuel, program. rewrite advance_New.
  rewrite statementList_S.
  unfold bind at 1. rewrite peek_then, Hne. cbn [negb].
  rewrite statement_S, expressionStatement_S.
  unfold bind at 1. unfold bind at 1. rewrite H by lia.
  unfold ret at 1. rewrite statementList_S, peek_then, He. reflexivity.
Qed.

(** An operand that [primary] parses, before a token that continues
    nothing, is the whole expression. *)
Lemma primary_alone p e p' :
  is_prefix_type (Type_ (lookAhead p)) = false ->
  runs primary p e p' ->
  closer (Type_ (lookAhead p')) = true ->
  runs expression p e p'.
Proof.
  intros Hty H Hc.
  apply climb; [|exact Hc].
  apply unary_pass;
    [destruct (Type_ (lookAhead p)); try discriminate Hty; reflexivity..|].
  apply (callMemberExp_of_member p e p');
    [destruct (Type_ (lookAhead p)); try discriminate Hty; reflexivity| |].
  - apply (memberExp_of_primary p e p'); [exact H|].
    apply loop_stop;
      destruct (Type_ (lookAhead p')); try discriminate Hc; reflexivity.
  - apply call_tail_stop.
    destruct (Type_ (lookAhead p')); try discriminate Hc; reflexivity.
Qed.

(** The token types with which [primary] begins. *)
Definition is_primary_type (ty : TokenType) : bool :=
  isLiteral ty
  || match ty with
     | LPAREN | IDENTIFIER | THIS | NEW => true
     | _ => false
     end.

Lemma primary_fails_unexpected p :
  is_primary_type (Type_ (lookAhead p)) = false ->
  fails primary p "Unexpected primary expression.".
Proof.
  intros H. exists 1. intros n Hn. destruct n as [|n]; [lia|].
  rewrite primary_S, peek_then.
  destruct (Type_ (lookAhead p)); try discriminate H; reflexivity.
Qed.

Lemma primary_fails_number p s err :
  lookAhead p = mkToken NUMBER s -> strconv.ParseInt s = inr err ->
  fails primary p (strconv.Error s err).
Proof.
  intros Hl Hv. exists 1. intros n Hn. destruct n as [|n]; [lia|].
  rewrite primary_S, peek_then, Hl. cbn [Type_ isLiteral TokenType_beq orb].
  unfold literal. rewrite peek_then, Hl. cbn [Type_].
  rewrite (bind_Ok_then _ _ _ _ _ (eat_tok NUMBER s p Hl ltac:(discriminate))).
  cbn [Value]. rewrite Hv. reflexivity.
Qed.

End Failures.

(* ================================================================== *)
(** ** The value of a numeral *)

Section NumeralValue.

Open Scope Z_scope.

(** The number that the digits [s] denote in base [base], after digits of
    value [n]. *)
Fixpoint digits_value (base n : Z) (s : string) : Z :=
  match s with
  | EmptyString => n
  | String c r => digits_value base (n * base + strconv.digit_value c) r
  end.

(** [c] is a digit of base [base]. *)
Definition is_digit_of (base : Z) (c : ascii) : bool :=
  is_digit c && (strconv.digit_value c <? base).

Lemma digit_value_range c :
  is_digit c = true -> 0 <= strconv.digit_value c <= 9.
Proof.
  destruct c as [[] [] [] [] [] [] [] []]; intros H;
    try discriminate H; vm_compute; split; discriminate.
Qed.

Lemma all_digit_of base s :
  all (is_digit_of base) s = true -> all is_digit s = true.
Proof.
  induction s as [|d s IHs]; [reflexivity|].
  cbn [all]. intros H. apply andb_true_iff in H as [H1 H2].
  unfold is_digit_of in H1. apply andb_true_iff in H1 as [-> _]. auto.
Qed.

Lemma digits_value_le base s : forall n,
  1 <= base -> 0 <= n -> all is_digit s = true ->
  n <= digits_value base n s.
Proof.
  induction s as [|c s IH]; intros n Hb Hn Hd; cbn [digits_value]; [lia|].
  cbn [all] in Hd. apply andb_true_iff in Hd as [Hc Hd].
  pose proof (digit_value_range c Hc).
  specialize (IH (n * base + strconv.digit_value c) Hb ltac:(nia) Hd). nia.
Qed.

(** One turn of the digit loop on a digit of the base. *)
Lemma parse_digits_step base n c r :
  base = 8 \/ base = 10 ->
  0 <= n <= strconv.maxUint64 ->
  is_digit_of base c = true ->
  strconv.parse_digits base n (String c r)
  = if n * base + strconv.digit_value c <=? strconv.maxUint64
    then strconv.parse_digits base (n * base + strconv.digit_value c) r
    else inr strconv.ErrRange.
Proof.
  intros Hb Hn Hc. cbn [strconv.parse_digits].
  unfold is_digit_of in Hc. apply andb_true_iff in Hc as [Hc Hlt].
  apply Z.ltb_lt in Hlt. pose proof (digit_value_range c Hc) as Hr.
  rewrite Hc. cbn [negb].
  replace (base <=? strconv.digit_value c) with false
    by (symmetry; apply Z.leb_gt; lia).
  set (d := strconv.digit_value c) in *.
  assert (Hmax : strconv.maxUint64 = 18446744073709551615) by reflexivity.
  assert (Hcut : strconv.maxUint64 / base + 1 <= n <->
                 strconv.maxUint64 < n * base).
  { destruct Hb as [-> | ->]; rewrite Hmax;
      [change (18446744073709551615 / 8 + 1) with 2305843009213693952
      |change (18446744073709551615 / 10 + 1) with 1844674407370955162];
      lia. }
  change (2 ^ 64) with 18446744073709551616.
  destruct (strconv.maxUint64 / base + 1 <=? n) eqn:E.
  - apply Z.leb_le, Hcut in E.
    replace (n * base + d <=? strconv.maxUint64) with false
      by (symmetry; apply Z.leb_gt; lia).
    reflexivity.
  - apply Z.leb_gt in E.
    assert (Hnb : n * base <= strconv.maxUint64) by lia.
    rewrite (Z.mod_small (n * base)) by nia.
    destruct (Z_lt_le_dec strconv.maxUint64 (n * base + d)) as [Hov|Hfit].
    + replace ((n * base + d) mod 18446744073709551616)
        with (n * base + d - 18446744073709551616)
        by (apply Z.mod_unique with (q := 1); lia).
      replace (n * base + d - 18446744073709551616 <? n * base) with true
        by (symmetry; apply Z.ltb_lt; lia).
      cbn [orb].
      replace (n * base + d <=? strconv.maxUint64) with false
        by (symmetry; apply Z.leb_gt; lia).
      reflexivity.
    + rewrite (Z.mod_small (n * base + d)) by nia.
      replace (n * base + d <? n * base) with false
        by (symmetry; apply Z.ltb_ge; lia).
      replace (strconv.maxUint64 <? n * base + d) with false
        by (symmetry; apply Z.ltb_ge; lia).
      cbn [orb].
      replace (n * base + d <=? strconv.maxUint64) with true
        by (symmetry; apply Z.leb_le; lia).
      reflexivity.
Qed.

(** The digit loop on digits of the base: the value, unless it does not fit
    a [uint64]. *)
Lemma parse_digits_value base s : forall n,
  base = 8 \/ base = 10 ->
  0 <= n <= strconv.maxUint64 ->
  all (is_digit_of base) s = true ->
  strconv.parse_digits base n s
  = if digits_value base n s <=? strconv.maxUint64
    then inl (digits_value base n s) else inr strconv.ErrRange.
Proof.
  induction s as [|c s IH]; intros n Hb Hn Hd.
  - cbn [digits_value strconv.parse_digits].
    replace (n <=? strconv.maxUint64) with true
      by (symmetry; apply Z.leb_le; lia). reflexivity.
  - cbn [all] in Hd. apply andb_true_iff in Hd as [Hc Hd].
    rewrite parse_digits_step by assumption. cbn [digits_value].
    unfold is_digit_of in Hc. apply andb_true_iff in Hc as [Hc _].
    pose proof (digit_value_range c Hc) as Hr.
    pose proof (digits_value_le base s (n * base + strconv.digit_value c)
                  ltac:(lia) ltac:(nia) (all_digit_of _ _ Hd)) as Hle.
    destruct (n * base + strconv.digit_value c <=? strconv.maxUint64) eqn:E.
    + apply Z.leb_le in E. apply IH; [exact Hb|nia|exact Hd].
    + apply Z.leb_gt in E.
      replace (digits_value base (n * base + strconv.digit_value c) s
               <=? strconv.maxUint64)
        with false by (symmetry; apply Z.leb_gt; lia).
      reflexivity.
Qed.

(** The digit loop stops at the first character that is not a digit of
    the base. *)
Lemma parse_digits_bad base a c r : forall n,
  base = 8 \/ base = 10 ->
  0 <= n <= strconv.maxUint64 ->
  all (is_digit_of base) a = true ->
  is_digit_of base c = false ->
  strconv.parse_digits base n (a ++ String c r)
  = if digits_value base n a <=? strconv.maxUint64
    then inr strconv.ErrSyntax else inr strconv.ErrRange.
Proof.
  induction a as [|x a IH]; intros n Hb Hn Ha Hc.
  - cbn [append digits_value strconv.parse_digits].
    replace (n <=? strconv.maxUint64) with true
      by (symmetry; apply Z.leb_le; lia).
    unfold is_digit_of in Hc.
    destruct (is_digit c); cbn [negb andb] in *; [|reflexivity].
    apply Z.ltb_ge in Hc.
    replace (base <=? strconv.digit_value c) with true
      by (symmetry; apply Z.leb_le; lia).
    reflexivity.
  - cbn [all] in Ha. apply andb_true_iff in Ha as [Hx Ha].
    cbn [append]. rewrite parse_digits_step by assumption.
    cbn [digits_value].
    unfold is_digit_of in Hx. apply andb_true_iff in Hx as [Hx _].
    pose proof (digit_value_range x Hx) as Hr.
    pose proof (digits_value_le base a (n * base + strconv.digit_value x)
                  ltac:(lia) ltac:(nia) (all_digit_of _ _ Ha)) as Hle.
    destruct (n * base + strconv.digit_value x <=? strconv.maxUint64) eqn:E.
    + apply Z.leb_le in E. apply IH; [exact Hb|nia|exact Ha|exact Hc].
    + apply Z.leb_gt in E.
      replace (digits_value base (n * base + strconv.digit_value x) a
               <=? strconv.maxUint64)
        with false by (symmetry; apply Z.leb_gt; lia).
      reflexivity.
Qed.

End NumeralValue.

(* ================================================================== *)
(** ** A source that is one numeral *)

Section NumeralSource.

Lemma start_of_digits s :
  s <> EmptyString -> all is_digit s = true ->
  lookAhead (start_of s) = mkToken NUMBER s
  /\ lookAhead (advance (start_of s)) = mkToken EOF EmptyString.
Proof.
  intros Hne Hd.
  pose proof (lexes_as_digits s Hne Hd) as Hc.
  apply lexes_as_classify in Hc.
  pose proof (lex_head _ _ _ _ (Unread_New s) Hc eq_refl) as Hg.
  unfold start_of. split.
  - rewrite lookAhead_poised, Hg. reflexivity.
  - rewrite advance_poised, scanner_poised, Hg. cbn [snd].
    rewrite lookAhead_poised, lex_eof; [reflexivity|].
    apply Unread_seek. rewrite app_nil_r. apply Unread_New.
Qed.

(** A source that is a run of digits is the numeral that [ParseInt] reads
    from it, or the panic of its error. *)
Lemma parse_digits_source s :
  s <> EmptyString -> all is_digit s = true ->
  parse s = match strconv.ParseInt s with
            | inl v => Ok (one (NumericLiteral v))
            | inr err => Panic (strconv.Error s err)
            end.
Proof.
  intros Hne Hd. destruct (start_of_digits s Hne Hd) as [Hl He].
  destruct (strconv.ParseInt s) as [v|err] eqn:E.
  - apply (parse_single s _ (advance (start_of s))).
    + rewrite Hl. reflexivity.
    + apply primary_alone.
      * rewrite Hl. reflexivity.
      * apply primary_number with (s := s); assumption.
      * rewrite He. reflexivity.
    + rewrite He. reflexivity.
  - apply parse_fails.
    + rewrite Hl. reflexivity.
    + apply primary_fails_up; [rewrite Hl; reflexivity|].
      apply primary_fails_number; assumption.
Qed.

Lemma ParseInt_decimal c r :
  is_digit c = true -> (c =? "0")%char = false -> all is_digit r = true ->
  strconv.ParseInt (String c r)
  = if (digits_value 10 0 (String c r) <? 2 ^ 63)%Z
    then inl (digits_value 10 0 (String c r)) else inr strconv.ErrRange.
Proof.
  intros Hc H0 Hr. unfold strconv.ParseInt.
  rewrite ParseUint_base10 by exact H0.
  assert (Hall : all (is_digit_of 10) (String c r) = true).
  { clear H0. assert (H : all is_digit (String c r) = true)
      by (cbn [all]; rewrite Hc, Hr; reflexivity).
    clear Hc Hr. induction (String c r) as [|d s IH]; [reflexivity|].
    cbn [all] in *. apply andb_true_iff in H as [H1 H2].
    rewrite IH by exact H2. unfold is_digit_of. rewrite H1.
    pose proof (digit_value_range d H1).
    replace (strconv.digit_value d <? 10)%Z with true
      by (symmetry; apply Z.ltb_lt; lia). reflexivity. }
  rewrite (parse_digits_value 10 _ 0%Z) by (auto; vm_compute; split; discriminate).
  set (v := digits_value 10 0 (String c r)).
  change strconv.maxUint64 with 18446744073709551615%Z.
  change (2 ^ 63)%Z with 9223372036854775808%Z.
  destruct (v <=? 18446744073709551615)%Z eqn:E1;
    destruct (v <? 9223372036854775808)%Z eqn:E2;
    destruct (9223372036854775808 <=? v)%Z eqn:E3; try reflexivity; lia.
Qed.

Lemma ParseInt_octal r :
  all (is_digit_of 8) r = true ->
  strconv.ParseInt (String "0" r)
  = if (digits_value 8 0 r <? 2 ^ 63)%Z
    then inl (digits_value 8 0 r) else inr strconv.ErrRange.
Proof.
  intros Hr. unfold strconv.ParseInt. cbn [strconv.ParseUint].
  rewrite (parse_digits_value 8 _ 0%Z) by (auto; vm_compute; split; discriminate).
  set (v := digits_value 8 0 r).
  change strconv.maxUint64 with 18446744073709551615%Z.
  change (2 ^ 63)%Z with 9223372036854775808%Z.
  destruct (v <=? 18446744073709551615)%Z eqn:E1;
    destruct (v <? 9223372036854775808)%Z eqn:E2;
    destruct (9223372036854775808 <=? v)%Z eqn:E3; try reflexivity; lia.
Qed.

Lemma ParseInt_octal_bad a c r :
  all (is_digit_of 8) a = true -> is_digit_of 8 c = false ->
  strconv.ParseInt (String "0" (a ++ String c r))
  = if (digits_value 8 0 a <=? strconv.maxUint64)%Z
    then inr strconv.ErrSyntax else inr strconv.ErrRange.
Proof.
  intros Ha Hc. unfold strconv.ParseInt. cbn [strconv.ParseUint].
  rewrite (parse_digits_bad 8 a c r 0%Z)
    by (auto; vm_compute; split; discriminate).
  destruct (_ <=? _)%Z; reflexivity.
Qed.

End NumeralSource.

(* ================================================================== *)
(** ** The messages of the panics *)

Section PanicMessages.

(** The messages with which the parser panics: that of [primary], the two
    of [eat], and the error of [strconv.ParseInt]. *)
Definition known_panic (msg : string) : Prop :=
  msg = "Unexpected primary expression."
  \/ (exists tt,
        msg = "Unexpected end of input, expected: " ++ TokenNames tt)
  \/ (exists ty tt,
        msg = "Unexpected token: " ++ TokenNames ty
              ++ ", expected: " ++ TokenNames tt)
  \/ (exists s err, msg = strconv.Error s err).

(** Whatever [m] panics with is a known message. *)
Definition safe {A} (m : M A) : Prop :=
  forall p msg, m p = Panic msg -> known_panic msg.

Lemma safe_bind {A B} (m : M A) (k : A -> M B) :
  safe m -> (forall a, safe (k a)) -> safe (bind m k).
Proof.
  intros Hm Hk p msg. unfold bind.
  destruct (m p) as [[a p']|msg'|] eqn:E.
  - apply Hk.
  - intros H. injection H as <-. eapply Hm, E.
  - discriminate.
Qed.

Lemma safe_ret {A} (a : A) : safe (ret a).
Proof. intros p msg H. discriminate H. Qed.

Lemma safe_peek : safe peek.
Proof. intros p msg H. discriminate H. Qed.

Lemma safe_out_of_fuel {A} : safe (@out_of_fuel A).
Proof. intros p msg H. discriminate H. Qed.

Lemma safe_eat tt : safe (eat tt).
Proof.
  intros p msg. unfold eat.
  destruct (TokenType_beq (Type_ (lookAhead p)) EOF).
  - intros H. right. left. exists tt. congruence.
  - destruct (negb _).
    + intros H. right. right. left. exists (Type_ (lookAhead p)), tt.
      congruence.
    + destruct (GetNextToken (scanner p)). discriminate.
Qed.

Lemma safe_unexpected {A} :
  safe (@panic A "Unexpected primary expression.").
Proof. intros p msg H. left. unfold panic in H. congruence. Qed.

Lemma safe_number_error {A} s err : safe (@panic A (strconv.Error s err)).
Proof.
  intros p msg H. do 3 right. exists s, err. unfold panic in H. congruence.
Qed.

Ltac safe_tac :=
  repeat first
    [ assumption
    | apply safe_ret | apply safe_peek | apply safe_out_of_fuel
    | apply safe_eat | apply safe_unexpected | apply safe_number_error
    | apply safe_bind; [|intros ?]
    | match goal with
      | |- safe (if ?b then _ else _) => destruct b
      | |- safe (match ?x with _ => _ end) => destruct x
      | H : forall x, safe (?f x) |- safe (?f _) => apply H
      | H : forall x y, safe (?f x y) |- safe (?f _ _) => apply H
      end ].

Lemma safe_identifier : safe identifier.
Proof. unfold identifier. safe_tac. Qed.

Lemma safe_super : safe super.
Proof. unfold super. safe_tac. Qed.

Lemma safe_assignmentOperator : safe assignmentOperator.
Proof. unfold assignmentOperator. safe_tac. Qed.

Lemma safe_binary_loop n ty node (operand : M Expression) :
  safe operand -> forall left, safe (binary_loop n ty node operand left).
Proof.
  intros Hop. induction n as [|n IH]; intros left.
  - apply safe_out_of_fuel.
  - rewrite binary_loop_S. safe_tac.
Qed.

(** [primary] by the type of the lookahead: [literal] is entered with the
    type that [isLiteral] has accepted. *)
Lemma primary_by_type n p :
  primary (S n) p
  = match Type_ (lookAhead p) with
    | NUMBER =>
        (tok <- eat NUMBER ;;
         match strconv.ParseInt (Value tok) with
         | inl value => ret (NumericLiteral value)
         | inr err => panic (strconv.Error (Value tok) err)
         end) p
    | STRING => (tok <- eat STRING ;; ret (StringLiteral (Value tok))) p
    | TRUE => (_ <- eat TRUE ;; ret (BooleanLiteral true)) p
    | FALSE => (_ <- eat FALSE ;; ret (BooleanLiteral false)) p
    | NULL => (_ <- eat NULL ;; ret NullLiteral) p
    | LPAREN =>
        (_ <- eat LPAREN ;;
         exp <- expression n ;;
         _ <- eat RPAREN ;;
         ret exp) p
    | IDENTIFIER => identifier p
    | THIS => (_ <- eat THIS ;; ret ThisExpression) p
    | NEW =>
        (_ <- eat NEW ;;
         callee <- memberExp n ;;
         args <- arguments n ;;
         ret (NewExpression callee args)) p
    | _ => Panic "Unexpected primary expression."
    end.
Proof.
  rewrite primary_S, peek_then. unfold literal.
  destruct (Type_ (lookAhead p)) eqn:E;
    cbn [isLiteral TokenType_beq orb]; try reflexivity;
    rewrite peek_then, E; reflexivity.
Qed.

Definition safe_at (n : nat) : Prop :=
  (forall stop ss, safe (statementList n stop ss))
  /\ safe (statement n)
  /\ safe (expressionStatement n)
  /\ safe (expression n)
  /\ safe (assignmentExpression n)
  /\ safe (logicalOrExpression n)
  /\ safe (logicalAndExpression n)
  /\ safe (equality n)
  /\ safe (comparison n)
  /\ safe (term n)
  /\ safe (factor n)
  /\ safe (unary n)
  /\ safe (leftHandSideExp n)
  /\ safe (callMemberExp n)
  /\ safe (memberExp n)
  /\ (forall o, safe (memberExp_loop n o))
  /\ (forall c, safe (callExpression n c))
  /\ safe (arguments n)
  /\ safe (argumentList n)
  /\ (forall a, safe (argumentList_loop n a))
  /\ safe (primary n).

Lemma safe_at_all n : safe_at n.
Proof.
  pose proof safe_identifier as Hid.
  pose proof safe_super as Hsu.
  pose proof safe_assignmentOperator as Hao.
  induction n as [|n IH].
  - unfold safe_at; split_all; intros; apply safe_out_of_fuel.
  - destruct IH as (H1 & H2 & H3 & H4 & H5 & H6 & H7 & H8 & H9 & H10 & H11
                    & H12 & H13 & H14 & H15 & H16 & H17 & H18 & H19 & H20
                    & H21).
    unfold safe_at; split_all; intros.
    + rewrite statementList_S. safe_tac.
    + rewrite statement_S. safe_tac.
    + rewrite expressionStatement_S. safe_tac.
    + rewrite expression_S. safe_tac.
    + rewrite assignmentExpression_S. safe_tac.
    + rewrite logicalOrExpression_S. safe_tac.
      apply safe_binary_loop; assumption.
    + rewrite logicalAndExpression_S. safe_tac.
      apply safe_binary_loop; assumption.
    + rewrite equality_S. safe_tac. apply safe_binary_loop; assumption.
    + rewrite comparison_S. safe_tac. apply safe_binary_loop; assumption.
    + rewrite term_S. safe_tac. apply safe_binary_loop; assumption.
    + rewrite factor_S. safe_tac. apply safe_binary_loop; assumption.
    + rewrite unary_S. safe_tac.
    + rewrite leftHandSideExp_S. safe_tac.
    + rewrite callMemberExp_S. safe_tac.
    + rewrite memberExp_S. safe_tac.
    + rewrite memberExp_loop_S. safe_tac.
    + rewrite callExpression_S. safe_tac.
    + rewrite arguments_S. safe_tac.
    + rewrite argumentList_S. safe_tac.
    + rewrite argumentList_loop_S. safe_tac.
    + intros p msg H. rewrite primary_by_type in H.
      destruct (Type_ (lookAhead p));
        try (left; congruence);
        revert H; apply (fun S => S p msg); safe_tac.
Qed.

Lemma safe_Parse : safe Parse.
Proof.
  intros p msg. unfold Parse, Parse_fuel, program. intros H.
  destruct (safe_at_all (Parse_budget p)) as (H1 & _).
  exact (safe_bind _ _ (H1 EOF []) (fun a => safe_ret _) (advance p) msg H).
Qed.

End PanicMessages.

(* ================================================================== *)
(** ** Chains of binary operators *)

Section OperatorChains.

(** The function of each binary level and that of its operands. *)
Definition level_of (ty : TokenType) : nat -> M Expression :=
  match ty with
  | LOGICAL_OR => logicalOrExpression
  | LOGICAL_AND => logicalAndExpression
  | EQUALITY_OPERATOR => equality
  | RELATIONAL_OPERATOR => comparison
  | ADDITIVE_OPERATOR => term
  | _ => factor
  end.

Definition operand_of (ty : TokenType) : nat -> M Expression :=
  match ty with
  | LOGICAL_OR => logicalAndExpression
  | LOGICAL_AND => equality
  | EQUALITY_OPERATOR => comparison
  | RELATIONAL_OPERATOR => term
  | ADDITIVE_OPERATOR => factor
  | _ => unary
  end.

(** The levels from the loosest to the tightest. *)
Definition rank (ty : TokenType) : nat :=
  match ty with
  | LOGICAL_OR => 1
  | LOGICAL_AND => 2
  | EQUALITY_OPERATOR => 3
  | RELATIONAL_OPERATOR => 4
  | ADDITIVE_OPERATOR => 5
  | MULTIPLICATIVE_OPERATOR => 6
  | _ => 0
  end.

Lemma level_of_S ty n :
  is_binop_type ty = true ->
  level_of ty (S n)
  = (left <- operand_of ty n ;;
     binary_loop n ty (node_of ty) (operand_of ty n) left).
Proof. destruct ty; intros H; try discriminate H; reflexivity. Qed.

(** What follows an operand of the level of [ty]: an operator of that level
    or of a looser one, or a token that continues nothing. *)
Definition follows (ty : TokenType) (p : Parser) : Prop :=
  (is_binop_type (Type_ (lookAhead p)) = true
   /\ rank (Type_ (lookAhead p)) <= rank ty)
  \/ closer (Type_ (lookAhead p)) = true.

Lemma follows_operator ty1 ty2 p op :
  is_binop_type ty1 = true -> rank ty1 <= rank ty2 ->
  lookAhead p = mkToken ty1 op -> follows ty2 p.
Proof. intros Hb Hr Hl. left. rewrite Hl. split; assumption. Qed.

Lemma follows_closer ty p :
  closer (Type_ (lookAhead p)) = true -> follows ty p.
Proof. intros H. right. exact H. Qed.

Ltac side H :=
  match goal with
  | |- TokenType_beq (Type_ (lookAhead ?p)) _ = false =>
      destruct H as [[? H]|H];
      destruct (Type_ (lookAhead p)); try discriminate;
      cbn [rank] in H; try lia; reflexivity
  end.

Ltac passes Hrun :=
  repeat first
    [ exact Hrun
    | apply logicalOr_pass | apply logicalAnd_pass | apply equality_pass
    | apply comparison_pass | apply term_pass | apply factor_pass ].

(** A result of a level is a result of the operand function of every
    looser level, before an operator of that level. *)
Lemma level_to_operand ty1 ty2 p X p' :
  is_binop_type ty1 = true -> is_binop_type ty2 = true ->
  rank ty1 < rank ty2 ->
  runs (level_of ty2) p X p' -> follows ty1 p' ->
  runs (operand_of ty1) p X p'.
Proof.
  intros H1 H2 Hr Hrun Hf.
  destruct ty1; try discriminate H1; destruct ty2; try discriminate H2;
    cbn [rank] in Hr; try lia; cbn [level_of operand_of] in *;
    passes Hrun; side Hf.
Qed.

Lemma unary_to_operand ty p X p' :
  is_binop_type ty = true ->
  runs unary p X p' -> follows ty p' ->
  runs (operand_of ty) p X p'.
Proof.
  intros H1 Hrun Hf.
  destruct ty; try discriminate H1; cbn [operand_of];
    passes Hrun; side Hf.
Qed.

Lemma level_to_expression ty p X p' :
  is_binop_type ty = true ->
  runs (level_of ty) p X p' -> closer (Type_ (lookAhead p')) = true ->
  runs expression p X p'.
Proof.
  intros H1 Hrun Hc.
  apply expression_of_assignment, assignment_pass;
    [|destruct (Type_ (lookAhead p')); try discriminate Hc; reflexivity].
  assert (Hf : follows EOF p') by (right; exact Hc).
  destruct ty; try discriminate H1; cbn [level_of] in *;
    passes Hrun; side Hf.
Qed.

(** Operators of type [ty], each before an operand. *)
Inductive chain (ty : TokenType)
  : Parser -> list (string * Expression) -> Parser -> Prop :=
  | chain_nil p : chain ty p [] p
  | chain_cons p op e p2 rest pE :
      lookAhead p = mkToken ty op ->
      runs (operand_of ty) (advance p) e p2 ->
      chain ty p2 rest pE ->
      chain ty p ((op, e) :: rest) pE.

(** The tree of a chain: every operator takes what is before it as its left
    operand. *)
Definition fold_chain (ty : TokenType) (left : Expression)
    (rest : list (string * Expression)) : Expression :=
  fold_left (fun acc oe => node_of ty (fst oe) acc (snd oe)) rest left.

Lemma loop_chain ty p rest pE :
  ty <> EOF ->
  chain ty p rest pE ->
  TokenType_beq (Type_ (lookAhead pE)) ty = false ->
  forall left, exists n0, forall m n, n0 <= m -> n0 <= n ->
    binary_loop n ty (node_of ty) (operand_of ty m) left p
    = Ok (fold_chain ty left rest, pE).
Proof.
  intros Hne Hc Hty. induction Hc as [p|p op e p2 rest pE Hop [n1 He] _ IH];
    intros left.
  - exists 1. intros m n _ Hn. destruct n as [|n]; [lia|].
    rewrite binary_loop_S, peek_then, Hty. reflexivity.
  - destruct (IH Hty (node_of ty op left e)) as [n2 H2].
    exists (S (n1 + n2)). intros m n Hm Hn. destruct n as [|n]; [lia|].
    rewrite binary_loop_S, peek_then, Hop. cbn [Type_].
    rewrite (internal_TokenType_dec_lb _ _ eq_refl).
    rewrite (bind_Ok_then _ _ _ _ _ (eat_tok ty op p Hop Hne)).
    rewrite (bind_Ok_then _ _ _ _ _ (He m ltac:(lia))).
    cbn [Value]. apply H2; lia.
Qed.

(** A level on an operand and a chain of its operators. *)
Lemma level_chain ty p l p1 rest pE :
  is_binop_type ty = true ->
  runs (operand_of ty) p l p1 ->
  chain ty p1 rest pE ->
  TokenType_beq (Type_ (lookAhead pE)) ty = false ->
  runs (level_of ty) p (fold_chain ty l rest) pE.
Proof.
  intros Hb [n1 Hl] Hc Hty.
  assert (Hne : ty <> EOF) by (intros ->; discriminate Hb).
  destruct (loop_chain ty p1 rest pE Hne Hc Hty l) as [n2 H2].
  exists (S (n1 + n2)). intros n Hn. destruct n as [|n]; [lia|].
  rewrite level_of_S by exact Hb.
  rewrite (bind_Ok_then _ _ _ _ _ (Hl n ltac:(lia))).
  apply H2; lia.
Qed.

End OperatorChains.

(* ================================================================== *)
(** ** Operands written one after the other *)

Section FlatText.

(** Operators, each before the rendering of an operand. *)
Fixpoint chain_text (rest : list (string * Expression)) : string :=
  match rest with
  | [] => EmptyString
  | (op, e) :: r => op ++ Expression_ToString e ++ chain_text r
  end.

Fixpoint chain_toks (rest : list (string * Expression)) : list Token :=
  match rest with
  | [] => []
  | (op, e) :: r => (mkToken (op_type op) op :: toks e ++ chain_toks r)%list
  end.

(** A rendered operand: a pure, well-formed tree. *)
Definition operand (e : Expression) : Prop := pure e = true /\ wf e = true.

Lemma chain_text_boundary rest s :
  Forall (fun oe => In (fst oe) all_ops) rest ->
  boundary s = true -> boundary (chain_text rest ++ s) = true.
Proof.
  intros H Hs. destruct H as [|[op e] r Hop _]; [exact Hs|].
  cbn [chain_text fst] in *. rewrite app_assoc.
  apply op_boundary. exact Hop.
Qed.

Lemma lexes_to_chain rest :
  Forall (fun oe => In (fst oe) all_ops /\ operand (snd oe)) rest ->
  lexes_to (chain_text rest) (chain_toks rest) boundary.
Proof.
  induction 1 as [|[op e] r [Hop [Hp Hw]] Hr IH];
    cbn [chain_text chain_toks fst snd] in *.
  - apply lexes_to_nil.
  - apply (lexes_to_app op [mkToken (op_type op) op] operand_start);
      [apply lexes_to_op; exact Hop| |].
    + apply lexes_to_app with (ok1 := boundary);
        [apply render_lexes; assumption|exact IH|].
      intros s Hs. apply chain_text_boundary; [|exact Hs].
      eapply Forall_impl; [|exact Hr]. cbn beta. tauto.
    + intros s _. rewrite app_assoc.
      apply operand_start_app, render_start; assumption.
Qed.

(** The tokens of an operand and a chain, up to the end of the input. *)
Lemma stream_flat e0 rest :
  operand e0 ->
  Forall (fun oe => In (fst oe) all_ops /\ operand (snd oe)) rest ->
  exists pE,
    stream (start_of (Expression_ToString e0 ++ chain_text rest))
           (toks e0 ++ chain_toks rest) pE
    /\ lookAhead pE = mkToken EOF EmptyString.
Proof.
  intros [Hp Hw] Hr.
  set (text := Expression_ToString e0 ++ chain_text rest).
  set (t := tokenizer.New text).
  assert (Hu : Unread t (text ++ EmptyString))
    by (rewrite app_nil_r; apply Unread_New).
  exists (poised (seek t (String.length text))). split.
  - assert (Hl : lexes_to text (toks e0 ++ chain_toks rest) boundary).
    { apply lexes_to_app with (ok1 := boundary);
        [apply render_lexes; assumption|apply lexes_to_chain; exact Hr|].
      intros s Hs. apply chain_text_boundary; [|exact Hs].
      eapply Forall_impl; [|exact Hr]. cbn beta. tauto. }
    exact (Hl t EmptyString Hu eq_refl).
  - rewrite lookAhead_poised, lex_eof; [reflexivity|].
    apply Unread_seek. exact Hu.
Qed.

Lemma is_op_binop ty op :
  is_op ty op = true -> is_binop_type ty = true ->
  op_type op = ty /\ In op all_ops.
Proof.
  unfold is_op. intros H Hb. apply existsb_exists in H as (x & Hx & He).
  apply String.eqb_eq in He. subst x.
  destruct ty; try discriminate Hb; cbn [ops_of In] in Hx;
    repeat (destruct Hx as [<-|Hx]; [split; [reflexivity|cbn; tauto]|]);
    destruct Hx.
Qed.

Lemma binop_follows ty p op :
  is_binop_type ty = true -> lookAhead p = mkToken ty op ->
  not_access p /\ TokenType_beq (Type_ (lookAhead p)) LPAREN = false.
Proof. intros Hb Hl. eapply binop_not_access; eauto. Qed.

(** An operand before an operator of a binary level, or before the end. *)
Lemma operand_unary e p p' :
  operand e -> stream p (toks e) p' ->
  (exists ty op, is_binop_type ty = true /\ lookAhead p' = mkToken ty op)
  \/ closer (Type_ (lookAhead p')) = true ->
  runs unary p e p'.
Proof.
  intros [Hp Hw] Hs Hnext.
  assert (Hn : not_access p'
               /\ TokenType_beq (Type_ (lookAhead p')) LPAREN = false).
  { destruct Hnext as [(ty & op & Hb & Hl)|Hc];
      [eapply binop_follows; eauto|apply closer_not_access; exact Hc]. }
  destruct Hn. apply parses_unary; auto. apply parses_pure; assumption.
Qed.

(** The chain of the operands that follow the first. *)
Lemma chain_of_stream ty rest : forall p pE,
  is_binop_type ty = true ->
  Forall (fun oe => is_op ty (fst oe) = true /\ operand (snd oe)) rest ->
  stream p (chain_toks rest) pE ->
  lookAhead pE = mkToken EOF EmptyString ->
  chain ty p rest pE
  /\ (rest <> [] -> exists op, lookAhead p = mkToken ty op).
Proof.
  intros p pE Hb Hr. revert p.
  induction Hr as [|[op e] r [Hop Hoe] Hr IH]; intros p Hs He;
    cbn [chain_toks fst snd] in *.
  - apply stream_nil_inv in Hs. subst pE.
    split; [constructor|congruence].
  - apply stream_cons_inv in Hs as [Hl Hs].
    apply stream_app_inv in Hs as (p2 & Hse & Hs).
    destruct (is_op_binop ty op Hop Hb) as [Hty _]. rewrite Hty in Hl.
    destruct (IH p2 Hs He) as [Hc Hnext].
    split; [|eauto].
    apply chain_cons with (p2 := p2); [exact Hl| |exact Hc].
    assert (Hf : follows ty p2).
    { destruct r as [|oe r].
      - apply stream_nil_inv in Hs. subst p2. right. rewrite He. reflexivity.
      - destruct Hnext as [op' Hl']; [discriminate|].
        apply (follows_operator ty ty p2 op'); auto. }
    apply unary_to_operand; [exact Hb| |exact Hf].
    apply operand_unary; [exact Hoe|exact Hse|].
    destruct r as [|oe r].
    + apply stream_nil_inv in Hs. subst p2. right. rewrite He. reflexivity.
    + destruct Hnext as [op' Hl']; [discriminate|]. left. eauto.
Qed.

End FlatText.

Section FlatParse.

Lemma flat_first e0 rest p pE :
  operand e0 ->
  stream p (toks e0 ++ chain_toks rest) pE ->
  TokenType_beq (Type_ (lookAhead p)) EOF = false.
Proof.
  intros [Hp _] Hs. apply stream_app_inv in Hs as (p1 & Hs & _).
  apply first_ok_not_EOF. eapply stream_first; eauto.
Qed.

Lemma is_binop_not_EOF ty p :
  is_binop_type ty = true ->
  lookAhead p = mkToken EOF EmptyString ->
  TokenType_beq (Type_ (lookAhead p)) ty = false
  /\ closer (Type_ (lookAhead p)) = true.
Proof.
  intros Hb ->. split; [|reflexivity].
  destruct ty; try discriminate Hb; reflexivity.
Qed.


End FlatParse.

(* ================================================================== *)
(** ** Text that yields no token *)

Section IgnoredText.

Definition is_space_opt (o : option ascii) : bool :=
  match o with Some c => is_space c | None => false end.

(** A run of white space is one match of the first rule. *)
Lemma classify_blanks w s :
  w <> EmptyString -> all is_space w = true ->
  is_space_opt (first_char s) = false ->
  classify Spec (w ++ s) = Some (IGNORE, w).
Proof.
  intros Hne Hw Hs. unfold Spec. cbn [classify RegEx Type__].
  assert (E : rx_plus is_space (w ++ s) = w).
  { unfold rx_plus. destruct s as [|c s].
    - rewrite app_nil_r. apply take_while_all, Hw.
    - apply take_while_stop; assumption. }
  rewrite E. destruct w; [congruence|reflexivity].
Qed.

(** A line comment runs to the end of its line. *)
Lemma classify_line_comment body s :
  all (is_not "010") body = true ->
  s = EmptyString \/ (exists r, s = String "010" r) ->
  classify Spec ("//" ++ body ++ s) = Some (IGNORE, "//" ++ body).
Proof.
  intros Hb Hs. unfold Spec. cbn [classify RegEx Type__].
  change (rx_plus is_space ("//" ++ body ++ s)) with EmptyString.
  cbn [String.length Nat.eqb].
  assert (E : rx_line_comment ("//" ++ body ++ s) = "//" ++ body).
  { unfold rx_line_comment. cbn [append prefix drop].
    destruct (ascii_dec "/" "/") as [_|N]; [|congruence].
    assert (Hp : prefix EmptyString (body ++ s) = true)
      by (destruct (body ++ s); reflexivity).
    rewrite Hp. do 2 f_equal.
    destruct Hs as [->|[r ->]].
    - rewrite app_nil_r. apply take_while_all, Hb.
    - apply take_while_stop; [exact Hb|reflexivity]. }
  rewrite E. reflexivity.
Qed.

(** [body] holds no [*/]. *)
Fixpoint no_close (body : string) : bool :=
  match body with
  | EmptyString => true
  | String c r => negb (prefix "*/" body) && no_close r
  end.

Lemma prefix_cons a x b y :
  prefix (String a x) (String b y)
  = if ascii_dec a b then prefix x y else false.
Proof. reflexivity. Qed.

Lemma until_close_first body s :
  no_close body = true ->
  until_close (body ++ "*/" ++ s) = Some (body ++ "*/").
Proof.
  induction body as [|c r IH]; intros H.
  - cbn [append until_close prefix].
    destruct (ascii_dec "*" "*") as [_|N]; [|congruence].
    destruct (ascii_dec "/" "/") as [_|N]; [|congruence].
    destruct s; reflexivity.
  - cbn [no_close] in H. apply andb_true_iff in H as [Hc Hr].
    apply negb_true_iff in Hc.
    change ((String c r ++ "*/" ++ s))
      with (String c (r ++ "*/" ++ s)).
    cbn [until_close].
    assert (E : prefix "*/" (String c (r ++ "*/" ++ s)) = false).
    { rewrite prefix_cons in Hc |- *.
      destruct (ascii_dec "*" c) as [_|]; [|reflexivity].
      destruct r as [|d r']; cbn [append]; rewrite prefix_cons.
      - destruct (ascii_dec "/" "*"); [discriminate|reflexivity].
      - rewrite prefix_cons in Hc.
        destruct (ascii_dec "/" d); [|reflexivity].
        destruct r'; discriminate Hc. }
    rewrite E, (IH Hr). reflexivity.
Qed.

(** A block comment ends at the first [*/] after its opening. *)
Lemma classify_block_comment body s :
  no_close body = true ->
  classify Spec ("/*" ++ body ++ "*/" ++ s)
  = Some (IGNORE, "/*" ++ body ++ "*/").
Proof.
  intros Hb. unfold Spec. cbn [classify RegEx Type__].
  change (rx_plus is_space ("/*" ++ body ++ "*/" ++ s)) with EmptyString.
  change (rx_line_comment ("/*" ++ body ++ "*/" ++ s)) with EmptyString.
  cbn [String.length Nat.eqb].
  assert (E : rx_block_comment ("/*" ++ body ++ "*/" ++ s)
              = "/*" ++ body ++ "*/").
  { unfold rx_block_comment. cbn [append prefix drop].
    destruct (ascii_dec "/" "/") as [_|N]; [|congruence].
    destruct (ascii_dec "*" "*") as [_|N]; [|congruence].
    assert (Hp : prefix EmptyString (body ++ String "*" (String "/" s)) = true)
      by (destruct (body ++ _); reflexivity).
    rewrite Hp.
    change (String "*" (String "/" s)) with ("*/" ++ s).
    rewrite (until_close_first body s Hb). reflexivity. }
  rewrite E. reflexivity.
Qed.

(** What the tokenizer skips before the token it returns. *)
Inductive ignorable : string -> string -> Prop :=
  | ignorable_blanks w s :
      w <> EmptyString -> all is_space w = true ->
      is_space_opt (first_char s) = false ->
      ignorable w s
  | ignorable_line body s :
      all (is_not "010") body = true ->
      s = EmptyString \/ (exists r, s = String "010" r) ->
      ignorable ("//" ++ body) s
  | ignorable_block body s :
      no_close body = true ->
      ignorable ("/*" ++ body ++ "*/") s.

Lemma classify_ignorable x s :
  ignorable x s -> classify Spec (x ++ s) = Some (IGNORE, x).
Proof.
  intros [w s' Hne Hw Hs|body s' Hb Hs|body s' Hb].
  - apply classify_blanks; assumption.
  - rewrite app_assoc. apply classify_line_comment; assumption.
  - rewrite !app_assoc. apply classify_block_comment; assumption.
Qed.

End IgnoredText.

(* ================================================================== *)
(** ** The scanner of a parser *)

Section ScannerOfParser.

Lemma GetNextToken_EOF_end t :
  Type_ (fst (GetNextToken t)) = EOF ->
  hasMoreTokens (snd (GetNextToken t)) = false.
Proof.
  apply (GetNextToken_ind (fun _ r =>
           Type_ (fst r) = EOF -> hasMoreTokens (snd r) = false));
    cbn [fst snd Type_]; intros; auto; try discriminate.
  match goal with
  | Hfm : first_match _ _ _ = Some _ |- _ =>
      apply first_match_Spec_type in Hfm
  end.
  subst ty. discriminate.
Qed.

(** The scanner of [p] reads [source], within its bounds, and is at the end
    when the lookahead is EOF. *)
Definition reads (source : string) (p : Parser) : Prop :=
  input (scanner p) = source
  /\ cursor (scanner p) <= String.length source
  /\ (Type_ (lookAhead p) = EOF -> cursor (scanner p) = String.length source).

Lemma reads_advance source p :
  input (scanner p) = source ->
  cursor (scanner p) <= String.length source ->
  reads source (advance p).
Proof.
  intros Hi Hc. unfold reads.
  rewrite advance_lookAhead, advance_scanner.
  destruct (GetNextToken_slice (scanner p)) as (H1 & H2 & _);
    [rewrite Hi; exact Hc|].
  rewrite Hi in *. split_all; [congruence|lia|].
  intros He. apply GetNextToken_EOF_end in He.
  unfold hasMoreTokens in He. apply Nat.ltb_ge in He.
  rewrite H1 in He. lia.
Qed.

Lemma reads_reach source p p' :
  reach p p' -> reads source p -> reads source p'.
Proof.
  induction 1 as [p|p p' _ _ IH]; intros H; [exact H|].
  apply IH. destruct H as (Hi & Hc & _). apply reads_advance; assumption.
Qed.

End ScannerOfParser.

(* ================================================================== *)
(** ** A parenthesis that is not closed *)

Section OpenParenthesis.

(** Nothing is left of the text. *)
Definition at_end (s : string) : bool :=
  match s with EmptyString => true | _ => false end.

(** The tokens of [(], a rendered operand and [z], where [z] is empty or
    one token. *)
Lemma stream_open e z zt :
  operand e ->
  lexes_to z zt any ->
  boundary z = true ->
  exists p1 pE,
    lookAhead (start_of ("(" ++ Expression_ToString e ++ z))
    = mkToken LPAREN "("
    /\ stream (advance (start_of ("(" ++ Expression_ToString e ++ z)))
              (toks e) p1
    /\ stream p1 zt pE
    /\ lookAhead pE = mkToken EOF EmptyString.
Proof.
  intros [Hp Hw] Hz Hb.
  set (text := "(" ++ Expression_ToString e ++ z).
  set (t := tokenizer.New text).
  assert (Hu : Unread t (text ++ EmptyString))
    by (rewrite app_nil_r; apply Unread_New).
  assert (Hl : lexes_to text
                 ([mkToken LPAREN "("] ++ (toks e ++ zt))%list at_end).
  { apply (lexes_to_app "(" [mkToken LPAREN "("] any);
      [apply lexes_to_punct; cbn [In]; tauto| |reflexivity].
    apply lexes_to_app with (ok1 := boundary);
      [apply render_lexes; assumption
      |apply (lexes_to_weaken z zt any); [exact Hz|reflexivity]|].
    intros s Hs. destruct s; [|discriminate Hs].
    rewrite app_nil_r. exact Hb. }
  pose proof (Hl t EmptyString Hu eq_refl) as Hs.
  cbn [List.app] in Hs. apply stream_cons_inv in Hs as [H1 Hs].
  apply stream_app_inv in Hs as (p1 & Hse & Hsz).
  exists p1, (poised (seek t (String.length text))).
  split_all; try assumption.
  rewrite lookAhead_poised, lex_eof; [reflexivity|].
  apply Unread_seek. exact Hu.
Qed.

(** [primary] on [(], an expression, and a token that is not [)]. *)
Lemma primary_open_fails p v e p1 msg :
  lookAhead p = mkToken LPAREN v ->
  runs expression (advance p) e p1 ->
  eat RPAREN p1 = Panic msg ->
  fails primary p msg.
Proof.
  intros Hl [n0 He] Hr. exists (S n0). intros n Hn.
  destruct n as [|n]; [lia|].
  rewrite primary_by_type, Hl. cbn [Type_].
  rewrite (bind_Ok_then _ _ _ _ _ (eat_tok LPAREN v p Hl ltac:(discriminate))).
  rewrite (bind_Ok_then _ _ _ _ _ (He n ltac:(lia))).
  apply bind_Panic. exact Hr.
Qed.

Lemma open_fails e z zt msg :
  operand e ->
  lexes_to z zt any ->
  boundary z = true ->
  (forall p1 pE,
      stream p1 zt pE -> lookAhead pE = mkToken EOF EmptyString ->
      closer (Type_ (lookAhead p1)) = true /\ eat RPAREN p1 = Panic msg) ->
  parse ("(" ++ Expression_ToString e ++ z) = Panic msg.
Proof.
  intros He Hz Hb Hend.
  destruct (stream_open e z zt He Hz Hb) as (p1 & pE & Hl & Hs & Hsz & Heof).
  destruct (Hend p1 pE Hsz Heof) as [Hc Hr].
  apply parse_fails; [rewrite Hl; reflexivity|].
  apply primary_fails_up; [rewrite Hl; reflexivity|].
  apply (primary_open_fails _ "(" e p1); [exact Hl| |exact Hr].
  destruct He as [Hp Hw].
  apply parses_expression; auto. apply parses_pure; assumption.
Qed.

End OpenParenthesis.

(* ================================================================== *)
(** ** The rendering of an assignment *)

Section AssignmentText.

Definition assign_ops : list string := ["="; "+="; "-="; "*="; "/="].

Definition assign_type (op : string) : TokenType :=
  if is_op SIMPLE_ASSIGN op then SIMPLE_ASSIGN else COMPLEX_ASSIGN.

(** The text begins with a blank. *)
Definition blank_start (s : string) : bool :=
  match s with String c _ => (c =? " ")%char | EmptyString => false end.

(** The text begins with an assignment operator. *)
Definition assign_start (s : string) : bool :=
  match s with
  | String c _ => is_one_of "=+-*/" c
  | EmptyString => false
  end.

Lemma is_op_assign op :
  is_op SIMPLE_ASSIGN op || is_op COMPLEX_ASSIGN op = true ->
  In op assign_ops.
Proof.
  intros H. apply orb_true_iff in H as [H|H];
    unfold is_op in H; apply existsb_exists in H as (x & Hx & He);
    apply String.eqb_eq in He; subst x; cbn [ops_of In] in Hx;
    unfold assign_ops; cbn [In]; tauto.
Qed.

Lemma classify_assign op s :
  In op assign_ops -> blank_start s = true ->
  classify Spec (op ++ s) = Some (assign_type op, op).
Proof.
  intros H Hs. destruct s as [|c s]; [discriminate Hs|].
  cbn [blank_start] in Hs. apply Ascii.eqb_eq in Hs. subst c.
  repeat (destruct H as [<-|H]; [reflexivity|]). destruct H.
Qed.

Lemma lexes_to_assign op :
  In op assign_ops ->
  lexes_to (" " ++ op ++ " ") [mkToken (assign_type op) op] operand_start.
Proof.
  intros Hop t s Hu Hs.
  assert (Hb : classify Spec (" " ++ (op ++ " " ++ s)) = Some (IGNORE, " ")).
  { apply classify_blanks; [discriminate|reflexivity|].
    repeat (destruct Hop as [<-|Hop]; [reflexivity|]). destruct Hop. }
  assert (Hu1 : Unread t (" " ++ (op ++ " " ++ s)))
    by (rewrite !app_assoc in Hu; exact Hu).
  pose proof (Unread_seek _ _ _ Hu1) as Hu2.
  assert (Ho : classify Spec (op ++ (" " ++ s)) = Some (assign_type op, op))
    by (apply classify_assign; [exact Hop|reflexivity]).
  assert (Hty : TokenType_beq (assign_type op) IGNORE = false)
    by (unfold assign_type; destruct (is_op SIMPLE_ASSIGN op); reflexivity).
  pose proof (lex_tok _ _ _ _ Hu2 Ho Hty) as Hg.
  pose proof (Unread_seek _ _ _ Hu2) as Hu3.
  pose proof (lex_skip _ _ _ Hu3 (classify_space s Hs)) as Hk.
  rewrite !seek_seek in *. rewrite !length_app.
  cbn [String.length] in *.
  constructor.
  - rewrite lookAhead_poised, (lex_skip _ _ _ Hu1 Hb).
    cbn [String.length]. rewrite Hg. reflexivity.
  - rewrite advance_poised, scanner_poised, (lex_skip _ _ _ Hu1 Hb).
    cbn [String.length]. rewrite Hg. cbn [snd].
    replace (poised (seek t (1 + (String.length op + 1))))
      with (poised (seek t (1 + String.length op))); [constructor|].
    unfold poised. rewrite Hk.
    replace (1 + String.length op + 1) with (1 + (String.length op + 1))
      by lia.
    reflexivity.
Qed.

(** An assignment operator between two operands of the level below. *)
Lemma assignment_node p l p1 op r pE :
  runs logicalOrExpression p l p1 ->
  lookAhead p1 = mkToken (assign_type op) op ->
  runs assignmentExpression (advance p1) r pE ->
  runs assignmentExpression p (AssignmentExpression op l r) pE.
Proof.
  intros [n1 Hl] Hop [n2 Hr]. exists (S (n1 + n2)). intros n Hn.
  destruct n as [|n]; [lia|].
  rewrite assignmentExpression_S.
  rewrite (bind_Ok_then _ _ _ _ _ (Hl n ltac:(lia))).
  rewrite peek_then, Hop. cbn [Type_].
  assert (Hty : assign_type op = SIMPLE_ASSIGN
                \/ assign_type op = COMPLEX_ASSIGN)
    by (unfold assign_type; destruct (is_op SIMPLE_ASSIGN op); auto).
  assert (He : assignmentOperator p1 = Ok (mkToken (assign_type op) op,
                                           advance p1)).
  { unfold assignmentOperator. rewrite peek_then, Hop. cbn [Type_].
    destruct Hty as [E|E]; rewrite E in *; cbn [TokenType_beq];
      apply eat_tok; [exact Hop|discriminate|exact Hop|discriminate]. }
  destruct Hty as [E|E]; rewrite E in *;
    cbn [isAssignmentOperator TokenType_beq orb negb];
    rewrite (bind_Ok_then _ _ _ _ _ He);
    rewrite (bind_Ok_then _ _ _ _ _ (Hr n ltac:(lia)));
    reflexivity.
Qed.

End AssignmentText.

Section AssignmentParse.

Lemma assign_type_cases op :
  assign_type op = SIMPLE_ASSIGN \/ assign_type op = COMPLEX_ASSIGN.
Proof. unfold assign_type. destruct (is_op SIMPLE_ASSIGN op); auto. Qed.

(** An operand before an assignment operator is the left side. *)
Lemma operand_logicalOr e p p' op :
  operand e -> stream p (toks e) p' ->
  lookAhead p' = mkToken (assign_type op) op ->
  runs logicalOrExpression p e p'.
Proof.
  intros [Hp Hw] Hs Hl.
  assert (Hty : forall ty, is_binop_type ty = true \/ ty = DOT
                           \/ ty = LBRACKET \/ ty = LPAREN ->
                           TokenType_beq (Type_ (lookAhead p')) ty = false).
  { intros ty Hb. rewrite Hl. cbn [Type_].
    destruct (assign_type_cases op) as [-> | ->];
      destruct Hb as [Hb|[->|[->| ->]]]; try reflexivity;
      destruct ty; try discriminate Hb; reflexivity. }
  apply logicalOr_pass; [|apply Hty; left; reflexivity].
  apply logicalAnd_pass; [|apply Hty; left; reflexivity].
  apply equality_pass; [|apply Hty; left; reflexivity].
  apply comparison_pass; [|apply Hty; left; reflexivity].
  apply term_pass; [|apply Hty; left; reflexivity].
  apply factor_pass; [|apply Hty; left; reflexivity].
  apply parses_unary; auto.
  - apply parses_pure; assumption.
  - split; apply Hty; auto.
Qed.

(** The trees of assignments of operands to operands, to any depth on the
    right: what is assigned is an operand or such an assignment again. *)
Fixpoint assignable (e : Expression) : bool :=
  match e with
  | AssignmentExpression op l r =>
      (is_op SIMPLE_ASSIGN op || is_op COMPLEX_ASSIGN op)
      && (pure l && wf l) && assignable r
  | _ => pure e && wf e
  end.

(** The tokens of the rendering of such a tree. *)
Fixpoint assignment_toks (e : Expression) : list Token :=
  match e with
  | AssignmentExpression op l r =>
      (toks l ++ mkToken (assign_type op) op :: assignment_toks r)%list
  | _ => toks e
  end.

Lemma assignable_operand e :
  assignable e = true ->
  (exists op l r,
      e = AssignmentExpression op l r
      /\ is_op SIMPLE_ASSIGN op || is_op COMPLEX_ASSIGN op = true
      /\ operand l /\ assignable r = true)
  \/ (operand e /\ assignment_toks e = toks e).
Proof.
  destruct e; cbn [assignable assignment_toks]; intros H;
    try (right; apply andb_true_iff in H as [H1 H2];
         split; [split; assumption|reflexivity]).
  left. apply andb_true_iff in H as [H Hr].
  apply andb_true_iff in H as [Ho Hl].
  apply andb_true_iff in Hl as [Hp Hw].
  do 3 eexists. split; [reflexivity|]. split; [exact Ho|].
  split; [split; assumption|exact Hr].
Qed.

Lemma assignable_start e s :
  assignable e = true ->
  operand_start (Expression_ToString e ++ s) = true.
Proof.
  intros H. destruct (assignable_operand e H)
    as [(op & l & r & -> & _ & [Hp Hw] & _)|[[Hp Hw] _]].
  - cbn [Expression_ToString]. rewrite app_assoc.
    apply operand_start_app, render_start; assumption.
  - apply operand_start_app, render_start; assumption.
Qed.

Lemma assignable_first e p pE :
  assignable e = true -> stream p (assignment_toks e) pE ->
  first_ok (Type_ (lookAhead p)) = true.
Proof.
  intros H Hs. destruct (assignable_operand e H)
    as [(op & l & r & -> & _ & [Hp Hw] & _)|[[Hp Hw] E]].
  - cbn [assignment_toks] in Hs.
    apply stream_app_inv in Hs as (p1 & Hs & _).
    eapply stream_first; eauto.
  - rewrite E in Hs. eapply stream_first; eauto.
Qed.

Lemma lexes_to_assignable e :
  assignable e = true ->
  lexes_to (Expression_ToString e) (assignment_toks e) boundary.
Proof.
  induction e
    as [v|s|b| |op l IHl r IHr|op l IHl r IHr|op l IHl r IHr|op r IHr
        |c IHc args|cp o IHo p IHp| |x| |c IHc args];
    intros H;
    try (destruct (assignable_operand _ H)
           as [(? & ? & ? & E & _)|[[Hp Hw] ->]];
         [discriminate E|apply render_lexes; assumption]).
  cbn [assignable] in H. apply andb_true_iff in H as [H Hr].
  apply andb_true_iff in H as [Ho Hl].
  apply andb_true_iff in Hl as [Hp Hw]. apply is_op_assign in Ho.
  cbn [Expression_ToString assignment_toks].
  replace (" " ++ op ++ " " ++ Expression_ToString r)
    with ((" " ++ op ++ " ") ++ Expression_ToString r)
    by (cbn [append]; rewrite app_assoc; reflexivity).
  apply lexes_to_app with (ok1 := boundary);
    [apply render_lexes; assumption| |reflexivity].
  apply (lexes_to_app _ [mkToken (assign_type op) op] operand_start);
    [apply lexes_to_assign; exact Ho|apply IHr; exact Hr|].
  intros s _. apply assignable_start. exact Hr.
Qed.

Lemma assignable_runs e : forall p pE,
  assignable e = true ->
  stream p (assignment_toks e) pE ->
  closer (Type_ (lookAhead pE)) = true ->
  runs assignmentExpression p e pE.
Proof.
  induction e
    as [v|s|b| |op l IHl r IHr|op l IHl r IHr|op l IHl r IHr|op r IHr
        |c IHc args|cp o IHo p0 IHp| |x| |c IHc args];
    intros p pE H Hs Hc;
    try (destruct (assignable_operand _ H)
           as [(? & ? & ? & E & _)|[[Hp Hw] Et]];
         [discriminate E
         |rewrite Et in Hs; apply parses_assignment; auto;
          apply parses_pure; assumption]).
  cbn [assignable] in H. apply andb_true_iff in H as [H Hr].
  apply andb_true_iff in H as [Ho Hl].
  apply andb_true_iff in Hl as [Hp Hw].
  cbn [assignment_toks] in Hs.
  apply stream_app_inv in Hs as (p1 & Hsl & Hs).
  apply stream_cons_inv in Hs as [Hl1 Hsr].
  apply (assignment_node _ l p1 op r pE); [|exact Hl1|].
  - eapply operand_logicalOr; [split; assumption|exact Hsl|exact Hl1].
  - apply IHr; assumption.
Qed.

End AssignmentParse.

(* ================================================================== *)
(** ** Statements one after the other *)

Section StatementSequence.

(** The rendering of [e] begins with a parenthesis. *)
Fixpoint paren_first (e : Expression) : bool :=
  match e with
  | LogicalExpression _ _ _ | BinaryExpression _ _ _
  | UnaryExpression _ _ => true
  | CallExpression c _ => paren_first c
  | MemberExpression _ o _ => paren_first o
  | _ => false
  end.

(** The token types that continue no expression. *)
Definition stops (ty : TokenType) : bool :=
  negb (is_binop_type ty || isAssignmentOperator ty
        || TokenType_beq ty DOT || TokenType_beq ty LBRACKET
        || TokenType_beq ty LPAREN).

Lemma toks_first_stops e :
  pure e = true -> paren_first e = false ->
  exists tok rest, toks e = tok :: rest /\ stops (Type_ tok) = true.
Proof.
  induction e
    as [v|s|b| |op l IHl r IHr|op l IHl r IHr|op l IHl r IHr|op r IHr
        |c IHc args|cp o IHo p IHp| |x| |c IHc args];
    cbn [pure toks paren_first]; intros Hp Hf;
    try discriminate Hp; try discriminate Hf;
    try (eexists; eexists; split; reflexivity).
  - destruct b; eexists; eexists; split; reflexivity.
  - apply andb_true_iff in Hp as [Hp _].
    destruct (IHc Hp Hf) as (tok & rest & -> & Hs).
    eexists; eexists; split; [reflexivity|exact Hs].
  - apply andb_true_iff in Hp as [Hp _].
    apply andb_true_iff in Hp as [_ Hp].
    destruct (IHo Hp Hf) as (tok & rest & -> & Hs).
    destruct (negb cp); eexists; eexists; split;
      try reflexivity; exact Hs.
Qed.

(** An operand before a token that continues no expression is a whole
    expression. *)
Lemma operand_expression e p p' :
  operand e -> stream p (toks e) p' ->
  stops (Type_ (lookAhead p')) = true ->
  runs expression p e p'.
Proof.
  intros [Hp Hw] Hs Hst.
  assert (Hty : forall ty,
             is_binop_type ty = true \/ ty = DOT \/ ty = LBRACKET
             \/ ty = LPAREN ->
             TokenType_beq (Type_ (lookAhead p')) ty = false).
  { intros ty Hb. destruct (Type_ (lookAhead p')); try discriminate Hst;
      destruct Hb as [Hb|[->|[->| ->]]]; try reflexivity;
      destruct ty; try discriminate Hb; reflexivity. }
  apply expression_of_assignment, assignment_pass;
    [|destruct (Type_ (lookAhead p')); try discriminate Hst; reflexivity].
  apply logicalOr_pass; [|apply Hty; left; reflexivity].
  apply logicalAnd_pass; [|apply Hty; left; reflexivity].
  apply equality_pass; [|apply Hty; left; reflexivity].
  apply comparison_pass; [|apply Hty; left; reflexivity].
  apply term_pass; [|apply Hty; left; reflexivity].
  apply factor_pass; [|apply Hty; left; reflexivity].
  apply parses_unary; auto.
  - apply parses_pure; assumption.
  - split; apply Hty; auto.
Qed.

(** Operands of which all but the first begin without a parenthesis. *)
Definition sequence (es : list Expression) : Prop :=
  Forall operand es /\ Forall (fun e => paren_first e = false) (tl es).

Lemma sequence_tail e es : sequence (e :: es) -> sequence es.
Proof.
  intros [H1 H2]. inversion H1; subst. split; [assumption|].
  destruct es as [|e' es]; [constructor|].
  cbn [tl] in *. inversion H2; assumption.
Qed.

Lemma statementList_run es : forall acc p pE,
  sequence es ->
  stream p (flat_map toks es) pE ->
  Type_ (lookAhead pE) = EOF ->
  runs (fun n => statementList n EOF acc) p
       (acc ++ map ExpressionStatement es)%list pE.
Proof.
  induction es as [|e es IH]; intros acc p pE Hseq Hs He.
  - cbn in Hs. apply stream_nil_inv in Hs. subst pE.
    exists 1. intros n Hn. destruct n as [|n]; [lia|].
    rewrite statementList_S, peek_then, He, List.app_nil_r. reflexivity.
  - cbn [flat_map] in Hs. apply stream_app_inv in Hs as (p1 & Hse & Hs).
    pose proof (sequence_tail _ _ Hseq) as Hseq'.
    destruct Hseq as [Hops Hpar]. inversion Hops as [|? ? Hoe Hops']; subst.
    assert (Hst : stops (Type_ (lookAhead p1)) = true).
    { destruct es as [|e' es].
      - cbn in Hs. apply stream_nil_inv in Hs. subst p1.
        rewrite He. reflexivity.
      - cbn [tl] in Hpar. inversion Hpar as [|? ? Hf _]; subst.
        inversion Hops' as [|? ? [Hp' _] _]; subst.
        destruct (toks_first_stops e' Hp' Hf) as (tok & rest & E & Hst).
        cbn [flat_map] in Hs. rewrite E in Hs. cbn [List.app] in Hs.
        apply stream_cons_inv in Hs as [-> _]. exact Hst. }
    destruct (operand_expression e p p1 Hoe Hse Hst) as [n1 H1].
    destruct (IH (acc ++ [ExpressionStatement e])%list p1 pE Hseq' Hs He)
      as [n2 H2].
    assert (Hne : TokenType_beq (Type_ (lookAhead p)) EOF = false).
    { apply first_ok_not_EOF. destruct Hoe as [Hp _].
      eapply stream_first; eauto. }
    exists (S (S (S (n1 + n2)))). intros n Hn.
    destruct n as [|[|[|n]]]; try lia.
    rewrite statementList_S, peek_then, Hne. cbn [negb].
    rewrite statement_S, expressionStatement_S.
    rewrite (bind_Ok_then _ _ p (ExpressionStatement e) p1).
    + rewrite H2 by lia. rewrite <- List.app_assoc. reflexivity.
    + rewrite (bind_Ok_then _ _ _ _ _ (H1 n ltac:(lia))). reflexivity.
Qed.

Lemma concat_start es s :
  Forall operand es -> es <> [] ->
  operand_start (String.concat " " (map Expression_ToString es) ++ s) = true.
Proof.
  intros H Hne. destruct es as [|e es]; [congruence|].
  inversion H as [|? ? [Hp Hw] _]; subst.
  pose proof (render_start e Hp Hw) as Hs.
  destruct es; cbn [map String.concat];
    [|rewrite app_assoc]; apply operand_start_app; exact Hs.
Qed.

Lemma lexes_to_sequence es :
  Forall operand es ->
  lexes_to (String.concat " " (map Expression_ToString es))
           (flat_map toks es) boundary.
Proof.
  induction 1 as [|e es [Hp Hw] Hes IH].
  - apply lexes_to_nil.
  - destruct es as [|e' es].
    + cbn [map String.concat flat_map]. rewrite List.app_nil_r.
      apply render_lexes; assumption.
    + change (lexes_to
        (Expression_ToString e ++
         (" " ++ String.concat " " (map Expression_ToString (e' :: es))))
        (toks e ++ flat_map toks (e' :: es))%list boundary).
      rewrite <- app_assoc.
      apply lexes_to_app with (ok1 := operand_start); [|exact IH|].
      * apply (lexes_to_skip _ _ boundary " " operand_start);
          [apply render_lexes; assumption
          |intros s Hs; apply classify_space; exact Hs
          |reflexivity].
      * intros s _. apply concat_start; [exact Hes|discriminate].
Qed.

End StatementSequence.

(* ================================================================== *)
(** ** [new] and [super] *)

Section NewAndSuper.

Lemma operands_parse args :
  Forall operand args -> Forall (fun a => pure a = true /\ parses a) args.
Proof.
  intros H. eapply Forall_impl; [|exact H]. cbn beta.
  intros a [Hp Hw]. split; [exact Hp|apply parses_pure; assumption].
Qed.

Lemma operands_lex args :
  Forall operand args ->
  lexes_to (String.concat ", " (map Expression_ToString args))
           (sep_concat [mkToken COMMA ","] (map toks args)) boundary.
Proof.
  intros H.
  assert (H1 : Forall (fun a => pure a = true -> wf a = true ->
                         lexes_to (Expression_ToString a) (toks a) boundary)
                      args).
  { eapply Forall_impl; [|exact H]. cbn beta. intros a _.
    apply render_lexes. }
  apply lexes_to_arguments; [exact H1| |];
    apply forallb_forall; intros a Ha;
    rewrite Forall_forall in H; destruct (H a Ha); assumption.
Qed.

(** The text and the tokens of an argument list between its parentheses. *)
Lemma lexes_to_call_arguments args :
  Forall operand args ->
  lexes_to ("(" ++ String.concat ", " (map Expression_ToString args) ++ ")")
           ([mkToken LPAREN "("]
            ++ (sep_concat [mkToken COMMA ","] (map toks args)
                ++ [mkToken RPAREN ")"]))%list
           boundary.
Proof.
  intros H.
  apply (lexes_to_app "(" [mkToken LPAREN "("] any);
    [apply lexes_to_punct; cbn [In]; tauto| |reflexivity].
  apply lexes_to_app with (ok1 := boundary);
    [apply operands_lex; exact H
    |apply lexes_to_punct; cbn [In]; tauto|reflexivity].
Qed.

(** The state at the end of [text], read from its beginning. *)
Lemma stream_text text l :
  lexes_to text l boundary ->
  exists pE,
    stream (start_of text) l pE
    /\ lookAhead pE = mkToken EOF EmptyString.
Proof.
  intros Hl. set (t := tokenizer.New text).
  assert (Hu : Unread t (text ++ EmptyString))
    by (rewrite app_nil_r; apply Unread_New).
  exists (poised (seek t (String.length text))). split.
  - exact (Hl t EmptyString Hu eq_refl).
  - rewrite lookAhead_poised, lex_eof; [reflexivity|].
    apply Unread_seek. exact Hu.
Qed.

Lemma primary_new p v callee p1 args p2 :
  lookAhead p = mkToken NEW v ->
  runs memberExp (advance p) callee p1 ->
  runs arguments p1 args p2 ->
  runs primary p (NewExpression callee args) p2.
Proof.
  intros Hl [n1 H1] [n2 H2]. exists (S (n1 + n2)). intros n Hn.
  destruct n as [|n]; [lia|].
  rewrite primary_by_type, Hl. cbn [Type_].
  rewrite (bind_Ok_then _ _ _ _ _ (eat_tok NEW v p Hl ltac:(discriminate))).
  rewrite (bind_Ok_then _ _ _ _ _ (H1 n ltac:(lia))).
  rewrite (bind_Ok_then _ _ _ _ _ (H2 n ltac:(lia))).
  reflexivity.
Qed.

(** The rendering of a [new] expression parses to it, when the callee is no
    call. *)
Lemma reparse_new callee args :
  operand callee -> is_call callee = false -> Forall operand args ->
  parse (Expression_ToString (NewExpression callee args))
  = Ok (one (NewExpression callee args)).
Proof.
  intros [Hpc Hwc] Hnc Hargs. cbn [Expression_ToString].
  assert (Hl : lexes_to
                 ("new " ++ Expression_ToString callee ++ "("
                  ++ String.concat ", " (map Expression_ToString args)
                  ++ ")")
                 ([mkToken NEW "new"]
                  ++ (toks callee
                      ++ ([mkToken LPAREN "("]
                          ++ (sep_concat [mkToken COMMA ","] (map toks args)
                              ++ [mkToken RPAREN ")"]))))%list
                 boundary).
  { change ("new " ++ Expression_ToString callee ++ "("
            ++ String.concat ", " (map Expression_ToString args) ++ ")")
      with (("new" ++ " ")
            ++ Expression_ToString callee ++ "("
            ++ String.concat ", " (map Expression_ToString args) ++ ")").
    apply lexes_to_app with (ok1 := operand_start).
    - apply (lexes_to_skip _ _ boundary " " operand_start);
        [apply lexes_to_word; reflexivity
        |intros s Hs; apply classify_space; exact Hs
        |reflexivity].
    - apply lexes_to_app with (ok1 := boundary);
        [apply render_lexes; assumption
        |apply lexes_to_call_arguments; exact Hargs|reflexivity].
    - intros s _. rewrite app_assoc.
      apply operand_start_app, render_start; assumption. }
  destruct (stream_text _ _ Hl) as (pE & Hs & He).
  cbn [List.app] in Hs. apply stream_cons_inv in Hs as [Hn Hs].
  apply stream_app_inv in Hs as (p1 & Hsc & Hs).
  pose proof Hs as Hs'. apply stream_cons_inv in Hs' as [Hlp Hsa].
  apply (parse_single _ _ pE);
    [rewrite Hn; reflexivity| |rewrite He; reflexivity].
  apply primary_alone;
    [rewrite Hn; reflexivity| |rewrite He; reflexivity].
  apply (primary_new _ "new" callee p1 args pE); [exact Hn| |].
  - destruct (parses_pure callee Hpc Hwc _ _ Hsc) as [Hm _].
    apply (Hm Hnc). apply loop_stop; rewrite Hlp; reflexivity.
  - apply arguments_run; [exact Hlp|apply operands_parse; exact Hargs|].
    exact Hsa.
Qed.

Lemma callMemberExp_super p v X q :
  lookAhead p = mkToken SUPER v ->
  Type_ (lookAhead (advance p)) = LPAREN ->
  runs (fun n => call_tail n SuperExpression) (advance p) X q ->
  runs callMemberExp p X q.
Proof.
  intros Hl Hlp [n0 H]. exists (S n0). intros n Hn.
  destruct n as [|n]; [lia|].
  rewrite callMemberExp_S, peek_then, Hl. cbn [Type_ TokenType_beq].
  unfold super.
  rewrite (bind_Ok_then _ _ p SuperExpression (advance p)).
  - specialize (H n ltac:(lia)). unfold call_tail in H.
    rewrite peek_then, Hlp in H. exact H.
  - rewrite (bind_Ok_then _ _ _ _ _
               (eat_tok SUPER v p Hl ltac:(discriminate))).
    reflexivity.
Qed.

(** The rendering of a call of [super] parses to it. *)
Lemma reparse_super args :
  Forall operand args ->
  parse (Expression_ToString (CallExpression SuperExpression args))
  = Ok (one (CallExpression SuperExpression args)).
Proof.
  intros Hargs. cbn [Expression_ToString].
  assert (Hl : lexes_to
                 ("super" ++ "("
                  ++ String.concat ", " (map Expression_ToString args)
                  ++ ")")
                 ([mkToken SUPER "super"]
                  ++ ([mkToken LPAREN "("]
                      ++ (sep_concat [mkToken COMMA ","] (map toks args)
                          ++ [mkToken RPAREN ")"])))%list
                 boundary).
  { apply lexes_to_app with (ok1 := boundary);
      [apply lexes_to_word; reflexivity
      |apply lexes_to_call_arguments; exact Hargs|reflexivity]. }
  destruct (stream_text _ _ Hl) as (pE & Hs & He).
  cbn [List.app] in Hs. apply stream_cons_inv in Hs as [Hsu Hs].
  pose proof Hs as Hs'. apply stream_cons_inv in Hs' as [Hlp Hsa].
  apply (parse_single _ _ pE);
    [rewrite Hsu; reflexivity| |rewrite He; reflexivity].
  apply climb; [|rewrite He; reflexivity].
  apply unary_pass; [rewrite Hsu; reflexivity..|].
  apply (callMemberExp_super _ "super"); [exact Hsu|rewrite Hlp; reflexivity|].
  apply (call_tail_call SuperExpression _ args pE);
    [rewrite Hlp; reflexivity| |].
  - apply arguments_run; [exact Hlp|apply operands_parse; exact Hargs|].
    exact Hsa.
  - apply call_tail_stop. rewrite He. reflexivity.
Qed.

End NewAndSuper.

(* ================================================================== *)
(** ** Prefix operators *)

Section PrefixOperators.

Definition prefix_ops : list string := ["+"; "-"; "!"].

(** The text begins an operand or a prefix operator. *)
Definition prefix_start (s : string) : bool :=
  operand_start s
  || match s with
     | String c _ => is_one_of "+-!" c
     | EmptyString => false
     end.

Lemma classify_prefix_op op s :
  In op prefix_ops -> prefix_start s = true ->
  classify Spec (op ++ s) = Some (op_type op, op).
Proof.
  intros H Hs. destruct s as [|c s]; [discriminate Hs|].
  repeat (destruct H as [<-|H]); [..|destruct H];
    destruct c as [[] [] [] [] [] [] [] []]; try discriminate Hs;
    reflexivity.
Qed.

Lemma prefix_op_type op :
  In op prefix_ops ->
  (op_type op = ADDITIVE_OPERATOR \/ op_type op = LOGICAL_NOT)
  /\ (0 <? String.length op)%nat = true
  /\ TokenType_beq (op_type op) IGNORE = false
  /\ TokenType_beq (op_type op) EOF = false.
Proof.
  intros H. repeat (destruct H as [<-|H]); [..|destruct H];
    split_all; auto.
Qed.

(** The prefix operators [ops], in their order, before [e]. *)
Definition prefixed (ops : list string) (e : Expression) : Expression :=
  fold_right UnaryExpression e ops.

Definition prefix_toks (ops : list string) : list Token :=
  map (fun op => mkToken (op_type op) op) ops.

Lemma prefix_start_text ops e s :
  Forall (fun op => In op prefix_ops) ops -> operand e ->
  prefix_start (String.concat EmptyString ops ++ Expression_ToString e ++ s)
  = true.
Proof.
  intros Hops [Hp Hw]. unfold prefix_start.
  destruct Hops as [|op ops Hop Hops].
  - cbn [String.concat append].
    rewrite (operand_start_app _ s (render_start e Hp Hw)). reflexivity.
  - apply orb_true_iff. right.
    destruct ops as [|op' ops]; cbn [String.concat];
      repeat (destruct Hop as [<-|Hop]; [reflexivity|]); destruct Hop.
Qed.

Lemma concat_cons op ops :
  String.concat EmptyString (op :: ops)
  = op ++ String.concat EmptyString ops.
Proof.
  destruct ops as [|op' ops]; cbn [String.concat append];
    [rewrite app_nil_r|]; reflexivity.
Qed.

Lemma lexes_to_prefixed ops e :
  Forall (fun op => In op prefix_ops) ops -> operand e ->
  lexes_to (String.concat EmptyString ops ++ Expression_ToString e)
           (prefix_toks ops ++ toks e)%list boundary.
Proof.
  intros Hops He. induction Hops as [|op ops Hop Hops IH].
  - destruct He. apply render_lexes; assumption.
  - rewrite concat_cons, app_assoc. cbn [prefix_toks map List.app].
    apply (lexes_to_app op [mkToken (op_type op) op] prefix_start);
      [|exact IH|].
    + apply lexes_to_token.
      * apply (prefix_op_type op Hop).
      * intros s Hs. apply classify_prefix_op; assumption.
    + intros s _. rewrite app_assoc.
      apply prefix_start_text; assumption.
Qed.

Lemma prefixed_runs ops e : forall p pE,
  Forall (fun op => In op prefix_ops) ops -> operand e ->
  stream p (prefix_toks ops ++ toks e)%list pE ->
  closer (Type_ (lookAhead pE)) = true ->
  runs unary p (prefixed ops e) pE.
Proof.
  intros p pE Hops He. revert p.
  induction Hops as [|op ops Hop Hops IH]; intros p Hs Hc.
  - cbn [prefix_toks map List.app] in Hs. apply operand_unary; auto.
  - cbn [prefix_toks map List.app] in Hs.
    apply stream_cons_inv in Hs as [Hl Hs].
    destruct (prefix_op_type op Hop) as (Hty & Hlen & _).
    cbn [prefixed fold_right].
    eapply unary_op; [exact Hl|exact Hty|exact Hlen|].
    apply IH; assumption.
Qed.

End PrefixOperators.

(* ================================================================== *)
(** ** Assignments written without blanks *)

Section TightAssignments.

(** Left sides, each before its assignment operator, and the right side
    that ends the chain. *)
Fixpoint assign_text (lefts : list (Expression * string)) (r : Expression)
  : string :=
  match lefts with
  | [] => Expression_ToString r
  | (l, op) :: rest => Expression_ToString l ++ op ++ assign_text rest r
  end.

Fixpoint assign_toks (lefts : list (Expression * string)) (r : Expression)
  : list Token :=
  match lefts with
  | [] => toks r
  | (l, op) :: rest =>
      (toks l ++ mkToken (assign_type op) op :: assign_toks rest r)%list
  end.

(** The tree in which every left side is assigned all that follows its
    operator. *)
Definition assign_tree (lefts : list (Expression * string)) (r : Expression)
  : Expression :=
  fold_right (fun lo acc => AssignmentExpression (snd lo) (fst lo) acc)
             r lefts.

Definition left_sides (lefts : list (Expression * string)) : Prop :=
  Forall (fun lo => operand (fst lo) /\ In (snd lo) assign_ops) lefts.

Lemma classify_assign_tight op s :
  In op assign_ops -> operand_start s = true ->
  classify Spec (op ++ s) = Some (assign_type op, op).
Proof.
  intros H Hs. destruct s as [|c s]; [discriminate Hs|].
  repeat (destruct H as [<-|H]); [..|destruct H];
    destruct c as [[] [] [] [] [] [] [] []]; try discriminate Hs;
    reflexivity.
Qed.

Lemma assign_type_not_IGNORE op :
  TokenType_beq (assign_type op) IGNORE = false.
Proof. unfold assign_type. destruct (is_op SIMPLE_ASSIGN op); reflexivity. Qed.

Lemma assign_text_start lefts r s :
  left_sides lefts -> operand r ->
  operand_start (assign_text lefts r ++ s) = true.
Proof.
  intros Hl [Hp Hw]. destruct Hl as [|[l op] rest [[Hpl Hwl] _] _];
    cbn [assign_text fst snd] in *.
  - apply operand_start_app, render_start; assumption.
  - rewrite app_assoc. apply operand_start_app, render_start; assumption.
Qed.

Lemma op_assign_boundary op s :
  In op assign_ops -> boundary (op ++ s) = true.
Proof.
  intros H. repeat (destruct H as [<-|H]; [reflexivity|]). destruct H.
Qed.

Lemma lexes_to_assign_text lefts r :
  left_sides lefts -> operand r ->
  lexes_to (assign_text lefts r) (assign_toks lefts r) boundary.
Proof.
  intros Hl Hr. induction Hl as [|[l op] rest [[Hpl Hwl] Hop] Hrest IH];
    cbn [assign_text assign_toks fst snd] in *.
  - destruct Hr. apply render_lexes; assumption.
  - apply lexes_to_app with (ok1 := boundary);
      [apply render_lexes; assumption| |].
    + apply (lexes_to_app op [mkToken (assign_type op) op] operand_start);
        [|exact IH|].
      * apply lexes_to_token; [apply assign_type_not_IGNORE|].
        intros s Hs. apply classify_assign_tight; assumption.
      * intros s _. apply assign_text_start; assumption.
    + intros s _. rewrite app_assoc. apply op_assign_boundary. exact Hop.
Qed.

Lemma assign_text_first lefts r p pE :
  left_sides lefts -> operand r ->
  stream p (assign_toks lefts r) pE ->
  first_ok (Type_ (lookAhead p)) = true.
Proof.
  intros Hl [Hp Hw] Hs. destruct Hl as [|[l op] rest [[Hpl Hwl] _] _];
    cbn [assign_toks fst snd] in *.
  - exact (stream_first r p pE Hp Hs).
  - apply stream_app_inv in Hs as (p1 & Hs & _).
    exact (stream_first l p p1 Hpl Hs).
Qed.

Lemma assign_text_runs lefts r : forall p pE,
  left_sides lefts -> operand r ->
  stream p (assign_toks lefts r) pE ->
  closer (Type_ (lookAhead pE)) = true ->
  runs assignmentExpression p (assign_tree lefts r) pE.
Proof.
  intros p pE Hl Hr. revert p.
  induction Hl as [|[l op] rest [Hol Hop] Hrest IH]; intros p Hs Hc;
    cbn [assign_toks assign_tree fold_right fst snd] in *.
  - destruct Hr as [Hp Hw]. apply parses_assignment; auto.
    apply parses_pure; assumption.
  - apply stream_app_inv in Hs as (p1 & Hsl & Hs).
    apply stream_cons_inv in Hs as [Hl1 Hsr].
    apply (assignment_node _ l p1 op _ pE); [|exact Hl1|].
    + eapply operand_logicalOr; [exact Hol|exact Hsl|exact Hl1].
    + apply IH; assumption.
Qed.

(** A chain of assignments up to the end of the input is the program of
    one statement, the assignments nested to the right. *)
Lemma parse_assign_text lefts r :
  left_sides lefts -> operand r ->
  parse (assign_text lefts r) = Ok (one (assign_tree lefts r)).
Proof.
  intros Hl Hr.
  destruct (stream_text _ _ (lexes_to_assign_text lefts r Hl Hr))
    as (pE & Hs & He).
  apply (parse_single _ _ pE).
  - apply first_ok_not_EOF. eapply assign_text_first; eauto.
  - apply expression_of_assignment, assign_text_runs;
      [exact Hl|exact Hr|exact Hs|rewrite He; reflexivity].
  - rewrite He. reflexivity.
Qed.

(** Prefix operators up to the end of the input. *)
Lemma parse_prefixed ops e :
  Forall (fun op => In op prefix_ops) ops -> operand e ->
  parse (String.concat EmptyString ops ++ Expression_ToString e)
  = Ok (one (prefixed ops e)).
Proof.
  intros Hops He.
  destruct (stream_text _ _ (lexes_to_prefixed ops e Hops He))
    as (pE & Hs & Heof).
  apply (parse_single _ _ pE).
  - destruct Hops as [|op ops Hop Hops].
    + apply first_ok_not_EOF. destruct He as [Hp _].
      eapply stream_first; eauto.
    + cbn [prefix_toks map List.app] in Hs.
      apply stream_cons_inv in Hs as [-> _]. cbn [Type_].
      apply (prefix_op_type op Hop).
  - apply climb; [|rewrite Heof; reflexivity].
    apply prefixed_runs; auto. rewrite Heof. reflexivity.
  - rewrite Heof. reflexivity.
Qed.

(** The two tokens of a source that is a run of digits. *)
Lemma calls_digits s :
  s <> EmptyString -> all is_digit s = true ->
  calls 2 (tokenizer.New s) = [mkToken NUMBER s; mkToken EOF EmptyString].
Proof.
  intros Hne Hd. destruct (start_of_digits s Hne Hd) as [H1 H2].
  unfold start_of in *.
  rewrite advance_poised, scanner_poised in H2.
  rewrite lookAhead_poised in H1, H2.
  rewrite !calls_S, H1, H2. reflexivity.
Qed.

End TightAssignments.

(* ================================================================== *)
(** ** Package [main] *)

Module main.

Definition input : string :=
  "a.b.c.d.e.f.g[h].i.j.k.funcion()()()()()()(a, b, c)".

(** [main]: what [fmt.Println] writes, the rendering and a newline; a panic
    of [Parse] ends the program before anything is written. *)
Definition main : result string :=
  match Parse (parser.New input) with
  | Ok (ast, _) => Ok (Program_ToString ast ++ newline)
  | Panic msg => Panic msg
  | OutOfFuel => OutOfFuel
  end.

End main.

(* ================================================================== *)
(** ** Properties of the specification *)

(** C2, as the code has it: the incomplete call [f(] fails in [primary],
    where the argument list meets the end of the input, with the message
    of that function; with an argument before the end of the input, [f(a],
    the failure is the one of [eat], which names RPAREN. *)
Theorem C2_incomplete_call :
  parse "f(" = Panic "Unexpected primary expression."
  /\ parse "f(a" = Panic "Unexpected end of input, expected: RPAREN".
Proof. split; vm_compute; reflexivity. Qed.

(** C2, as stated, fails: the message of the failure of [f(] does not name
    RPAREN. *)
Lemma C2_message_does_not_name_RPAREN :
  ~ (exists msg, parse "f(" = Panic msg /\ mentions "RPAREN" msg = true).
Proof.
  intros (msg & H & Hm).
  assert (E : parse "f(" = Panic "Unexpected primary expression.")
    by (vm_compute; reflexivity).
  rewrite E in H. injection H as <-. vm_compute in Hm. discriminate.
Qed.

(** C3: [1+2*3] parses to the tree whose rendering is [(1+(2*3))]: the
    product is the right operand of the sum. *)
Theorem C3_product_groups_tighter :
  parse "1+2*3"
  = Ok (one (BinaryExpression "+" (NumericLiteral 1)
               (BinaryExpression "*" (NumericLiteral 2) (NumericLiteral 3))))
  /\ Program_ToString
       (one (BinaryExpression "+" (NumericLiteral 1)
               (BinaryExpression "*" (NumericLiteral 2) (NumericLiteral 3))))
     = "(1+(2*3))".
Proof. split; vm_compute; reflexivity. Qed.

(** C4: assignment and prefix operators nest to the right.  In a chain of
    assignments, by any of the five assignment operators, every left side
    is assigned all that follows its operator; in a run of the prefix
    operators [+], [-] and [!] every operator applies to all that follows
    it.  The operands are renderings of pure, well-formed trees.  So
    [a=b=c] is [a = (b = c)] and [--a] is [-(-a)]. *)
Theorem C4_right_associative :
  (forall lefts r,
      left_sides lefts -> operand r ->
      parse (assign_text lefts r) = Ok (one (assign_tree lefts r)))
  /\ (forall ops e,
        Forall (fun op => In op prefix_ops) ops -> operand e ->
        parse (String.concat EmptyString ops ++ Expression_ToString e)
        = Ok (one (prefixed ops e)))
  /\ parse "a=b=c"
     = Ok (one (AssignmentExpression "=" (Identifier "a")
                  (AssignmentExpression "=" (Identifier "b")
                     (Identifier "c"))))
  /\ parse "--a"
     = Ok (one (UnaryExpression "-" (UnaryExpression "-" (Identifier "a")))).
Proof.
  split; [exact parse_assign_text|].
  split; [exact parse_prefixed|].
  split.
  - apply (parse_assign_text
             [(Identifier "a", "="); (Identifier "b", "=")] (Identifier "c")).
    + repeat (constructor;
              [split; [split; reflexivity|cbn; tauto]|]).
      constructor.
    + split; reflexivity.
  - apply (parse_prefixed ["-"; "-"] (Identifier "a")).
    + repeat (constructor; [cbn; tauto|]). constructor.
    + split; reflexivity.
Qed.

(** C4 at [x.y*=f(1)-=z] and at [!+-a]. *)
Lemma C4_right_associative_witness :
  parse "x.y*=f(1)-=z"
  = Ok (one (AssignmentExpression "*="
               (MemberExpression false (Identifier "x") (Identifier "y"))
               (AssignmentExpression "-="
                  (CallExpression (Identifier "f") [NumericLiteral 1])
                  (Identifier "z"))))
  /\ parse "!+-a"
     = Ok (one (UnaryExpression "!"
                  (UnaryExpression "+"
                     (UnaryExpression "-" (Identifier "a"))))).
Proof.
  split.
  - apply (proj1 C4_right_associative
             [(MemberExpression false (Identifier "x") (Identifier "y"), "*=");
              (CallExpression (Identifier "f") [NumericLiteral 1], "-=")]
             (Identifier "z")).
    + repeat (constructor;
              [split; [split; reflexivity|cbn; tauto]|]).
      constructor.
    + split; reflexivity.
  - apply (proj1 (proj2 C4_right_associative) ["!"; "+"; "-"]
             (Identifier "a")).
    + repeat (constructor; [cbn; tauto|]). constructor.
    + split; reflexivity.
Defined.

(** C9: the text of a NUMBER token goes through base-0 integer parsing.
    Every run of digits is one NUMBER token.  After a leading zero the
    digits are read in base eight: when all of them are below 8 the source
    is the program of that number (the range error of [strconv.ParseInt]
    from [2^63] on), and when one of them is 8 or 9 the parser panics, with
    the syntax error unless the digits before that one already exceed a
    [uint64].  So [010] is the numeral of 8, and [09], which the tokenizer
    accepts as one NUMBER token, makes the parser panic with the syntax
    error. *)
Theorem C9_base_zero_numbers :
  (forall s,
      s <> EmptyString -> all is_digit s = true ->
      calls 2 (tokenizer.New s)
      = [mkToken NUMBER s; mkToken EOF EmptyString])
  /\ (forall r,
        all (is_digit_of 8) r = true ->
        parse (String "0" r)
        = if (digits_value 8 0 r <? 2 ^ 63)%Z
          then Ok (one (NumericLiteral (digits_value 8 0 r)))
          else Panic (strconv.Error (String "0" r) strconv.ErrRange))
  /\ (forall a c r,
        all (is_digit_of 8) a = true ->
        is_digit c = true -> is_digit_of 8 c = false ->
        all is_digit r = true ->
        parse (String "0" (a ++ String c r))
        = Panic (strconv.Error (String "0" (a ++ String c r))
                   (if (digits_value 8 0 a <=? strconv.maxUint64)%Z
                    then strconv.ErrSyntax else strconv.ErrRange)))
  /\ parse "010" = Ok (one (NumericLiteral 8))
  /\ calls 2 (tokenizer.New "09")
     = [mkToken NUMBER "09"; mkToken EOF EmptyString]
  /\ parse "09" = Panic (strconv.Error "09" strconv.ErrSyntax).
Proof.
  split; [exact calls_digits|].
  split.
  { intros r Hr.
    rewrite parse_digits_source;
      [|discriminate|cbn [all]; rewrite (all_digit_of 8 r Hr); reflexivity].
    rewrite ParseInt_octal by assumption.
    destruct (_ <? _)%Z; reflexivity. }
  split.
  { intros a c r Ha Hc Hc8 Hr.
    rewrite parse_digits_source; [|discriminate|].
    - rewrite ParseInt_octal_bad by assumption.
      destruct (_ <=? _)%Z; reflexivity.
    - cbn [all]. change (is_digit "0") with true. cbn [andb].
      clear - Ha Hc Hr. induction a as [|x a IH]; cbn [append all].
      + rewrite Hc, Hr. reflexivity.
      + cbn [all] in Ha. apply andb_true_iff in Ha as [Hx Ha].
        unfold is_digit_of in Hx. apply andb_true_iff in Hx as [-> _].
        cbn [andb]. apply IH, Ha. }
  repeat split; vm_compute; reflexivity.
Qed.

(** C9 at [0755], at [0190] and at the tokens of [0190]. *)
Lemma C9_base_zero_numbers_witness :
  parse "0755" = Ok (one (NumericLiteral 493))
  /\ parse "0190" = Panic (strconv.Error "0190" strconv.ErrSyntax)
  /\ calls 2 (tokenizer.New "0190")
     = [mkToken NUMBER "0190"; mkToken EOF EmptyString].
Proof.
  split; [|split].
  - apply (proj1 (proj2 C9_base_zero_numbers) "755"). reflexivity.
  - apply (proj1 (proj2 (proj2 C9_base_zero_numbers))
             "1" "9"%char "0"); reflexivity.
  - apply (proj1 C9_base_zero_numbers "0190"); [discriminate|reflexivity].
Defined.

(** C6: no call of [GetNextToken], from whatever state of the tokenizer,
    returns a token of type IGNORE; the source of the example, with its
    two comments and its blanks, yields NUMBER 1, ADDITIVE +, NUMBER 2 and
    the end of the input. *)
Theorem C6_no_IGNORE_token :
  (forall t n, Forall (fun tok => Type_ tok <> IGNORE) (calls n t))
  /\ calls 4 (tokenizer.New ("1 /* c */ + // c" ++ newline ++ " 2"))
     = [mkToken NUMBER "1"; mkToken ADDITIVE_OPERATOR "+";
        mkToken NUMBER "2"; mkToken EOF EmptyString].
Proof.
  split; [|vm_compute; reflexivity].
  intros t n. revert t. induction n as [|n IH]; intros t; [constructor|].
  rewrite calls_S. constructor; [apply GetNextToken_not_IGNORE|apply IH].
Qed.



(** C10: a source in which the tokenizer finds a SEMICOLON token does not
    parse: the grammar has no rule that eats one, so the parse panics.  In
    [a;b] the statement loop meets it after the statement [a], and
    [primary] panics. *)
Theorem C10_semicolon_is_fatal :
  (forall source n tok,
      In tok (calls n (tokenizer.New source)) ->
      Type_ tok = SEMICOLON ->
      exists msg, parse source = Panic msg)
  /\ calls 3 (tokenizer.New "a;b")
     = [mkToken IDENTIFIER "a"; mkToken SEMICOLON ";";
        mkToken IDENTIFIER "b"]
  /\ parse "a;b" = Panic "Unexpected primary expression.".
Proof.
  split; [|split; vm_compute; reflexivity].
  intros source n tok Hin Hty. unfold parse.
  destruct (Parse (parser.New source)) as [[prog p']|msg|] eqn:E.
  - exfalso. apply Parse_Ok_calls with (n := n) in E.
    rewrite Forall_forall in E. specialize (E tok Hin).
    rewrite Hty in E. destruct E; discriminate.
  - eauto.
  - exfalso. exact (Parse_total _ E).
Qed.

(** C10 at the source [a;b], whose second token is the semicolon. *)
Lemma C10_semicolon_is_fatal_witness :
  exists msg, parse "a;b" = Panic msg.
Proof.
  apply (proj1 C10_semicolon_is_fatal "a;b" 2 (mkToken SEMICOLON ";")).
  - vm_compute. right. left. reflexivity.
  - reflexivity.
Defined.

(** C7, as the specification states it, fails: [(f()).b] is made of a call
    and a member access only and parses to [member_of_call]; the rendering
    of that tree drops the parentheses, and [f().b] does not parse, since
    [callMemberExp] returns after the call and the statement loop then meets
    the dot. *)
Lemma C7_call_object_not_reparsed :
  parse "(f()).b" = Ok (one member_of_call)
  /\ Program_ToString (one member_of_call) = "f().b"
  /\ parse (Program_ToString (one member_of_call))
     = Panic "Unexpected primary expression.".
Proof. repeat split; vm_compute; reflexivity. Qed.

(** C7, amended: when a source parses to one expression made of literals,
    names, [this], unary, binary and logical operators, member accesses and
    calls, in which no member access has a call as its object ([pure]),
    the rendering of the tree parses, and to the same tree. *)
Theorem C7_round_trip source e :
  parse source = Ok (one e) -> pure e = true ->
  parse (Program_ToString (one e)) = Ok (one e).
Proof.
  intros H Hp. rewrite Program_ToString_one.
  apply reparse; [exact Hp|]. eapply parse_wf. exact H.
Qed.

(** C7 at the source [a.b[i](1, 'x') * -c < 010 || !d == true], rendered as
    [(((a.b[i](1, 'x')*(-c))<8)||((!d)==true))]. *)
Lemma C7_round_trip_witness :
  parse "a.b[i](1, 'x') * -c < 010 || !d == true" = Ok (one sample)
  /\ pure sample = true
  /\ parse (Program_ToString (one sample)) = Ok (one sample).
Proof.
  assert (H : parse "a.b[i](1, 'x') * -c < 010 || !d == true"
              = Ok (one sample)) by (vm_compute; reflexivity).
  split; [exact H|]. split; [reflexivity|].
  apply (C7_round_trip "a.b[i](1, 'x') * -c < 010 || !d == true" sample).
  - exact H.
  - reflexivity.
Defined.

(** C1, as the specification states it, fails: the token of the source
    ["foo"] and the node made from it hold the five characters of the
    literal, the two quotes among them, not the three between the quotes. *)
Lemma C1_quotes_not_stripped :
  fst (GetNextToken (tokenizer.New (quoted dquote "foo")))
  = mkToken STRING (quoted dquote "foo")
  /\ parse (quoted dquote "foo")
     = Ok (one (StringLiteral (quoted dquote "foo")))
  /\ parse (quoted dquote "foo") <> Ok (one (StringLiteral "foo"))
  /\ String.length (quoted dquote "foo") = 5.
Proof.
  split; [vm_compute; reflexivity|].
  split; [vm_compute; reflexivity|].
  split; [vm_compute; discriminate|reflexivity].
Qed.

(** C1, amended: for a source that is one string literal, in double or in
    single quotes, the STRING token and the [StringLiteral] node hold the
    text of the literal as it is written, with its two quotes. *)
Theorem C1_string_literal_keeps_quotes q body :
  q = dquote \/ q = squote -> all (is_not q) body = true ->
  fst (GetNextToken (tokenizer.New (quoted q body)))
  = mkToken STRING (quoted q body)
  /\ parse (quoted q body) = Ok (one (StringLiteral (quoted q body))).
Proof.
  intros Hq Hb. pose proof (quoted_string_ok q body Hq Hb) as Hok. split.
  - rewrite (lex_head _ (quoted q body) STRING (quoted q body));
      [reflexivity|apply Unread_New| |reflexivity].
    rewrite <- (app_nil_r (quoted q body)) at 1.
    apply classify_string. exact Hok.
  - apply (reparse (StringLiteral (quoted q body))); [reflexivity|exact Hok].
Qed.

(** C1 at the source ['bar']. *)
Lemma C1_string_literal_keeps_quotes_witness :
  fst (GetNextToken (tokenizer.New (quoted squote "bar")))
  = mkToken STRING (quoted squote "bar")
  /\ parse (quoted squote "bar")
     = Ok (one (StringLiteral (quoted squote "bar"))).
Proof.
  apply (C1_string_literal_keeps_quotes squote "bar").
  - right. reflexivity.
  - reflexivity.
Defined.

(** C5: a keyword rule matches only when the keyword ends at a word
    boundary.  [let letter = 5] is the tokens LET, IDENTIFIER [letter],
    [=] and [5]; [lettuce] is one IDENTIFIER.  In general a keyword that
    goes on with a word character is the beginning of an IDENTIFIER, which
    runs to the first character that is not a word character; a keyword
    before such a character is the keyword's token. *)
Theorem C5_keywords_end_at_word_boundary :
  calls 5 (tokenizer.New "let letter = 5")
  = [mkToken LET "let"; mkToken IDENTIFIER "letter";
     mkToken SIMPLE_ASSIGN "="; mkToken NUMBER "5"; mkToken EOF EmptyString]
  /\ calls 2 (tokenizer.New "lettuce")
     = [mkToken IDENTIFIER "lettuce"; mkToken EOF EmptyString]
  /\ (forall kw ty c rest,
        In (kw, ty) keywords -> is_word c = true ->
        fst (GetNextToken (tokenizer.New (kw ++ String c rest)))
        = mkToken IDENTIFIER (kw ++ String c (take_while is_word rest)))
  /\ (forall kw ty s,
        In (kw, ty) keywords -> boundary s = true ->
        fst (GetNextToken (tokenizer.New (kw ++ s))) = mkToken ty kw).
Proof.
  split; [vm_compute; reflexivity|].
  split; [vm_compute; reflexivity|]. split.
  - intros kw ty c rest Hin Hc.
    rewrite (lex_head _ _ _ _ (Unread_New _)
               (keyword_prefix_identifier kw ty c rest Hin Hc) eq_refl).
    reflexivity.
  - intros kw ty s Hin Hs.
    rewrite (lex_head _ (kw ++ s) ty kw);
      [reflexivity|apply Unread_New| |].
    + apply classify_word; [| |exact Hs];
        unfold keywords in Hin;
        repeat (destruct Hin as [Hin|Hin];
                [injection Hin as <- <-; reflexivity|]);
        destruct Hin.
    + unfold keywords in Hin.
      repeat (destruct Hin as [Hin|Hin];
              [injection Hin as <- <-; reflexivity|]).
      destruct Hin.
Qed.

(** C5 at [lettuce], the keyword [let] before the word character [t], and
    at [let letter], the keyword before a blank. *)
Lemma C5_keywords_end_at_word_boundary_witness :
  fst (GetNextToken (tokenizer.New "lettuce")) = mkToken IDENTIFIER "lettuce"
  /\ fst (GetNextToken (tokenizer.New "let letter")) = mkToken LET "let".
Proof.
  split.
  - apply (proj1 (proj2 (proj2 C5_keywords_end_at_word_boundary))
             "let" LET "t"%char "uce").
    + left. reflexivity.
    + reflexivity.
  - apply (proj2 (proj2 (proj2 C5_keywords_end_at_word_boundary))
             "let" LET " letter").
    + left. reflexivity.
    + reflexivity.
Defined.

(* ================================================================== *)
(** ** Further properties of the tokenizer *)

(** X1: [GetNextToken] never changes the input and never moves the cursor
    back nor past the end of the input; a token other than EOF and ERROR is
    not empty and is the piece of the input that ends at the new cursor. *)
Theorem X1_token_is_a_piece_of_the_input t :
  cursor t <= String.length (input t) ->
  input (snd (GetNextToken t)) = input t
  /\ cursor t <= cursor (snd (GetNextToken t)) <= String.length (input t)
  /\ (is_end (Type_ (fst (GetNextToken t))) = false ->
      0 < String.length (Value (fst (GetNextToken t)))
      /\ substring
           (cursor (snd (GetNextToken t))
            - String.length (Value (fst (GetNextToken t))))
           (String.length (Value (fst (GetNextToken t)))) (input t)
         = Value (fst (GetNextToken t))).
Proof.
  intros Hc. destruct (GetNextToken_slice t Hc) as (H1 & H2 & H3).
  split_all; try assumption; try lia.
  intros He. destruct (H3 He) as [H4 H5]. split; [lia|exact H5].
Qed.

(** X1 after the blanks of [ab  cd], from its third byte. *)
Lemma X1_token_is_a_piece_of_the_input_witness :
  GetNextToken (mkTokenizer "ab  cd" 2)
  = (mkToken IDENTIFIER "cd", mkTokenizer "ab  cd" 6)
  /\ substring (6 - 2) 2 "ab  cd" = "cd".
Proof.
  assert (E : GetNextToken (mkTokenizer "ab  cd" 2)
              = (mkToken IDENTIFIER "cd", mkTokenizer "ab  cd" 6))
    by (vm_compute; reflexivity).
  split; [exact E|].
  pose proof (X1_token_is_a_piece_of_the_input (mkTokenizer "ab  cd" 2)
                ltac:(cbn; lia)) as (_ & _ & H).
  rewrite E in H. cbn [fst snd Type_ Value cursor input String.length] in H.
  apply H. reflexivity.
Defined.

(** X2: once [GetNextToken] has returned EOF or ERROR it returns the same
    token at every later call, and the tokenizer no longer moves: an ERROR,
    which is returned without consuming the byte no rule matches, is never
    got past. *)
Theorem X2_end_of_the_tokens_is_final t :
  is_end (Type_ (fst (GetNextToken t))) = true ->
  GetNextToken (snd (GetNextToken t)) = GetNextToken t
  /\ forall n, Forall (fun tok => tok = fst (GetNextToken t)) (calls n t).
Proof.
  intros He. split; [apply GetNextToken_end_again; exact He|].
  intros n. apply calls_after_end. exact He.
Qed.

(** X2 at the source [@ 1], whose first byte no rule matches. *)
Lemma X2_end_of_the_tokens_is_final_witness :
  calls 3 (tokenizer.New "@ 1")
  = [mkToken ERROR EmptyString; mkToken ERROR EmptyString;
     mkToken ERROR EmptyString]
  /\ Forall (fun tok => tok = fst (GetNextToken (tokenizer.New "@ 1")))
            (calls 3 (tokenizer.New "@ 1")).
Proof.
  split; [vm_compute; reflexivity|].
  apply (X2_end_of_the_tokens_is_final (tokenizer.New "@ 1")).
  vm_compute. reflexivity.
Defined.

(** X3: a tokenizer returns at most as many tokens other than EOF and
    ERROR as it has unread bytes: of any number of successive calls, those
    after the first [unread t] return EOF or ERROR. *)
Theorem X3_tokens_are_at_most_the_bytes n t :
  Forall (fun tok => is_end (Type_ tok) = true)
         (skipn (unread t) (calls n t)).
Proof.
  revert t. induction n as [|n IH]; intros t.
  - cbn [calls]. rewrite skipn_nil. constructor.
  - rewrite calls_S.
    destruct (is_end (Type_ (fst (GetNextToken t)))) eqn:He.
    + apply Forall_skipn with (a := 0); [|lia]. cbn [skipn].
      constructor; [exact He|].
      pose proof (GetNextToken_end_again t He) as Hr.
      eapply Forall_impl;
        [|apply (calls_after_end n (snd (GetNextToken t)));
          rewrite Hr; exact He].
      cbn beta. intros tok ->. rewrite Hr. exact He.
    + destruct (GetNextToken_unread t) as (_ & _ & Hlt).
      specialize (Hlt He).
      destruct (unread t) as [|k]; [lia|]. cbn [skipn].
      apply Forall_skipn with (a := unread (snd (GetNextToken t)));
        [apply IH|lia].
Qed.

(** X4: the text of a token is what its type allows: the one spelling of a
    delimiter, a keyword or a one-spelling operator, digits for a NUMBER, a
    quoted text for a STRING, one of the operators of its type for the
    others, a word that no keyword rule and no NUMBER rule takes for an
    IDENTIFIER, and the empty text for EOF and ERROR. *)
Theorem X4_text_of_a_token t : token_text (fst (GetNextToken t)) = true.
Proof.
  apply (GetNextToken_ind (fun _ r => token_text (fst r) = true));
    cbn [fst]; intros; auto.
  match goal with
  | Hfm : first_match _ _ _ = Some _ |- _ =>
      rewrite first_match_classify in Hfm;
      destruct (classify Spec _) as [[ty' v']|] eqn:Hc; [|discriminate];
      injection Hfm as <- <- _
  end.
  eapply classify_token_text; eauto.
Qed.

(** X5: white space, a line comment up to the end of its line and a block
    comment up to its first [*/] yield no token: the call goes on from the
    byte after them. *)
Theorem X5_ignored_text_is_skipped t x s :
  Unread t (x ++ s) -> ignorable x s ->
  GetNextToken t = GetNextToken (seek t (String.length x)).
Proof.
  intros Hu Hi. apply (lex_skip t x s Hu). apply classify_ignorable, Hi.
Qed.

(** X5 at a block comment that holds a star and a slash. *)
Lemma X5_ignored_text_is_skipped_witness :
  GetNextToken (tokenizer.New "/* a*b / c */x")
  = GetNextToken (mkTokenizer "/* a*b / c */x" 13).
Proof.
  apply (X5_ignored_text_is_skipped (tokenizer.New "/* a*b / c */x")
           ("/*" ++ " a*b / c " ++ "*/") "x").
  - apply Unread_New.
  - apply ignorable_block. reflexivity.
Defined.

(* ================================================================== *)
(** ** Further properties of the parser *)

(** X6: a source of white space only, the empty source among them, is the
    program of no statement. *)
Theorem X6_blank_source s :
  all is_space s = true -> parse s = Ok (mkProgram []).
Proof.
  intros Hs.
  assert (He : GetNextToken (tokenizer.New s)
               = (mkToken EOF EmptyString,
                  seek (tokenizer.New s) (String.length s))).
  { destruct s as [|c r].
    - reflexivity.
    - assert (Hu : Unread (tokenizer.New (String c r))
                          (String c r ++ EmptyString))
        by (rewrite app_nil_r; apply Unread_New).
      rewrite (lex_skip _ _ _ Hu).
      + apply lex_eof. apply Unread_seek. exact Hu.
      + apply classify_blanks; [discriminate|exact Hs|reflexivity]. }
  unfold parse.
  rewrite <- (Parse_fuel_enough (S (Parse_budget (parser.New s)))) by lia.
  unfold Parse_fuel, program. rewrite advance_New.
  unfold start_of, poised. rewrite He.
  rewrite statementList_S. reflexivity.
Qed.

(** X6 at a source of a blank, a tab and a newline. *)
Lemma X6_blank_source_witness :
  parse (String " " (String "009" (String "010" EmptyString)))
  = Ok (mkProgram []).
Proof. apply X6_blank_source. reflexivity. Defined.

(** X7: [Parse] comes to an end on every source, with a program or with a
    panic: between two tokens the parsing functions call one another at
    most sixteen deep, and every token eaten shortens what is left, so the
    budget of the model is never exhausted and a larger one changes
    nothing. *)
Theorem X7_Parse_terminates source :
  parse source <> OutOfFuel
  /\ forall fuel,
       Parse_budget (parser.New source) <= fuel ->
       Parse_fuel fuel (parser.New source) = Parse (parser.New source).
Proof.
  split.
  - unfold parse. pose proof (Parse_total (parser.New source)) as H.
    destruct (Parse (parser.New source)) as [[prog p']|msg|];
      [discriminate|discriminate|congruence].
  - intros fuel Hf. apply Parse_fuel_enough. exact Hf.
Qed.

(** X8: when [Parse] returns a program it has read the whole source: the
    lookahead is EOF, the scanner still holds the source and its cursor is
    at the end. *)
Theorem X8_Parse_reads_the_whole_source source prog p' :
  Parse (parser.New source) = Ok (prog, p') ->
  Type_ (lookAhead p') = EOF
  /\ input (scanner p') = source
  /\ cursor (scanner p') = String.length source.
Proof.
  intros H. apply Parse_Ok_reach in H as [Hr He].
  assert (H0 : reads source (advance (parser.New source)))
    by (apply reads_advance; [reflexivity|cbn; lia]).
  destruct (reads_reach source _ _ Hr H0) as (H1 & H2 & H3).
  split_all; auto.
Qed.

(** X8 at the source [a + 1 ]. *)
Lemma X8_Parse_reads_the_whole_source_witness :
  exists prog p',
    Parse (parser.New "a + 1 ") = Ok (prog, p')
    /\ cursor (scanner p') = 6.
Proof.
  destruct (Parse (parser.New "a + 1 ")) as [[prog p']|msg|] eqn:E;
    [|vm_compute in E; discriminate E..].
  exists prog, p'. split; [reflexivity|].
  apply (X8_Parse_reads_the_whole_source "a + 1 " prog p' E).
Defined.

(** X9: the grammar eats no brace, no semicolon, none of the keywords
    [let], [if], [else], [def], [return], [while], [do], [for], [class] and
    [extends], and no ERROR token: a source in which the tokenizer finds
    one of them does not parse. *)
Theorem X9_token_without_a_rule_is_fatal source n tok :
  In tok (calls n (tokenizer.New source)) ->
  eatable (Type_ tok) = false -> Type_ tok <> EOF ->
  exists msg, parse source = Panic msg.
Proof.
  intros Hin Hty Hne. unfold parse.
  destruct (Parse (parser.New source)) as [[prog p']|msg|] eqn:E.
  - exfalso. apply Parse_Ok_calls with (n := n) in E.
    rewrite Forall_forall in E. specialize (E tok Hin).
    destruct E; congruence.
  - eauto.
  - exfalso. exact (Parse_total _ E).
Qed.

(** X9 at the source [x = 1 while], whose fourth token is a keyword. *)
Lemma X9_token_without_a_rule_is_fatal_witness :
  exists msg, parse "x = 1 while" = Panic msg.
Proof.
  apply (X9_token_without_a_rule_is_fatal "x = 1 while" 4
           (mkToken WHILE "while")).
  - vm_compute. do 3 right. left. reflexivity.
  - reflexivity.
  - discriminate.
Defined.

(** X10: every tree of a program that [Parse] returns is well formed: a
    number is within the non-negative [int64], a string is a quoted text, a
    name is an IDENTIFIER, the operator of a node is one of its level, and
    the property of a dot access is a name. *)
Theorem X10_parsed_trees_are_well_formed source prog :
  parse source = Ok prog ->
  forallb wf_statement (Statements prog) = true.
Proof.
  unfold parse.
  destruct (Parse (parser.New source)) as [[prog' p']|msg|] eqn:E;
    intros H; try discriminate H.
  injection H as <-. eapply Parse_wf. exact E.
Qed.

(** X10 at the source [a.b = -1 < c(2)]. *)
Lemma X10_parsed_trees_are_well_formed_witness :
  exists prog,
    parse "a.b = -1 < c(2)" = Ok prog
    /\ forallb wf_statement (Statements prog) = true.
Proof.
  destruct (parse "a.b = -1 < c(2)") as [prog|msg|] eqn:E;
    [|vm_compute in E; discriminate E..].
  exists prog. split; [reflexivity|].
  apply (X10_parsed_trees_are_well_formed "a.b = -1 < c(2)" prog E).
Defined.

(** X11: [Parse] panics with the message of [primary], with one of the two
    messages of [eat], or with the error of [strconv.ParseInt]; the panic
    at the end of [literal] is never reached. *)
Theorem X11_messages_of_the_panics source msg :
  parse source = Panic msg ->
  known_panic msg /\ msg <> "Literal: unexpected literal production.".
Proof.
  unfold parse.
  destruct (Parse (parser.New source)) as [[prog p']|msg'|] eqn:E;
    intros H; try discriminate H.
  assert (msg' = msg) by congruence. subst msg'.
  apply safe_Parse in E. split; [exact E|].
  destruct E as [->|[[tt ->]|[(ty & tt & ->)|(s & err & ->)]]]; discriminate.
Qed.

(** X11 at the source [1 +]. *)
Lemma X11_messages_of_the_panics_witness :
  parse "1 +" = Panic "Unexpected primary expression."
  /\ known_panic "Unexpected primary expression.".
Proof.
  assert (E : parse "1 +" = Panic "Unexpected primary expression.")
    by (vm_compute; reflexivity).
  split; [exact E|].
  apply (X11_messages_of_the_panics "1 +" _ E).
Defined.

(** X12: a source whose first token begins no expression (a closing
    delimiter, a comma, a dot, a brace, a bracket, a binary or an assignment
    operator, a keyword other than [true], [false], [null], [this], [new]
    and [super], or an ERROR) panics with the message of [primary]. *)
Theorem X12_first_token_begins_no_expression source :
  let ty := Type_ (fst (GetNextToken (tokenizer.New source))) in
  is_primary_type ty = false -> is_prefix_type ty = false -> ty <> EOF ->
  parse source = Panic "Unexpected primary expression.".
Proof.
  cbv zeta. rewrite <- lookAhead_poised. fold (start_of source).
  intros H1 H2 H3. apply parse_fails.
  - destruct (Type_ (lookAhead (start_of source))); try reflexivity.
    congruence.
  - apply primary_fails_up; [exact H2|].
    apply primary_fails_unexpected. exact H1.
Qed.

(** X12 at the source [* 2]. *)
Lemma X12_first_token_begins_no_expression_witness :
  parse "* 2" = Panic "Unexpected primary expression.".
Proof.
  apply (X12_first_token_begins_no_expression "* 2");
    [reflexivity|reflexivity|discriminate].
Defined.

(* ================================================================== *)
(** ** Further properties of numerals *)

(** X13: a source that is a run of digits without a leading zero is read in
    base ten: it is the program of that numeric literal when the number is
    below [2^63], and panics with the range error of [strconv.ParseInt]
    otherwise. *)
Theorem X13_decimal_numeral c r :
  is_digit c = true -> (c =? "0")%char = false -> all is_digit r = true ->
  parse (String c r)
  = if (digits_value 10 0 (String c r) <? 2 ^ 63)%Z
    then Ok (one (NumericLiteral (digits_value 10 0 (String c r))))
    else Panic (strconv.Error (String c r) strconv.ErrRange).
Proof.
  intros Hc H0 Hr.
  rewrite parse_digits_source;
    [|discriminate|cbn [all]; rewrite Hc, Hr; reflexivity].
  rewrite ParseInt_decimal by assumption.
  destruct (_ <? _)%Z; reflexivity.
Qed.

(** X13 at [9223372036854775807], the largest [int64], and at the number
    after it. *)
Lemma X13_decimal_numeral_witness :
  parse "9223372036854775807"
  = Ok (one (NumericLiteral 9223372036854775807))
  /\ parse "9223372036854775808"
     = Panic (strconv.Error "9223372036854775808" strconv.ErrRange).
Proof.
  split.
  - apply (X13_decimal_numeral "9" "223372036854775807"); reflexivity.
  - apply (X13_decimal_numeral "9" "223372036854775808"); reflexivity.
Defined.

(** X14: a run of digits after a leading zero is read in base eight.  When
    all of them are below 8 the source is the program of that number, or
    the range error from [2^63] on; when one of them is 8 or 9 it panics
    with the syntax error, or with the range error if the digits before
    that one already exceed a [uint64]. *)
Theorem X14_octal_numeral :
  (forall r,
      all (is_digit_of 8) r = true ->
      parse (String "0" r)
      = if (digits_value 8 0 r <? 2 ^ 63)%Z
        then Ok (one (NumericLiteral (digits_value 8 0 r)))
        else Panic (strconv.Error (String "0" r) strconv.ErrRange))
  /\ (forall a c r,
        all (is_digit_of 8) a = true ->
        is_digit c = true -> is_digit_of 8 c = false ->
        all is_digit r = true ->
        parse (String "0" (a ++ String c r))
        = Panic (strconv.Error (String "0" (a ++ String c r))
                   (if (digits_value 8 0 a <=? strconv.maxUint64)%Z
                    then strconv.ErrSyntax else strconv.ErrRange))).
Proof.
  split.
  - intros r Hr.
    rewrite parse_digits_source;
      [|discriminate|cbn [all]; rewrite (all_digit_of 8 r Hr); reflexivity].
    rewrite ParseInt_octal by assumption.
    destruct (_ <? _)%Z; reflexivity.
  - intros a c r Ha Hc Hc8 Hr.
    rewrite parse_digits_source; [|discriminate|].
    + rewrite ParseInt_octal_bad by assumption.
      destruct (_ <=? _)%Z; reflexivity.
    + cbn [all]. cbn [andb is_digit].
      change (is_digit "0") with true. cbn [andb].
      clear - Ha Hc Hr. induction a as [|x a IH]; cbn [append all].
      * rewrite Hc, Hr. reflexivity.
      * cbn [all] in Ha. apply andb_true_iff in Ha as [Hx Ha].
        unfold is_digit_of in Hx. apply andb_true_iff in Hx as [-> _].
        cbn [andb]. apply IH, Ha.
Qed.

(** X14 at [0777] and at [0778]. *)
Lemma X14_octal_numeral_witness :
  parse "0777" = Ok (one (NumericLiteral 511))
  /\ parse "0778" = Panic (strconv.Error "0778" strconv.ErrSyntax).
Proof.
  split.
  - apply (proj1 X14_octal_numeral "777"). reflexivity.
  - apply (proj2 X14_octal_numeral "77" "8"%char EmptyString); reflexivity.
Defined.

(** X15: the rendering of a numeric literal within the non-negative [int64]
    is digits without a leading zero (the numeral [0] apart), which
    [strconv.ParseInt] reads back as the same number. *)
Theorem X15_numeral_round_trip v :
  (0 <= v < 2 ^ 63)%Z ->
  all is_digit (Expression_ToString (NumericLiteral v)) = true
  /\ strconv.ParseInt (Expression_ToString (NumericLiteral v)) = inl v
  /\ parse (Expression_ToString (NumericLiteral v))
     = Ok (one (NumericLiteral v)).
Proof.
  intros Hv. destruct (format_int64_spec v Hv) as (Hne & Hd & Hp).
  cbn [Expression_ToString]. split_all; [exact Hd|exact Hp|].
  rewrite parse_digits_source by assumption. rewrite Hp. reflexivity.
Qed.

(** X15 at 1024. *)
Lemma X15_numeral_round_trip_witness :
  Expression_ToString (NumericLiteral 1024) = "1024"
  /\ parse "1024" = Ok (one (NumericLiteral 1024)).
Proof.
  split; [reflexivity|].
  apply (X15_numeral_round_trip 1024). split; [lia|reflexivity].
Defined.

(* ================================================================== *)
(** ** Further properties of the grammar *)

(** X16: binary operators of one level, written between rendered operands
    without parentheses, group to the left: each operator takes all that is
    before it as its left operand.  An operand is the rendering of a pure,
    well-formed tree. *)
Theorem X16_one_level_groups_to_the_left ty e0 rest :
  is_binop_type ty = true ->
  operand e0 ->
  Forall (fun oe => is_op ty (fst oe) = true /\ operand (snd oe)) rest ->
  parse (Expression_ToString e0 ++ chain_text rest)
  = Ok (one (fold_chain ty e0 rest)).
Proof.
  intros Hb H0 Hr.
  assert (Hr' : Forall (fun oe => In (fst oe) all_ops /\ operand (snd oe))
                       rest).
  { eapply Forall_impl; [|exact Hr]. cbn beta. intros oe [Ho Hoe].
    split; [|exact Hoe]. apply (is_op_binop ty); assumption. }
  destruct (stream_flat e0 rest H0 Hr') as (pE & Hs & He).
  pose proof (flat_first _ _ _ _ H0 Hs) as Hne.
  apply stream_app_inv in Hs as (p1 & Hs0 & Hs).
  destruct (chain_of_stream ty rest p1 pE Hb Hr Hs He) as [Hc Hnext].
  destruct (is_binop_not_EOF ty pE Hb He) as [Hty Hcl].
  apply (parse_single _ _ pE); [exact Hne| |rewrite He; reflexivity].
  apply (level_to_expression ty); [exact Hb| |exact Hcl].
  apply (level_chain ty _ e0 p1); [exact Hb| |exact Hc|exact Hty].
  assert (Hf : follows ty p1
               /\ ((exists ty' op, is_binop_type ty' = true
                                   /\ lookAhead p1 = mkToken ty' op)
                   \/ closer (Type_ (lookAhead p1)) = true)).
  { destruct rest as [|oe r].
    - apply stream_nil_inv in Hs. subst p1.
      split; right; exact Hcl.
    - destruct Hnext as [op Hl]; [discriminate|].
      split; [apply (follows_operator ty ty p1 op); auto|left; eauto]. }
  destruct Hf as [Hf Hn].
  apply unary_to_operand; [exact Hb| |exact Hf].
  apply operand_unary; assumption.
Qed.

(** X16 at [a-b+c-1]. *)
Lemma X16_one_level_groups_to_the_left_witness :
  parse "a-b+c-1"
  = Ok (one (BinaryExpression "-"
               (BinaryExpression "+"
                  (BinaryExpression "-" (Identifier "a") (Identifier "b"))
                  (Identifier "c"))
               (NumericLiteral 1))).
Proof.
  apply (X16_one_level_groups_to_the_left ADDITIVE_OPERATOR
           (Identifier "a")
           [("-", Identifier "b"); ("+", Identifier "c");
            ("-", NumericLiteral 1)]).
  - reflexivity.
  - split; reflexivity.
  - repeat (constructor; [split; [reflexivity|split; reflexivity]|]).
    constructor.
Defined.

(** X17: of two binary operators of different levels between three rendered
    operands, the one of the tighter level takes its two neighbours first,
    on whichever side it is; the levels are, from the loosest, [||], [&&],
    [== !=], [< > <= >=], [+ -] and [* /]. *)
Theorem X17_tighter_level_first ty1 ty2 o1 o2 a b c :
  is_binop_type ty1 = true -> is_binop_type ty2 = true ->
  rank ty1 < rank ty2 ->
  is_op ty1 o1 = true -> is_op ty2 o2 = true ->
  operand a -> operand b -> operand c ->
  parse (Expression_ToString a ++ o1 ++ Expression_ToString b
         ++ o2 ++ Expression_ToString c)
  = Ok (one (node_of ty1 o1 a (node_of ty2 o2 b c)))
  /\ parse (Expression_ToString a ++ o2 ++ Expression_ToString b
            ++ o1 ++ Expression_ToString c)
     = Ok (one (node_of ty1 o1 (node_of ty2 o2 a b) c)).
Proof.
  intros Hb1 Hb2 Hr Ho1 Ho2 Ha Hb Hc.
  destruct (is_op_binop ty1 o1 Ho1 Hb1) as [Ht1 Hi1].
  destruct (is_op_binop ty2 o2 Ho2 Hb2) as [Ht2 Hi2].
  assert (Hne12 : TokenType_beq ty1 ty2 = false /\
                  TokenType_beq ty2 ty1 = false).
  { destruct ty1; try discriminate Hb1; destruct ty2; try discriminate Hb2;
      cbn [rank] in Hr; try lia; split; reflexivity. }
  destruct Hne12 as [Hne12 Hne21].
  assert (E1 : ty1 <> EOF) by (intros ->; discriminate Hb1).
  assert (E2 : ty2 <> EOF) by (intros ->; discriminate Hb2).
  split.
  - destruct (stream_flat a [(o1, b); (o2, c)] Ha) as (pE & Hs & He).
    { constructor; [split; assumption|].
      constructor; [split; assumption|constructor]. }
    pose proof (flat_first _ _ _ _ Ha Hs) as Hne.
    cbn [chain_text chain_toks] in Hs, Hne.
    rewrite app_nil_r in Hs, Hne.
    apply stream_app_inv in Hs as (p1 & Hsa & Hs).
    apply stream_cons_inv in Hs as [Hl1 Hs].
    apply stream_app_inv in Hs as (p2 & Hsb & Hs).
    apply stream_cons_inv in Hs as [Hl2 Hs].
    rewrite List.app_nil_r in Hs.
    rewrite Ht1 in Hl1. rewrite Ht2 in Hl2.
    destruct (is_binop_not_EOF ty1 pE Hb1 He) as [Hty1 Hcl].
    destruct (is_binop_not_EOF ty2 pE Hb2 He) as [Hty2 _].
    apply (parse_single _ _ pE); [exact Hne| |rewrite He; reflexivity].
    apply (level_to_expression ty1); [exact Hb1| |exact Hcl].
    apply (level_node (operand_of ty1) (level_of ty1) ty1 (node_of ty1)
             _ a p1 o1 _ pE);
      [intros n; apply level_of_S; exact Hb1| |exact Hl1|exact E1| |exact Hty1].
    + apply unary_to_operand;
        [exact Hb1| |apply (follows_operator ty1 ty1 p1 o1); auto].
      apply operand_unary; [exact Ha|exact Hsa|left; eauto].
    + apply (level_to_operand ty1 ty2); [assumption..| |right; exact Hcl].
      apply (level_node (operand_of ty2) (level_of ty2) ty2 (node_of ty2)
               _ b p2 o2 _ pE);
        [intros n; apply level_of_S; exact Hb2| |exact Hl2|exact E2|
        |exact Hty2].
      * apply unary_to_operand;
          [exact Hb2| |apply (follows_operator ty2 ty2 p2 o2); auto].
        apply operand_unary; [exact Hb|exact Hsb|left; eauto].
      * apply unary_to_operand; [exact Hb2| |right; exact Hcl].
        apply operand_unary; [exact Hc|exact Hs|right; exact Hcl].
  - destruct (stream_flat a [(o2, b); (o1, c)] Ha) as (pE & Hs & He).
    { constructor; [split; assumption|].
      constructor; [split; assumption|constructor]. }
    pose proof (flat_first _ _ _ _ Ha Hs) as Hne.
    cbn [chain_text chain_toks] in Hs, Hne.
    rewrite app_nil_r in Hs, Hne.
    apply stream_app_inv in Hs as (p1 & Hsa & Hs).
    apply stream_cons_inv in Hs as [Hl2 Hs].
    apply stream_app_inv in Hs as (p2 & Hsb & Hs).
    apply stream_cons_inv in Hs as [Hl1 Hs].
    rewrite List.app_nil_r in Hs.
    rewrite Ht1 in Hl1. rewrite Ht2 in Hl2.
    destruct (is_binop_not_EOF ty1 pE Hb1 He) as [Hty1 Hcl].
    apply (parse_single _ _ pE); [exact Hne| |rewrite He; reflexivity].
    apply (level_to_expression ty1); [exact Hb1| |exact Hcl].
    apply (level_node (operand_of ty1) (level_of ty1) ty1 (node_of ty1)
             _ (node_of ty2 o2 a b) p2 o1 _ pE);
      [intros n; apply level_of_S; exact Hb1| |exact Hl1|exact E1| |exact Hty1].
    + apply (level_to_operand ty1 ty2);
        [assumption..| |apply (follows_operator ty1 ty1 p2 o1); auto].
      apply (level_node (operand_of ty2) (level_of ty2) ty2 (node_of ty2)
               _ a p1 o2 _ p2);
        [intros n; apply level_of_S; exact Hb2| |exact Hl2|exact E2|
        |rewrite Hl1; exact Hne12].
      * apply unary_to_operand;
          [exact Hb2| |apply (follows_operator ty2 ty2 p1 o2); auto].
        apply operand_unary; [exact Ha|exact Hsa|left; eauto].
      * apply unary_to_operand;
          [exact Hb2| |apply (follows_operator ty1 ty2 p2 o1); auto; lia].
        apply operand_unary; [exact Hb|exact Hsb|left; eauto].
    + apply unary_to_operand; [exact Hb1| |right; exact Hcl].
      apply operand_unary; [exact Hc|exact Hs|right; exact Hcl].
Qed.

(** X17 at [a==b<c] and [a<b==c]. *)
Lemma X17_tighter_level_first_witness :
  parse "a==b<c"
  = Ok (one (LogicalExpression "==" (Identifier "a")
               (BinaryExpression "<" (Identifier "b") (Identifier "c"))))
  /\ parse "a<b==c"
     = Ok (one (LogicalExpression "=="
                  (BinaryExpression "<" (Identifier "a") (Identifier "b"))
                  (Identifier "c"))).
Proof.
  apply (X17_tighter_level_first EQUALITY_OPERATOR RELATIONAL_OPERATOR
           "==" "<" (Identifier "a") (Identifier "b") (Identifier "c"));
    try reflexivity; try (split; reflexivity).
  cbn [rank]. lia.
Defined.

(** X18: a parenthesis that is not closed is one of the two panics of
    [eat]: after [(] and a rendered operand, the end of the input gives
    [Unexpected end of input, expected: RPAREN], and a closing bracket or a
    comma gives [Unexpected token], with the name of its type. *)
Theorem X18_parenthesis_not_closed e :
  operand e ->
  parse ("(" ++ Expression_ToString e)
  = Panic "Unexpected end of input, expected: RPAREN"
  /\ parse ("(" ++ Expression_ToString e ++ "]")
     = Panic "Unexpected token: RBRACKET, expected: RPAREN"
  /\ parse ("(" ++ Expression_ToString e ++ ",")
     = Panic "Unexpected token: COMMA, expected: RPAREN".
Proof.
  intros He. split_all.
  - rewrite <- (app_nil_r (Expression_ToString e)).
    apply (open_fails e EmptyString []);
      [exact He|apply lexes_to_nil|reflexivity|].
    intros p1 pE Hs Hf. apply stream_nil_inv in Hs. subst pE.
    split; [rewrite Hf; reflexivity|].
    unfold eat. rewrite Hf. reflexivity.
  - apply (open_fails e "]" [mkToken RBRACKET "]"]);
      [exact He|apply lexes_to_punct; cbn [In]; tauto|reflexivity|].
    intros p1 pE Hs _. apply stream_cons_inv in Hs as [Hl _].
    split; [rewrite Hl; reflexivity|]. unfold eat. rewrite Hl. reflexivity.
  - apply (open_fails e "," [mkToken COMMA ","]);
      [exact He|apply lexes_to_punct; cbn [In]; tauto|reflexivity|].
    intros p1 pE Hs _. apply stream_cons_inv in Hs as [Hl _].
    split; [rewrite Hl; reflexivity|]. unfold eat. rewrite Hl. reflexivity.
Qed.

(** X18 at the operand [a.b]. *)
Lemma X18_parenthesis_not_closed_witness :
  parse "(a.b" = Panic "Unexpected end of input, expected: RPAREN"
  /\ parse "(a.b]" = Panic "Unexpected token: RBRACKET, expected: RPAREN"
  /\ parse "(a.b," = Panic "Unexpected token: COMMA, expected: RPAREN".
Proof.
  apply (X18_parenthesis_not_closed
           (MemberExpression false (Identifier "a") (Identifier "b"))).
  split; reflexivity.
Defined.

(* ================================================================== *)
(** ** Further properties of the rendering *)

(** X19: the rendering tells pure, well-formed trees apart: two of them with
    the same text are the same tree. *)
Theorem X19_rendering_is_injective e1 e2 :
  operand e1 -> operand e2 ->
  Expression_ToString e1 = Expression_ToString e2 -> e1 = e2.
Proof.
  intros [Hp1 Hw1] [Hp2 Hw2] H.
  pose proof (reparse e1 Hp1 Hw1) as R1.
  pose proof (reparse e2 Hp2 Hw2) as R2.
  rewrite H, R2 in R1. injection R1 as R1. symmetry. exact R1.
Qed.

(** X19 at the renderings of [a-(b-c)] and [(a-b)-c]. *)
Lemma X19_rendering_is_injective_witness :
  Expression_ToString
    (BinaryExpression "-" (Identifier "a")
       (BinaryExpression "-" (Identifier "b") (Identifier "c")))
  <> Expression_ToString
       (BinaryExpression "-"
          (BinaryExpression "-" (Identifier "a") (Identifier "b"))
          (Identifier "c")).
Proof.
  intros H.
  apply X19_rendering_is_injective in H;
    [discriminate H|split; reflexivity|split; reflexivity].
Defined.

(** X20: assignments group to the right and their rendering parses back:
    for a tree that is an operand (a pure, well-formed tree) or the
    assignment, by one of the five assignment operators, of such a tree to
    an operand, the rendering parses to the tree. *)
Theorem X20_assignment_round_trip e :
  assignable e = true ->
  parse (Program_ToString (one e)) = Ok (one e).
Proof.
  intros H. rewrite Program_ToString_one.
  destruct (stream_text _ _ (lexes_to_assignable e H)) as (pE & Hs & He).
  apply (parse_single _ _ pE).
  - apply first_ok_not_EOF. eapply assignable_first; eauto.
  - apply expression_of_assignment, assignable_runs;
      [exact H|exact Hs|rewrite He; reflexivity].
  - rewrite He. reflexivity.
Qed.

(** X20 at [a.b += c = (d*2)]. *)
Lemma X20_assignment_round_trip_witness :
  Program_ToString
    (one (AssignmentExpression "+="
            (MemberExpression false (Identifier "a") (Identifier "b"))
            (AssignmentExpression "=" (Identifier "c")
               (BinaryExpression "*" (Identifier "d") (NumericLiteral 2)))))
  = "a.b += c = (d*2)"
  /\ parse "a.b += c = (d*2)"
     = Ok (one (AssignmentExpression "+="
                  (MemberExpression false (Identifier "a") (Identifier "b"))
                  (AssignmentExpression "=" (Identifier "c")
                     (BinaryExpression "*" (Identifier "d")
                        (NumericLiteral 2))))).
Proof.
  split; [reflexivity|].
  apply (X20_assignment_round_trip
           (AssignmentExpression "+="
              (MemberExpression false (Identifier "a") (Identifier "b"))
              (AssignmentExpression "=" (Identifier "c")
                 (BinaryExpression "*" (Identifier "d")
                    (NumericLiteral 2))))).
  reflexivity.
Defined.


(** X22: the names of the token types that [eat] prints are all
    different. *)
Theorem X22_TokenNames_injective a b : TokenNames a = TokenNames b -> a = b.
Proof.
  destruct a; destruct b; intros H; try reflexivity; discriminate H.
Qed.

(** X22 at two names that begin alike. *)
Lemma X22_TokenNames_injective_witness :
  TokenNames LOGICAL_AND <> TokenNames LOGICAL_OR.
Proof.
  intros H. apply X22_TokenNames_injective in H. discriminate H.
Defined.

(** X23: expression statements are written one after the other and need no
    separator: the renderings of operands with a blank between them, of
    which all but the first begin without a parenthesis, are the program of
    these statements in their order.  (After an operand, a parenthesis
    would be read as the arguments of a call.) *)
Theorem X23_statements_in_sequence es :
  sequence es ->
  parse (String.concat " " (map Expression_ToString es))
  = Ok (mkProgram (map ExpressionStatement es)).
Proof.
  intros Hseq.
  destruct (stream_text _ _ (lexes_to_sequence es (proj1 Hseq)))
    as (pE & Hs & He).
  destruct (statementList_run es [] _ pE Hseq Hs) as [n0 H];
    [rewrite He; reflexivity|].
  unfold parse.
  set (source := String.concat " " (map Expression_ToString es)) in *.
  set (fuel := n0 + Parse_budget (parser.New source)).
  rewrite <- (Parse_fuel_enough fuel) by (unfold fuel; lia).
  unfold Parse_fuel, program. rewrite advance_New.
  rewrite (bind_Ok_then _ _ _ _ _ (H fuel ltac:(unfold fuel; lia))).
  reflexivity.
Qed.

(** X23 at [a.b 1 c(2)], and [a (b)], which is a call. *)
Lemma X23_statements_in_sequence_witness :
  parse "a.b 1 c(2)"
  = Ok (mkProgram
          [ExpressionStatement
             (MemberExpression false (Identifier "a") (Identifier "b"));
           ExpressionStatement (NumericLiteral 1);
           ExpressionStatement
             (CallExpression (Identifier "c") [NumericLiteral 2])])
  /\ parse "a (b)"
     = Ok (one (CallExpression (Identifier "a") [Identifier "b"])).
Proof.
  split; [|vm_compute; reflexivity].
  apply (X23_statements_in_sequence
           [MemberExpression false (Identifier "a") (Identifier "b");
            NumericLiteral 1;
            CallExpression (Identifier "c") [NumericLiteral 2]]).
  split.
  - repeat (constructor; [split; reflexivity|]). constructor.
  - repeat (constructor; [reflexivity|]). constructor.
Defined.

(** X24: the rendering of a [new] expression whose callee is a pure,
    well-formed tree other than a call, and whose arguments are pure and
    well formed, parses to it. *)
Theorem X24_new_round_trip callee args :
  operand callee -> is_call callee = false -> Forall operand args ->
  parse (Program_ToString (one (NewExpression callee args)))
  = Ok (one (NewExpression callee args)).
Proof.
  intros Hc Hn Ha. rewrite Program_ToString_one.
  apply reparse_new; assumption.
Qed.

(** X24 at [new a.B(1, 'x')]. *)
Lemma X24_new_round_trip_witness :
  Program_ToString
    (one (NewExpression
            (MemberExpression false (Identifier "a") (Identifier "B"))
            [NumericLiteral 1; StringLiteral "'x'"]))
  = "new a.B(1, 'x')"
  /\ parse "new a.B(1, 'x')"
     = Ok (one (NewExpression
                  (MemberExpression false (Identifier "a") (Identifier "B"))
                  [NumericLiteral 1; StringLiteral "'x'"])).
Proof.
  split; [reflexivity|].
  apply (X24_new_round_trip
           (MemberExpression false (Identifier "a") (Identifier "B"))
           [NumericLiteral 1; StringLiteral "'x'"]).
  - split; reflexivity.
  - reflexivity.
  - repeat (constructor; [split; reflexivity|]). constructor.
Defined.

(** X25: the rendering of a call of [super] with pure, well-formed
    arguments parses to it. *)
Theorem X25_super_round_trip args :
  Forall operand args ->
  parse (Program_ToString (one (CallExpression SuperExpression args)))
  = Ok (one (CallExpression SuperExpression args)).
Proof.
  intros Ha. rewrite Program_ToString_one. apply reparse_super. exact Ha.
Qed.

(** X25 at [super(a, (b+1))]. *)
Lemma X25_super_round_trip_witness :
  Program_ToString
    (one (CallExpression SuperExpression
            [Identifier "a";
             BinaryExpression "+" (Identifier "b") (NumericLiteral 1)]))
  = "super(a, (b+1))"
  /\ parse "super(a, (b+1))"
     = Ok (one (CallExpression SuperExpression
                  [Identifier "a";
                   BinaryExpression "+" (Identifier "b")
                     (NumericLiteral 1)])).
Proof.
  split; [reflexivity|].
  apply (X25_super_round_trip
           [Identifier "a";
            BinaryExpression "+" (Identifier "b") (NumericLiteral 1)]).
  repeat (constructor; [split; reflexivity|]). constructor.
Defined.

(** X27: prefix operators nest to the right: the operators [+], [-] and
    [!], written one after the other before a rendered operand, parse to
    the unary nodes in their order, the first outermost. *)
Theorem X27_prefix_operators_nest ops e :
  Forall (fun op => In op prefix_ops) ops -> operand e ->
  parse (String.concat EmptyString ops ++ Expression_ToString e)
  = Ok (one (prefixed ops e)).
Proof.
  intros Hops He.
  destruct (stream_text _ _ (lexes_to_prefixed ops e Hops He))
    as (pE & Hs & Heof).
  apply (parse_single _ _ pE).
  - destruct Hops as [|op ops Hop Hops].
    + apply first_ok_not_EOF. destruct He as [Hp _].
      eapply stream_first; eauto.
    + cbn [prefix_toks map List.app] in Hs.
      apply stream_cons_inv in Hs as [-> _]. cbn [Type_].
      apply (prefix_op_type op Hop).
  - apply climb; [|rewrite Heof; reflexivity].
    apply prefixed_runs; auto. rewrite Heof. reflexivity.
  - rewrite Heof. reflexivity.
Qed.

(** X27 at [-!+a.b]. *)
Lemma X27_prefix_operators_nest_witness :
  parse "-!+a.b"
  = Ok (one (UnaryExpression "-"
               (UnaryExpression "!"
                  (UnaryExpression "+"
                     (MemberExpression false (Identifier "a")
                        (Identifier "b")))))).
Proof.
  apply (X27_prefix_operators_nest ["-"; "!"; "+"]
           (MemberExpression false (Identifier "a") (Identifier "b"))).
  - repeat (constructor; [cbn; tauto|]). constructor.
  - split; reflexivity.
Defined.

(* ================================================================== *)
(** ** The program *)

(** X26: [main] parses its source, a chain of member accesses and calls,
    and prints it back as it is written, with a newline. *)
Theorem X26_main_prints_its_source :
  main.main = Ok (main.input ++ newline).
Proof. vm_compute. reflexivity. Qed.
